(** * Variable elimination over discrete Bayesian networks

    A shallow embedding of [factor.py], [bayes.py] and the pedigree
    network builder of [genetics.py], with the properties of the factor
    algebra and of the elimination engine proved over it.

    Numbers.  The Python code stores [float]s, IEEE 754 binary64 numbers.
    The engine is given twice.  The first set of definitions computes with
    exact rationals ([Qc], canonical fractions with Leibniz equality): it
    is the engine in exact arithmetic.  The module [Num] is the same code
    over an arbitrary arithmetic on the table values, with the instances
    [Num.exact] and [Num.binary64] (Rocq's primitive floats, which are
    binary64 numbers with the rounding that Python uses).  Scopes, keys and
    exceptions do not depend on the arithmetic: a run over any arithmetic
    and the exact run on tables with the same keys return results of the
    same shape or raise the same exception (the lemmas [rel_...] and
    [shape_...]); the one exception is the test [denom == 0] of the final
    division.  What is said about them is proved over the exact engine.
    What is said about the numbers holds for every arithmetic where it is
    stated over [Num], and holds without rounding only where it is stated
    for the exact run on the same tables.

    Containers.  A Python [dict] used as a factor table is an
    insertion-ordered association list (the order is the order in which
    [items()] iterates); an event and the domain registry, which are only
    ever read by key, are [gmap]s; a Python [set] of variable names is a
    [gset], and the order in which a [for] loop visits it is a parameter.

    Errors.  A raised exception is the [Err] branch of the [result]
    monad. *)

From Stdlib Require Import Floats QArith Qcanon.
From stdpp Require Import base strings numbers option gmap sets list.

Local Open Scope Qc_scope.
Local Set Warnings "-clear-no-such-hyp".
Local Set Warnings "-inexact-float".


(** ** Exceptions and the error monad *)

(** The exceptions the three modules can raise.  [factor.py] raises
    [KeyError] with two different messages; the specification names them
    [MissingVariable] and [KeyNotFound].  Indexing a built-in [dict] at an
    absent key is [DictKeyError], [list.index] of an absent element is
    [IndexValueError], and a float division by zero is
    [ZeroDivisionError] (the specification's [ZeroProbabilityEvidence]). *)
Inductive exn : Type :=
  | MissingVariable (var : string)
  | KeyNotFound
  | DictKeyError (key : string)
  | IndexValueError
  | ZeroDivisionError.

Inductive result (A : Type) : Type :=
  | Ok (a : A)
  | Err (e : exn).
Arguments Ok {A} a.
Arguments Err {A} e.

Global Instance result_ret : MRet result := λ A a, Ok a.
Global Instance result_bind : MBind result := λ A B k r,
  match r with
  | Ok a => k a
  | Err e => Err e
  end.

Global Instance result_fmap : FMap result := λ A B f r,
  match r with
  | Ok a => Ok (f a)
  | Err e => Err e
  end.

(** A [for] loop whose body may raise: the first exception ends it. *)
Fixpoint foldM {A B : Type} (step : B → A → result B) (acc : B) (l : list A)
    : result B :=
  match l with
  | [] => Ok acc
  | x :: l' => acc' ← step acc x; foldM step acc' l'
  end.

(** A list comprehension whose element expression may raise. *)
Fixpoint mapM_result {A B : Type} (f : A → result B) (l : list A)
    : result (list B) :=
  match l with
  | [] => Ok []
  | x :: l' => y ← f x; ys ← mapM_result f l'; Ok (y :: ys)
  end.

Global Instance exn_eq_dec : EqDecision exn.
Proof. solve_decision. Defined.
Global Instance result_eq_dec {A : Type} `{EqDecision A} : EqDecision (result A).
Proof. solve_decision. Defined.

(** The three error kinds of the specification, and the exceptions that
    carry them. *)
Inductive error_kind : Type :=
  | KindMissingVariable
  | KindKeyNotFound
  | KindZeroProbabilityEvidence.

Definition kind_of (e : exn) : option error_kind :=
  match e with
  | MissingVariable _ => Some KindMissingVariable
  | KeyNotFound => Some KindKeyNotFound
  | ZeroDivisionError => Some KindZeroProbabilityEvidence
  | DictKeyError _ | IndexValueError => None
  end.

(** ** Data model *)

(** Variable names and value labels are Python strings; a table key is a
    tuple of labels. *)
Abbreviation var := string (only parsing).
Abbreviation value := string (only parsing).
Abbreviation key := (list string) (only parsing).
Abbreviation event := (gmap string string) (only parsing).
Abbreviation registry := (gmap string (list string)) (only parsing).

(** *** Python dictionaries as insertion-ordered tables *)

Abbreviation table := (list (list string * Qc)) (only parsing).

(** [k in d] and [d[k]]. *)
Fixpoint dict_get (d : table) (k : key) : option Qc :=
  match d with
  | [] => None
  | (k', x) :: d' => if decide (k = k') then Some x else dict_get d' k
  end.

(** [d[k] = x]: an existing key keeps its position, a new key goes last. *)
Fixpoint dict_set (d : table) (k : key) (x : Qc) : table :=
  match d with
  | [] => [(k, x)]
  | (k', x') :: d' =>
      if decide (k = k') then (k, x) :: d' else (k', x') :: dict_set d' k x
  end.

(** [d[k] += x] on a [defaultdict(float)]: a missing key starts at [0.0]. *)
Definition dict_add (d : table) (k : key) (x : Qc) : table :=
  dict_set d k (default 0 (dict_get d k) + x).

(** The sum of all values of a table. *)
Definition total (d : table) : Qc := foldr Qcplus 0 (d.*2).

(** *** factor.py *)

Record Factor : Type := mkFactor {
  variables : list string;
  values : table
}.

Global Instance Factor_eq_dec : EqDecision Factor.
Proof. solve_decision. Defined.

(** The loop of [Factor.__getitem__] that builds the key, in scope order. *)
Fixpoint build_key (vars : list string) (ev : event) : result key :=
  match vars with
  | [] => Ok []
  | v :: vars' =>
      match ev !! v with
      | None => Err (MissingVariable v)
      | Some x => k ← build_key vars' ev; Ok (x :: k)
      end
  end.

(** [Factor.__getitem__]. *)
Definition getitem (f : Factor) (ev : event) : result Qc :=
  k ← build_key (variables f) ev;
  match dict_get (values f) k with
  | Some x => Ok x
  | None => Err KeyNotFound
  end.

(** [itertools.product] over the domain lists: the last list varies fastest. *)
Fixpoint product (dom_lists : list (list string)) : list key :=
  match dom_lists with
  | [] => [[]]
  | d :: ds => x ← d; (x ::.) <$> product ds
  end.

(** The event built from [zip(vars, values)], later pairs overriding. *)
Definition zip_event (vars : list string) (vals : key) : event :=
  foldl (λ ev p, <[p.1 := p.2]> ev) ∅ (zip vars vals).

(** [domains[v]] on the registry. *)
Definition domain_of (domains : registry) (v : string) : result (list string) :=
  match domains !! v with
  | Some d => Ok d
  | None => Err (DictKeyError v)
  end.

(** [events]. *)
Definition events (vars : list string) (domains : registry)
    : result (list event) :=
  dom_lists ← mapM_result (domain_of domains) vars;
  Ok (zip_event vars <$> product dom_lists).

(** [f.variables.index(var)]. *)
Fixpoint index (l : list string) (x : string) : result nat :=
  match l with
  | [] => Err IndexValueError
  | y :: l' => if decide (y = x) then Ok 0%nat else S <$> index l' x
  end.

(** [event[:idx] + event[idx+1:]]. *)
Definition slice_out (idx : nat) (k : key) : key :=
  take idx k ++ drop (S idx) k.

(** [marginalize]. *)
Definition marginalize (f : Factor) (v : string) : result Factor :=
  idx ← index (variables f) v;
  let new_vars := filter (λ w, w ≠ v) (variables f) in
  let new_vals :=
    foldl (λ acc p, dict_add acc (slice_out idx p.1) p.2) [] (values f) in
  Ok (mkFactor new_vars new_vals).

(** The first loop of [multiply_factors]: the scope of the product. *)
Definition add_var (new_vars : list string) (v : string) : list string :=
  if decide (v ∈ new_vars) then new_vars else new_vars ++ [v].

Definition union_scope (factors : list Factor) : list string :=
  foldl (λ new_vars f, foldl add_var new_vars (variables f)) [] factors.

(** [tuple(ev[v] for v in new_vars)]. *)
Definition tuple_of (ev : event) (vars : list string) : result key :=
  mapM_result (λ v, match ev !! v with
                    | Some x => Ok x
                    | None => Err (DictKeyError v)
                    end) vars.

(** The inner loop of [multiply_factors]: [prod_val *= f[ev]]. *)
Definition prod_at (factors : list Factor) (ev : event) : result Qc :=
  foldM (λ prod_val f, x ← getitem f ev; Ok (prod_val * x)) 1 factors.

(** [multiply_factors].  The source calls [events] twice with the same
    arguments; the first result is not used. *)
Definition multiply_factors (factors : list Factor) (domains : registry)
    : result Factor :=
  let new_vars := union_scope factors in
  _ ← events new_vars domains;
  evs ← events new_vars domains;
  new_vals ← foldM (λ new_vals ev,
                prod_val ← prod_at factors ev;
                k ← tuple_of ev new_vars;
                Ok (dict_set new_vals k prod_val)) [] evs;
  Ok (mkFactor new_vars new_vals).

(** *** bayes.py *)

Record BayesianNetwork : Type := mkNet {
  factors : list Factor;
  domains : registry
}.

Global Instance BayesianNetwork_eq_dec : EqDecision BayesianNetwork.
Proof. solve_decision. Defined.

(** The attribute [variables] that [BayesianNetwork.__init__] derives. *)
Definition net_variables (bnet : BayesianNetwork) : gset string :=
  foldl (λ vs f, vs ∪ list_to_set (variables f)) ∅ (factors bnet).

(** [eliminate]. *)
Definition eliminate (bnet : BayesianNetwork) (v : string)
    : result BayesianNetwork :=
  let with_var := filter (λ f, v ∈ variables f) (factors bnet) in
  let without_var := filter (λ f, v ∉ variables f) (factors bnet) in
  prod ← multiply_factors with_var (domains bnet);
  reduced ← marginalize prod v;
  Ok (mkNet (without_var ++ [reduced]) (domains bnet)).

(** The order in which a [for] loop visits a Python [set] is not fixed by
    the language: the loop of [compute_marginal] takes it from [iter], the
    iteration of the Python run at hand, which enumerates the set it is
    given, each element once. *)
Definition iteration_order (s : gset string) (order : list string) : Prop :=
  order ≡ₚ elements s.

Global Instance iteration_order_dec s order : Decision (iteration_order s order).
Proof. unfold iteration_order. apply _. Defined.

(** [compute_marginal]. *)
Definition compute_marginal (iter : gset string → list string)
    (bnet : BayesianNetwork) (vars : gset string) : result Factor :=
  let bn := mkNet (factors bnet) (domains bnet) in
  bn ← foldM eliminate bn (iter (net_variables bn ∖ vars));
  multiply_factors (factors bn) (domains bnet).

(** [compute_conditional].  In the merged dictionary
    [{**event, **evidence}] the evidence overrides the event on a common
    key, as the left-biased union [evidence ∪ ev] does. *)
Definition compute_conditional (iter : gset string → list string)
    (bnet : BayesianNetwork) (ev evidence : event) : result Qc :=
  let scope_e : gset string := dom ev ∪ dom evidence in
  joint ← compute_marginal iter bnet scope_e;
  num ← getitem joint (evidence ∪ ev);
  denom_factor ← compute_marginal iter bnet (dom evidence);
  denom ← getitem denom_factor evidence;
  if decide (denom = 0) then Err ZeroDivisionError else Ok (num / denom).

(** *** genetics.py *)

(** [FamilyMember]; [Male] and [Female] only fix the [sex] string. *)
#[warnings="-register-all"]
Inductive FamilyMember : Type :=
  mkFamilyMember (name sex : string) (mother father : option FamilyMember).

Definition get_name (p : FamilyMember) : string :=
  match p with mkFamilyMember name _ _ _ => name end.
Definition get_sex (p : FamilyMember) : string :=
  match p with mkFamilyMember _ sex _ _ => sex end.
Definition mother (p : FamilyMember) : option FamilyMember :=
  match p with mkFamilyMember _ _ mother _ => mother end.
Definition father (p : FamilyMember) : option FamilyMember :=
  match p with mkFamilyMember _ _ _ father => father end.

Definition Male (name : string) (mother father : option FamilyMember)
    : FamilyMember := mkFamilyMember name "male" mother father.
Definition Female (name : string) (mother father : option FamilyMember)
    : FamilyMember := mkFamilyMember name "female" mother father.

(** [create_variable_domains]. *)
Definition create_variable_domains (family : list FamilyMember) : registry :=
  foldl (λ result person,
    let name := get_name person in
    let result := <["M_" +:+ name := ["x"; "X"]]> result in
    let result := <["H_" +:+ name := ["-"; "+"]]> result in
    if decide (get_sex person = "female") then
      let result := <["P_" +:+ name := ["x"; "X"]]> result in
      <["G_" +:+ name := ["xx"; "xX"; "XX"]]> result
    else
      <["G_" +:+ name := ["xy"; "Xy"]]> result) ∅ family.

(** [1.0 if a == b else 0.0]. *)
Definition indicator (a b : string) : Qc := if decide (a = b) then 1 else 0.

(** [create_hemophilia_cpt]. *)
Definition create_hemophilia_cpt (person : FamilyMember) : Factor :=
  let name := get_name person in
  let H_N := "H_" +:+ name in
  let G_N := "G_" +:+ name in
  let '(genotypes, hemo) :=
    if decide (get_sex person = "female")
    then (["xx"; "xX"; "XX"],
          ({[ "xx" := "-"; "xX" := "-"; "XX" := "+" ]} : gmap string string))
    else (["xy"; "Xy"], {[ "xy" := "-"; "Xy" := "+" ]}) in
  let values :=
    foldl (λ values g,
      let values := dict_set values [g; "-"] (indicator (hemo !!! g) "-") in
      dict_set values [g; "+"] (indicator (hemo !!! g) "+")) [] genotypes in
  mkFactor [G_N; H_N] values.

(** [create_genotype_cpt]. *)
Definition create_genotype_cpt (person : FamilyMember) : Factor :=
  let name := get_name person in
  let G_N := "G_" +:+ name in
  let M_N := "M_" +:+ name in
  if decide (get_sex person = "female") then
    let P_N := "P_" +:+ name in
    let values :=
      foldl (λ values m,
        foldl (λ values p,
          let g := if decide (m = p ∧ p = "x") then "xx"
                   else if decide (m = p ∧ p = "X") then "XX"
                   else "xX" in
          foldl (λ values g_vars,
                   dict_set values [m; p; g_vars] (indicator g_vars g))
                values ["xx"; "xX"; "XX"])
          values ["x"; "X"])
        [] ["x"; "X"] in
    mkFactor [M_N; P_N; G_N] values
  else
    let values :=
      foldl (λ values m,
        let g := m +:+ "y" in
        foldl (λ values g_vars,
                 dict_set values [m; g_vars] (indicator g_vars g))
              values ["xy"; "Xy"])
        [] ["x"; "X"] in
    mkFactor [M_N; G_N] values.

(** The table of a founder's inherited gene: the mutation rate is
    [1/30000]. *)
Definition founder_values : table :=
  [(["x"], Q2Qc (29999 # 30000)); (["X"], Q2Qc (1 # 30000))].

(** [create_maternal_inheritance_cpt]. *)
Definition create_maternal_inheritance_cpt (person : FamilyMember) : Factor :=
  let name := get_name person in
  let M_N := "M_" +:+ name in
  match mother person with
  | None => mkFactor [M_N] founder_values
  | Some mom =>
      let G_A := "G_" +:+ get_name mom in
      let values :=
        foldl (λ values ga,
          if decide (ga = "xx") then
            dict_set (dict_set values [ga; "x"] 1) [ga; "X"] 0
          else if decide (ga = "xX") then
            dict_set (dict_set values [ga; "x"] (Q2Qc (1 # 2)))
                     [ga; "X"] (Q2Qc (1 # 2))
          else
            dict_set (dict_set values [ga; "x"] 0) [ga; "X"] 1)
          [] ["xx"; "xX"; "XX"] in
      mkFactor [G_A; M_N] values
  end.

(** [create_paternal_inheritance_cpt].  The source tests
    [person.get_sex == "male"], which compares the bound method itself with
    a string and is false for every person, so the branch that returns the
    table of ['y'] is never taken. *)
Definition create_paternal_inheritance_cpt (person : FamilyMember) : Factor :=
  let name := get_name person in
  let P_N := "P_" +:+ name in
  match father person with
  | None => mkFactor [P_N] founder_values
  | Some dad =>
      let G_A := "G_" +:+ get_name dad in
      let values :=
        foldl (λ values ga,
          if decide (ga = "xy") then
            dict_set (dict_set values [ga; "x"] 1) [ga; "X"] 0
          else
            dict_set (dict_set values [ga; "x"] 0) [ga; "X"] 1)
          [] ["xy"; "Xy"] in
      mkFactor [G_A; P_N] values
  end.

(** [create_family_bayes_net]. *)
Definition create_family_bayes_net (family : list FamilyMember)
    : BayesianNetwork :=
  let domains := create_variable_domains family in
  let cpts :=
    foldl (λ cpts person,
      let cpts :=
        if decide (get_sex person = "female")
        then cpts ++ [create_paternal_inheritance_cpt person]
        else cpts in
      cpts ++ [create_maternal_inheritance_cpt person;
               create_genotype_cpt person;
               create_hemophilia_cpt person]) [] family in
  mkNet cpts domains.

(** [romanoffs]: four members of the Russian royal family. *)
Definition alexandra : FamilyMember := Female "alexandra" None None.
Definition nicholas : FamilyMember := Male "nicholas" None None.
Definition alexey : FamilyMember :=
  Male "alexey" (Some alexandra) (Some nicholas).
Definition anastasia : FamilyMember :=
  Female "anastasia" (Some alexandra) (Some nicholas).
Definition romanoffs
    : FamilyMember * FamilyMember * FamilyMember * FamilyMember :=
  (alexandra, nicholas, alexey, anastasia).

(** The CPTs that [create_family_bayes_net] appends for one person. *)
Definition cpts_of (person : FamilyMember) : list Factor :=
  (if decide (get_sex person = "female")
   then [create_paternal_inheritance_cpt person] else [])
  ++ [create_maternal_inheritance_cpt person;
      create_genotype_cpt person;
      create_hemophilia_cpt person].

(** The body of the loop of [create_variable_domains], for one person. *)
Definition person_domains (result : registry) (person : FamilyMember)
    : registry :=
  let name := get_name person in
  let result := <["M_" +:+ name := ["x"; "X"]]> result in
  let result := <["H_" +:+ name := ["-"; "+"]]> result in
  if decide (get_sex person = "female") then
    let result := <["P_" +:+ name := ["x"; "X"]]> result in
    <["G_" +:+ name := ["xx"; "xX"; "XX"]]> result
  else
    <["G_" +:+ name := ["xy"; "Xy"]]> result.

(** The variable names built from one person's name, and the genotype
    labels of a person. *)
Definition person_keys (n : string) : list string :=
  ["M_" +:+ n; "H_" +:+ n; "P_" +:+ n; "G_" +:+ n].

Definition genotypes_of (p : FamilyMember) : list string :=
  if decide (get_sex p = "female") then ["xx"; "xX"; "XX"] else ["xy"; "Xy"].

(** The variables that [create_variable_domains] registers for one
    person. *)
Definition person_variables (p : FamilyMember) : list string :=
  let n := get_name p in
  if decide (get_sex p = "female")
  then ["M_" +:+ n; "H_" +:+ n; "P_" +:+ n; "G_" +:+ n]
  else ["M_" +:+ n; "H_" +:+ n; "G_" +:+ n].

(** The four domains of the hemophilia network. *)
Definition pedigree_domains : list (list string) :=
  [["x"; "X"]; ["-"; "+"]; ["xx"; "xX"; "XX"]; ["xy"; "Xy"]].

(** A table that is not empty and holds [1] in every entry. *)
Definition unit_rows (t : table) : Prop :=
  t ≠ [] ∧ Forall (λ kv, kv.2 = 1) t.

Global Instance unit_rows_dec t : Decision (unit_rows t).
Proof. unfold unit_rows. apply _. Defined.

(** A pedigree the builders of [genetics.py] can represent: the names are
    distinct, a recorded mother is the name of a female member of the
    family, and the recorded father of a female member is the name of a
    member that is not female (the builders treat every sex other than
    ["female"] as male, and refer to parents by name only). *)
Definition mother_recorded (family : list FamilyMember) (p : FamilyMember)
    : Prop :=
  match mother p with
  | None => True
  | Some mom =>
      Exists (λ q, get_name q = get_name mom ∧ get_sex q = "female") family
  end.

Definition father_recorded (family : list FamilyMember) (p : FamilyMember)
    : Prop :=
  match father p with
  | None => True
  | Some dad =>
      get_sex p = "female" →
      Exists (λ q, get_name q = get_name dad ∧ get_sex q ≠ "female") family
  end.

Definition consistent_pedigree (family : list FamilyMember) : Prop :=
  NoDup (get_name <$> family) ∧
  Forall (λ p, mother_recorded family p ∧ father_recorded family p) family.

Global Instance mother_recorded_dec family p : Decision (mother_recorded family p).
Proof. unfold mother_recorded. destruct (mother p); apply _. Defined.
Global Instance father_recorded_dec family p : Decision (father_recorded family p).
Proof. unfold father_recorded. destruct (father p); apply _. Defined.
Global Instance consistent_pedigree_dec family :
  Decision (consistent_pedigree family).
Proof. unfold consistent_pedigree. apply _. Defined.

(** ** Well-formed inputs (specification, sections 3 and 6) *)

(** The registry lists distinct labels for every variable. *)
Definition wf_domains (D : registry) : Prop :=
  map_Forall (λ _ d, NoDup d) D.

(** A well-formed factor: its scope is a sequence of distinct registered
    variables, and its table has exactly one entry for each combination of
    domain values of the scope variables, and no other entry. *)
Definition wf_factor (D : registry) (f : Factor) : Prop :=
  NoDup (variables f) ∧
  NoDup (values f).*1 ∧
  match mapM (D !!.) (variables f) with
  | Some doms => (values f).*1 ≡ₚ product doms
  | None => False
  end.

Definition wf_network (bnet : BayesianNetwork) : Prop :=
  wf_domains (domains bnet) ∧ Forall (wf_factor (domains bnet)) (factors bnet).

(** The variable has at least one value. *)
Definition inhabited_domain (D : registry) (v : string) : Prop :=
  match D !! v with
  | Some d => d ≠ []
  | None => False
  end.

(** The event gives the variable a value of its domain. *)
Definition assigns (D : registry) (ev : event) (v : string) : Prop :=
  match ev !! v, D !! v with
  | Some x, Some d => x ∈ d
  | _, _ => False
  end.

(** A full assignment over a set of variables (the event may mention
    further variables). *)
Definition full_assignment (D : registry) (X : gset string) (ev : event)
    : Prop :=
  set_Forall (assigns D ev) X.

Global Instance wf_factor_dec D f : Decision (wf_factor D f).
Proof.
  unfold wf_factor. destruct (mapM (D !!.) (variables f)); apply _.
Defined.
Global Instance wf_network_dec bnet : Decision (wf_network bnet).
Proof. unfold wf_network, wf_domains. apply _. Defined.
Global Instance inhabited_domain_dec D v : Decision (inhabited_domain D v).
Proof. unfold inhabited_domain. destruct (D !! v); apply _. Defined.
Global Instance assigns_dec D ev v : Decision (assigns D ev v).
Proof. unfold assigns. destruct (ev !! v), (D !! v); apply _. Defined.
Global Instance full_assignment_dec D X ev : Decision (full_assignment D X ev).
Proof. unfold full_assignment. apply _. Defined.

(** ** The meaning of a factor list *)

Definition Qc_sum (l : list Qc) : Qc := foldr Qcplus 0 l.
Definition Qc_prod (l : list Qc) : Qc := foldr Qcmult 1 l.

(** The number a factor holds at an event ([0] where the lookup raises). *)
Definition value_at (f : Factor) (ev : event) : Qc :=
  match getitem f ev with
  | Ok x => x
  | Err _ => 0
  end.

(** The product of a list of factors at an event. *)
Definition joint_value (fs : list Factor) (ev : event) : Qc :=
  Qc_prod ((λ f, value_at f ev) <$> fs).

(** Summing a function of events over all values of a variable. *)
Definition sum_over (D : registry) (v : string) (F : event → Qc) (ev : event)
    : Qc :=
  Qc_sum ((λ x, F (<[v := x]> ev)) <$> default [] (D !! v)).

(** Summing out the variables of [order], the first one innermost. *)
Fixpoint marginal_sum (D : registry) (order : list string) (F : event → Qc)
    (ev : event) : Qc :=
  match order with
  | [] => F ev
  | v :: order' => marginal_sum D order' (sum_over D v F) ev
  end.

(** The ordered union of the specification: every element once, in the
    order of first occurrence. *)
Fixpoint first_occurrences (l : list string) : list string :=
  match l with
  | [] => []
  | x :: l' => x :: filter (λ y, y ≠ x) (first_occurrences l')
  end.

(** ** The engine over an arbitrary arithmetic *)

(** The engine of [factor.py] and [bayes.py] applies five operations to
    table values: the constants [0.0] and [1.0], [+], [*] and [/], the
    last one raising [ZeroDivisionError] when the divisor compares equal to
    zero.  [Num] is the same code as above with these operations taken from
    a structure [Arith R]; everything that does not touch a table value
    ([build_key], [events], [index], [slice_out], [tuple_of], ...) is shared
    with the definitions above. *)
Module Num.

Class Arith (R : Type) : Type := {
  zero : R;
  one : R;
  add : R → R → R;
  mul : R → R → R;
  div : R → R → R;
  is_zero : R → bool
}.

(** Exact arithmetic on rationals. *)
Global Instance exact : Arith Qc := {|
  zero := 0;
  one := 1;
  add := Qcplus;
  mul := Qcmult;
  div := Qcdiv;
  is_zero := λ x, bool_decide (x = 0)
|}.

(** The arithmetic of Python's [float]: IEEE 754 binary64, rounding to
    nearest, ties to even.  [x == 0.0] holds for both zeros. *)
Global Instance binary64 : Arith float := {|
  zero := PrimFloat.zero;
  one := PrimFloat.one;
  add := PrimFloat.add;
  mul := PrimFloat.mul;
  div := PrimFloat.div;
  is_zero := λ x, PrimFloat.eqb x PrimFloat.zero
|}.

Section Engine.
Context {R : Type} `{!Arith R}.

(** [k in d] and [d[k]]. *)
Fixpoint dict_get (d : list (list string * R)) (k : list string) : option R :=
  match d with
  | [] => None
  | (k', x) :: d' => if decide (k = k') then Some x else dict_get d' k
  end.

(** [d[k] = x]. *)
Fixpoint dict_set (d : list (list string * R)) (k : list string) (x : R)
    : list (list string * R) :=
  match d with
  | [] => [(k, x)]
  | (k', x') :: d' =>
      if decide (k = k') then (k, x) :: d' else (k', x') :: dict_set d' k x
  end.

(** [d[k] += x] on a [defaultdict(float)]: a missing key starts at [0.0]. *)
Definition dict_add (d : list (list string * R)) (k : list string) (x : R)
    : list (list string * R) :=
  dict_set d k (add (default zero (dict_get d k)) x).

(** [sum(d.values())]: the values added from left to right, starting at
    zero. *)
Definition total (d : list (list string * R)) : R := foldl add zero (d.*2).

Record Factor : Type := mkFactor {
  variables : list string;
  values : list (list string * R)
}.

(** [Factor.__getitem__]. *)
Definition getitem (f : Factor) (ev : event) : result R :=
  k ← build_key (variables f) ev;
  match dict_get (values f) k with
  | Some x => Ok x
  | None => Err KeyNotFound
  end.

(** [marginalize]. *)
Definition marginalize (f : Factor) (v : string) : result Factor :=
  idx ← index (variables f) v;
  let new_vars := filter (λ w, w ≠ v) (variables f) in
  let new_vals :=
    foldl (λ acc p, dict_add acc (slice_out idx p.1) p.2) [] (values f) in
  Ok (mkFactor new_vars new_vals).

Definition union_scope (factors : list Factor) : list string :=
  foldl (λ new_vars f, foldl add_var new_vars (variables f)) [] factors.

(** The inner loop of [multiply_factors]: [prod_val = 1.0] and then
    [prod_val *= f[ev]] for every factor, in list order. *)
Definition prod_at (factors : list Factor) (ev : event) : result R :=
  foldM (λ prod_val f, x ← getitem f ev; Ok (mul prod_val x)) one factors.

(** [multiply_factors]. *)
Definition multiply_factors (factors : list Factor) (domains : registry)
    : result Factor :=
  let new_vars := union_scope factors in
  _ ← events new_vars domains;
  evs ← events new_vars domains;
  new_vals ← foldM (λ new_vals ev,
                prod_val ← prod_at factors ev;
                k ← tuple_of ev new_vars;
                Ok (dict_set new_vals k prod_val)) [] evs;
  Ok (mkFactor new_vars new_vals).

Record BayesianNetwork : Type := mkNet {
  factors : list Factor;
  domains : registry
}.

Definition net_variables (bnet : BayesianNetwork) : gset string :=
  foldl (λ vs f, vs ∪ list_to_set (variables f)) ∅ (factors bnet).

(** [eliminate]. *)
Definition eliminate (bnet : BayesianNetwork) (v : string)
    : result BayesianNetwork :=
  let with_var := filter (λ f, v ∈ variables f) (factors bnet) in
  let without_var := filter (λ f, v ∉ variables f) (factors bnet) in
  prod ← multiply_factors with_var (domains bnet);
  reduced ← marginalize prod v;
  Ok (mkNet (without_var ++ [reduced]) (domains bnet)).

(** [compute_marginal]. *)
Definition compute_marginal (iter : gset string → list string)
    (bnet : BayesianNetwork) (vars : gset string) : result Factor :=
  let bn := mkNet (factors bnet) (domains bnet) in
  bn ← foldM eliminate bn (iter (net_variables bn ∖ vars));
  multiply_factors (factors bn) (domains bnet).

(** [compute_conditional]: [num / denom] raises [ZeroDivisionError] when
    [denom == 0]. *)
Definition compute_conditional (iter : gset string → list string)
    (bnet : BayesianNetwork) (ev evidence : event) : result R :=
  let scope_e : gset string := dom ev ∪ dom evidence in
  joint ← compute_marginal iter bnet scope_e;
  num ← getitem joint (evidence ∪ ev);
  denom_factor ← compute_marginal iter bnet (dom evidence);
  denom ← getitem denom_factor evidence;
  if is_zero denom then Err ZeroDivisionError else Ok (div num denom).

(** Well-formed factors and networks, as above: the conditions concern
    scopes and keys only. *)
Definition wf_factor (D : registry) (f : Factor) : Prop :=
  NoDup (variables f) ∧
  NoDup (values f).*1 ∧
  match mapM (D !!.) (variables f) with
  | Some doms => (values f).*1 ≡ₚ product doms
  | None => False
  end.

Definition wf_network (bnet : BayesianNetwork) : Prop :=
  wf_domains (domains bnet) ∧ Forall (wf_factor (domains bnet)) (factors bnet).

(** The values of the entries whose key, with position [idx] removed, is
    [k], in the order of the table. *)
Definition group (idx : nat) (t : list (list string * R)) (k : list string)
    : list R :=
  (filter (λ p, slice_out idx p.1 = k) t).*2.

End Engine.

Arguments Factor R : clear implicits.
Arguments BayesianNetwork R : clear implicits.

Global Instance wf_factor_decision {R : Type} D (f : Factor R) :
  Decision (wf_factor D f).
Proof.
  unfold wf_factor. destruct (mapM (D !!.) (variables f)); apply _.
Defined.
Global Instance wf_network_decision {R : Type} (bnet : BayesianNetwork R) :
  Decision (wf_network bnet).
Proof. unfold wf_network, wf_domains. apply _. Defined.

End Num.

(** The same tables with every stored number read as a rational by [σ]:
    the input of the engine in exact arithmetic. *)
Definition exact_factor {R : Type} (σ : R → Qc) (f : Num.Factor R) : Factor :=
  mkFactor (Num.variables f) (prod_map id σ <$> Num.values f).

Definition exact_net {R : Type} (σ : R → Qc) (bnet : Num.BayesianNetwork R)
    : BayesianNetwork :=
  mkNet (exact_factor σ <$> Num.factors bnet) (Num.domains bnet).

(** The rational number that a finite binary64 number is. *)
Definition float_value (x : float) : Qc :=
  match Prim2SF x with
  | S754_finite s m e =>
      Q2Qc (inject_Z (if s then Z.neg m else Z.pos m) * Qpower 2 e)
  | _ => 0
  end.

(** ** Two runs of the engine side by side *)

(** Two results are related when both are values, related by [P], or both
    are the same exception. *)
Definition result_rel {A B : Type} (P : A → B → Prop)
    (r : result A) (r' : result B) : Prop :=
  match r, r' with
  | Ok a, Ok b => P a b
  | Err e, Err e' => e = e'
  | _, _ => False
  end.

(** Two tables with the same keys in the same order, whose values are
    related by [ρ]; factors and networks over such tables. *)
Definition table_rel {R : Type} (ρ : R → Qc → Prop)
    (t : list (list string * R)) (t' : table) : Prop :=
  Forall2 (λ a b, a.1 = b.1 ∧ ρ a.2 b.2) t t'.

Definition factor_rel {R : Type} (ρ : R → Qc → Prop)
    (f : Num.Factor R) (g : Factor) : Prop :=
  Num.variables f = variables g ∧ table_rel ρ (Num.values f) (values g).

Definition net_rel {R : Type} (ρ : R → Qc → Prop)
    (bnet : Num.BayesianNetwork R) (bnet' : BayesianNetwork) : Prop :=
  Forall2 (factor_rel ρ) (Num.factors bnet) (factors bnet') ∧
  Num.domains bnet = domains bnet'.

(** Two factors of the same shape: the same scope and the same keys. *)
Definition same_shape {R : Type} (f : Num.Factor R) (g : Factor) : Prop :=
  factor_rel (λ _ _, True) f g.

(** ** Examples *)

(** *** Two independent uniform binary variables *)

Definition half : Qc := Q2Qc (1 # 2).

Definition coin (v : string) : Factor :=
  mkFactor [v] [(["0"], half); (["1"], half)].

Definition two_coins : BayesianNetwork :=
  mkNet [coin "A"; coin "B"] {[ "A" := ["0"; "1"]; "B" := ["0"; "1"] ]}.

(** *** A variable without values *)

Definition empty_domain_net : BayesianNetwork :=
  mkNet [mkFactor ["A"; "B"] []] {[ "A" := []; "B" := ["0"; "1"] ]}.


(** *** A variable with a certain value, next to a coin *)

Definition certain (v : string) : Factor :=
  mkFactor [v] [(["0"], 0); (["1"], 1)].


(** *** A carrier mother and her son, the father not recorded *)

Definition carrier_mother : FamilyMember := Female "mother" None None.
Definition carrier_son : FamilyMember := Male "son" (Some carrier_mother) None.
Definition carrier_net : BayesianNetwork :=
  create_family_bayes_net [carrier_mother; carrier_son].

(** The query of the pedigree scenario: the son has hemophilia, given
    that the genotype of the mother is the carrier genotype. *)
Definition son_affected : event := {[ "H_son" := "+" ]}.
Definition mother_carrier : event := {[ "G_mother" := "xX" ]}.

(** One way of visiting the variables of that network. *)
Definition pedigree_iter (s : gset string) : list string :=
  filter (λ v, v ∈ s)
    ["P_mother"; "M_mother"; "H_mother"; "M_son"; "G_son"; "H_son";
     "G_mother"].

(** *** Tables of binary64 numbers *)

(** A factor over two binary variables, and a network of two independent
    binary variables, neither of them normalised. *)
Definition tenths : Num.Factor float :=
  Num.mkFactor ["A"; "B"]
    [(["0"; "0"], 0.1%float); (["0"; "1"], 0.7%float);
     (["1"; "0"], 0.2%float); (["1"; "1"], 0.3%float)].

Definition tenths_net : Num.BayesianNetwork float :=
  Num.mkNet
    [Num.mkFactor ["A"] [(["0"], 0.1%float); (["1"], 0.7%float)];
     Num.mkFactor ["B"] [(["0"], 0.3%float); (["1"], 0.7%float)]]
    {[ "A" := ["0"; "1"]; "B" := ["0"; "1"] ]}.

(** * Properties *)

(** Closed decidable statements are settled by evaluation. *)
Ltac by_evaluation := apply (bool_decide_unpack _); vm_compute; exact I.

Example two_coins_marginal_A :
  compute_marginal (λ _, ["B"]) two_coins {["A"]}
  = Ok (mkFactor ["A"] [(["0"], half); (["1"], half)]).
Proof. vm_compute. reflexivity. Qed.

(** ** The error monad *)

Lemma bind_Ok {A B : Type} (r : result A) (k : A → result B) (b : B) :
  r ≫= k = Ok b ↔ ∃ a, r = Ok a ∧ k a = Ok b.
Proof.
  destruct r as [a|e]; simpl; split.
  - intros H. exists a. done.
  - intros (a' & [= <-] & H). done.
  - intros [=].
  - intros (a' & [=] & _).
Qed.

Lemma mapM_result_pure {A B : Type} (f : A → result B) (f' : A → B)
    (l : list A) :
  (∀ x, x ∈ l → f x = Ok (f' x)) → mapM_result f l = Ok (f' <$> l).
Proof.
  induction l as [|x l IH]; intros Hf; simpl; [done|].
  rewrite Hf; [|left]. simpl. rewrite IH; [done|].
  intros y Hy. apply Hf. by right.
Qed.

(** ** Dictionaries *)

Lemma dict_get_None (d : table) (k : key) :
  dict_get d k = None ↔ k ∉ d.*1.
Proof.
  induction d as [|[k' x] d IH]; simpl.
  - split; [intros _; apply not_elem_of_nil | done].
  - rewrite not_elem_of_cons. destruct (decide (k = k')) as [->|Hne].
    + split; [done | intros [? _]; done].
    + rewrite IH. tauto.
Qed.

Lemma dict_get_Some_elem (d : table) (k : key) (x : Qc) :
  dict_get d k = Some x → (k, x) ∈ d.
Proof.
  induction d as [|[k' x'] d IH]; simpl; [done|].
  destruct (decide (k = k')) as [->|Hne].
  - intros [= ->]. left.
  - intros H. right. by apply IH.
Qed.

Lemma dict_get_elem (d : table) (k : key) (x : Qc) :
  NoDup d.*1 → (k, x) ∈ d → dict_get d k = Some x.
Proof.
  induction d as [|[k' x'] d IH]; simpl; intros Hnd Hin.
  - by apply elem_of_nil in Hin.
  - apply NoDup_cons in Hnd as [Hk' Hnd].
    apply elem_of_cons in Hin as [[= <- <-]|Hin].
    + by rewrite decide_True.
    + rewrite decide_False; [by apply IH|].
      intros ->. apply Hk'. apply list_elem_of_fmap. by exists (k', x).
Qed.

Lemma dict_get_set (d : table) (k k' : key) (x : Qc) :
  dict_get (dict_set d k x) k'
  = if decide (k' = k) then Some x else dict_get d k'.
Proof.
  induction d as [|[k0 x0] d IH]; simpl.
  - done.
  - destruct (decide (k = k0)) as [->|Hne]; simpl.
    + destruct (decide (k' = k0)); done.
    + rewrite IH. destruct (decide (k' = k0)) as [->|?]; [|done].
      by rewrite decide_False.
Qed.

Lemma dict_set_keys (d : table) (k : key) (x : Qc) :
  (dict_set d k x).*1 = if decide (k ∈ d.*1) then d.*1 else d.*1 ++ [k].
Proof.
  induction d as [|[k0 x0] d IH]; csimpl.
  - done.
  - destruct (decide (k = k0)) as [->|Hne]; csimpl.
    + clear IH. case_decide as Hin; [done | exfalso; apply Hin; left].
    + rewrite IH. destruct (decide (k ∈ d.*1)) as [Hin|Hin].
      * case_decide as Hin'; [done | exfalso; apply Hin'; by right].
      * case_decide as Hin'; [|done].
        apply elem_of_cons in Hin' as [?|?]; done.
Qed.

Lemma dict_set_NoDup (d : table) (k : key) (x : Qc) :
  NoDup d.*1 → NoDup (dict_set d k x).*1.
Proof.
  intros Hnd. rewrite dict_set_keys. case_decide; [done|].
  apply NoDup_app. split_and!; [done| |apply NoDup_singleton].
  intros y Hy ->%list_elem_of_singleton. done.
Qed.

Lemma elem_of_dict_set_keys (d : table) (k k' : key) (x : Qc) :
  k' ∈ (dict_set d k x).*1 ↔ k' = k ∨ k' ∈ d.*1.
Proof.
  rewrite dict_set_keys. case_decide.
  - split; [tauto | intros [->|?]; done].
  - rewrite elem_of_app, list_elem_of_singleton. tauto.
Qed.

Lemma total_nil : total [] = 0.
Proof. done. Qed.

Lemma total_cons (k : key) (x : Qc) (d : table) :
  total ((k, x) :: d) = x + total d.
Proof. done. Qed.

Lemma total_dict_add (d : table) (k : key) (x : Qc) :
  total (dict_add d k x) = total d + x.
Proof.
  unfold dict_add, total.
  induction d as [|[k' x'] d IH]; csimpl.
  - ring.
  - destruct (decide (k = k')) as [->|Hne]; csimpl.
    + ring.
    + rewrite IH. ring.
Qed.

(** ** [Factor.__getitem__] *)

Lemma build_key_Ok (vars : list string) (ev : event) (k : key) :
  build_key vars ev = Ok k ↔ Forall2 (λ v x, ev !! v = Some x) vars k.
Proof.
  revert k. induction vars as [|v vars IH]; intros k; simpl.
  - split; [intros [= <-]; constructor | by intros ->%Forall2_nil_inv_l].
  - destruct (ev !! v) as [x|] eqn:Hx.
    + rewrite bind_Ok. split.
      * intros (k' & Hk' & [= <-]). constructor; [done | by apply IH].
      * intros (x' & k' & Hx' & Hk' & ->)%Forall2_cons_inv_l.
        exists k'. rewrite IH. split; [done | congruence].
    + split; [done|].
      intros (x' & k' & Hx' & _)%Forall2_cons_inv_l. congruence.
Qed.

Lemma build_key_missing (vars : list string) (ev : event) (v : string) :
  v ∈ vars → ev !! v = None →
  ∃ w, w ∈ vars ∧ ev !! w = None ∧ build_key vars ev = Err (MissingVariable w).
Proof.
  induction vars as [|u vars IH]; intros Hin Hv.
  - by apply elem_of_nil in Hin.
  - simpl. destruct (ev !! u) as [x|] eqn:Hu.
    + apply elem_of_cons in Hin as [->|Hin]; [congruence|].
      destruct (IH Hin Hv) as (w & Hw & Hwn & ->).
      exists w. split_and!; [by right | done | done].
    + exists u. split_and!; [left | done | done].
Qed.

(** C7.  [Factor.__getitem__] (the specification's [lookup]): if the event
    has no assignment for some scope variable, it raises the
    [MissingVariable] error, naming a scope variable the event lacks; if
    the event covers the scope, [k] being the key read off the event in
    scope order, it raises [KeyNotFound] when [k] is not a key of the
    table and returns the stored value otherwise.  The operation is a
    function of the factor and the event only. *)
Theorem getitem_cases (f : Factor) (ev : event) :
  (∀ v, v ∈ variables f → ev !! v = None →
     ∃ w, w ∈ variables f ∧ ev !! w = None ∧
          getitem f ev = Err (MissingVariable w) ∧
          kind_of (MissingVariable w) = Some KindMissingVariable) ∧
  (∀ k, Forall2 (λ v x, ev !! v = Some x) (variables f) k →
     k ∉ (values f).*1 →
     getitem f ev = Err KeyNotFound ∧
     kind_of KeyNotFound = Some KindKeyNotFound) ∧
  (∀ k x, Forall2 (λ v x, ev !! v = Some x) (variables f) k →
     dict_get (values f) k = Some x →
     getitem f ev = Ok x).
Proof.
  unfold getitem. split_and!.
  - intros v Hin Hv.
    destruct (build_key_missing _ _ _ Hin Hv) as (w & Hw & Hwn & ->).
    by exists w.
  - intros k Hk%build_key_Ok Hnot%dict_get_None.
    rewrite Hk. simpl. by rewrite Hnot.
  - intros k x Hk%build_key_Ok Hget.
    rewrite Hk. simpl. by rewrite Hget.
Qed.

Lemma getitem_cases_witness :
  let f := mkFactor ["A"; "B"] [(["0"; "0"], half); (["0"; "1"], half)] in
  getitem f {[ "A" := "0" ]} = Err (MissingVariable "B") ∧
  getitem f {[ "A" := "1"; "B" := "0" ]} = Err KeyNotFound ∧
  getitem f {[ "A" := "0"; "B" := "1" ]} = Ok half.
Proof.
  intros f. split_and!.
  - destruct (proj1 (getitem_cases f {[ "A" := "0" ]}) "B")
      as (w & Hw & Hwn & Hget & _); [set_solver | done |].
    rewrite Hget. f_equal. f_equal.
    apply elem_of_cons in Hw as [->|Hw]; [done|].
    by apply list_elem_of_singleton in Hw.
  - apply (proj1 (proj2 (getitem_cases f {[ "A" := "1"; "B" := "0" ]}))
             ["1"; "0"]).
    + repeat constructor.
    + simpl. intros H. repeat (apply elem_of_cons in H as [[=]|H]).
      by apply elem_of_nil in H.
  - apply (proj2 (proj2 (getitem_cases f {[ "A" := "0"; "B" := "1" ]}))
             ["0"; "1"]).
    + repeat constructor.
    + reflexivity.
Defined.

(** ** [marginalize] *)

Lemma index_Ok (l : list string) (x : string) :
  x ∈ l → ∃ i, index l x = Ok i ∧ l !! i = Some x ∧ x ∉ take i l.
Proof.
  induction l as [|y l IH]; intros Hin.
  - by apply elem_of_nil in Hin.
  - simpl. destruct (decide (y = x)) as [->|Hne].
    + exists 0%nat. split_and!; [done | done | apply not_elem_of_nil].
    + apply elem_of_cons in Hin as [->|Hin]; [done|].
      destruct (IH Hin) as (i & -> & Hi & Hti).
      exists (S i). split_and!; [done | done |].
      simpl. rewrite not_elem_of_cons. split; [congruence | done].
Qed.

Lemma index_Err (l : list string) (x : string) :
  x ∉ l → index l x = Err IndexValueError.
Proof.
  induction l as [|y l IH]; intros Hin; simpl; [done|].
  apply not_elem_of_cons in Hin as [Hne Hin].
  rewrite decide_False; [|congruence]. by rewrite IH.
Qed.

Lemma total_marginalize_loop (idx : nat) (l acc : table) :
  total (foldl (λ acc p, dict_add acc (slice_out idx p.1) p.2) acc l)
  = total acc + total l.
Proof.
  revert acc. induction l as [|[k x] l IH]; intros acc; simpl.
  - rewrite total_nil. ring.
  - rewrite IH, total_dict_add, total_cons. ring.
Qed.

(** In exact arithmetic [marginalize] keeps the sum of all values. *)
Lemma marginalize_total_exact (f : Factor) (v : string) :
  v ∈ variables f →
  ∃ g, marginalize f v = Ok g ∧ total (values g) = total (values f).
Proof.
  intros Hin. unfold marginalize.
  destruct (index_Ok _ _ Hin) as (idx & -> & _). simpl.
  eexists. split; [done|]. simpl.
  rewrite total_marginalize_loop, total_nil. ring.
Qed.

(** ** Finite sums and products of rationals *)

Lemma Qc_sum_nil : Qc_sum [] = 0.
Proof. done. Qed.

Lemma Qc_prod_nil : Qc_prod [] = 1.
Proof. done. Qed.

Lemma Qc_sum_cons (x : Qc) (l : list Qc) : Qc_sum (x :: l) = x + Qc_sum l.
Proof. done. Qed.

Lemma Qc_prod_cons (x : Qc) (l : list Qc) : Qc_prod (x :: l) = x * Qc_prod l.
Proof. done. Qed.

Lemma Qc_prod_app (l1 l2 : list Qc) :
  Qc_prod (l1 ++ l2) = Qc_prod l1 * Qc_prod l2.
Proof.
  induction l1 as [|x l1 IH].
  - rewrite app_nil_l, Qc_prod_nil. ring.
  - rewrite <- app_comm_cons, !Qc_prod_cons, IH. ring.
Qed.

Lemma Qc_sum_perm (l1 l2 : list Qc) : l1 ≡ₚ l2 → Qc_sum l1 = Qc_sum l2.
Proof.
  induction 1 as [|x l1 l2 _ IH|x y l|l1 l2 l3 _ IH1 _ IH2].
  - done.
  - by rewrite !Qc_sum_cons, IH.
  - rewrite !Qc_sum_cons. ring.
  - by rewrite IH1.
Qed.

Lemma Qc_prod_perm (l1 l2 : list Qc) : l1 ≡ₚ l2 → Qc_prod l1 = Qc_prod l2.
Proof.
  induction 1 as [|x l1 l2 _ IH|x y l|l1 l2 l3 _ IH1 _ IH2].
  - done.
  - by rewrite !Qc_prod_cons, IH.
  - rewrite !Qc_prod_cons. ring.
  - by rewrite IH1.
Qed.

Lemma Qc_sum_ext {A : Type} (f g : A → Qc) (l : list A) :
  (∀ x, x ∈ l → f x = g x) → Qc_sum (f <$> l) = Qc_sum (g <$> l).
Proof.
  induction l as [|x l IH]; intros Hfg; [done|]; rewrite !fmap_cons.
  rewrite !Qc_sum_cons, Hfg, IH; [done | | left].
  intros y Hy. apply Hfg. by right.
Qed.

Lemma Qc_prod_ext {A : Type} (f g : A → Qc) (l : list A) :
  (∀ x, x ∈ l → f x = g x) → Qc_prod (f <$> l) = Qc_prod (g <$> l).
Proof.
  induction l as [|x l IH]; intros Hfg; [done|]; rewrite !fmap_cons.
  rewrite !Qc_prod_cons, Hfg, IH; [done | | left].
  intros y Hy. apply Hfg. by right.
Qed.

Lemma Qc_sum_zero {A : Type} (l : list A) : Qc_sum ((λ _, 0) <$> l) = 0.
Proof.
  induction l as [|x l IH]; [done|]. rewrite fmap_cons, Qc_sum_cons, IH. ring.
Qed.

Lemma Qc_sum_plus {A : Type} (f g : A → Qc) (l : list A) :
  Qc_sum ((λ x, f x + g x) <$> l) = Qc_sum (f <$> l) + Qc_sum (g <$> l).
Proof.
  induction l as [|x l IH].
  - rewrite !fmap_nil, !Qc_sum_nil. ring.
  - rewrite !fmap_cons, !Qc_sum_cons, IH. ring.
Qed.

Lemma Qc_sum_scale {A : Type} (c : Qc) (f : A → Qc) (l : list A) :
  Qc_sum ((λ x, c * f x) <$> l) = c * Qc_sum (f <$> l).
Proof.
  induction l as [|x l IH].
  - rewrite !fmap_nil, !Qc_sum_nil. ring.
  - rewrite !fmap_cons, !Qc_sum_cons, IH. ring.
Qed.

(** Two nested finite sums can be exchanged. *)
Lemma Qc_sum_swap {A B : Type} (h : A → B → Qc) (l1 : list A) (l2 : list B) :
  Qc_sum ((λ a, Qc_sum ((λ b, h a b) <$> l2)) <$> l1)
  = Qc_sum ((λ b, Qc_sum ((λ a, h a b) <$> l1)) <$> l2).
Proof.
  induction l1 as [|a l1 IH].
  - rewrite fmap_nil, Qc_sum_nil. symmetry. apply (Qc_sum_zero l2).
  - rewrite fmap_cons, Qc_sum_cons, IH.
    rewrite <- Qc_sum_plus. apply Qc_sum_ext. intros b _.
    by rewrite fmap_cons, Qc_sum_cons.
Qed.

(** ** Cartesian products of domains *)

Lemma elem_of_product (k : key) (doms : list (list string)) :
  k ∈ product doms ↔ Forall2 (λ x d, x ∈ d) k doms.
Proof.
  revert k. induction doms as [|d doms IH]; intros k; simpl.
  - rewrite list_elem_of_singleton. split.
    + intros ->. constructor.
    + by intros ->%Forall2_nil_inv_r.
  - rewrite list_elem_of_bind. split.
    + intros (x & (k' & -> & Hk')%list_elem_of_fmap & Hx).
      constructor; [done | by apply IH].
    + intros (x & k' & Hx & Hk' & ->)%Forall2_cons_inv_r.
      exists x. split; [|done].
      apply list_elem_of_fmap. exists k'. split; [done | by apply IH].
Qed.

Lemma NoDup_product (doms : list (list string)) :
  Forall NoDup doms → NoDup (product doms).
Proof.
  induction 1 as [|d doms Hd _ IH]; simpl.
  - apply NoDup_singleton.
  - apply NoDup_bind; [| |done].
    + intros x1 x2 k _ _ (k1 & -> & _)%list_elem_of_fmap
        (k2 & [= -> _] & _)%list_elem_of_fmap. done.
    + intros x _. apply (NoDup_fmap_2 _). done.
Qed.

Lemma product_length (k : key) (doms : list (list string)) :
  k ∈ product doms → length k = length doms.
Proof. rewrite elem_of_product. apply Forall2_length. Qed.

(** ** Events built from a scope and a key *)

Lemma zip_from_other (m : event) (vars : list string) (vals : key) (v : string) :
  v ∉ vars →
  foldl (λ ev p, <[p.1 := p.2]> ev) m (zip vars vals) !! v = m !! v.
Proof.
  revert m vals. induction vars as [|w vars IH]; intros m [|x vals] Hv;
    simpl; try done.
  apply not_elem_of_cons in Hv as [Hne Hv].
  rewrite IH by done. by rewrite lookup_insert_ne.
Qed.

Lemma zip_from_lookup (m : event) (vars : list string) (vals : key) :
  NoDup vars → length vars = length vals →
  Forall2 (λ v x, foldl (λ ev p, <[p.1 := p.2]> ev) m (zip vars vals) !! v
                  = Some x) vars vals.
Proof.
  intros Hnd. revert m vals.
  induction Hnd as [|w vars Hw Hnd IH]; intros m [|x vals] Hlen;
    simplify_eq/=; constructor.
  - rewrite zip_from_other by done. by rewrite lookup_insert_eq.
  - by apply IH.
Qed.

Lemma zip_event_lookup (vars : list string) (vals : key) :
  NoDup vars → length vars = length vals →
  Forall2 (λ v x, zip_event vars vals !! v = Some x) vars vals.
Proof. apply zip_from_lookup. Qed.

Lemma tuple_of_Ok (ev : event) (vars : list string) (k : key) :
  Forall2 (λ v x, ev !! v = Some x) vars k → tuple_of ev vars = Ok k.
Proof.
  unfold tuple_of. induction 1 as [|v x vars k Hv _ IH]; simpl; [done|].
  by rewrite Hv, IH.
Qed.

(** Reading a key off an event only looks at the scope variables. *)
Lemma build_key_agree (vars : list string) (ev ev' : event) :
  (∀ v, v ∈ vars → ev !! v = ev' !! v) → build_key vars ev = build_key vars ev'.
Proof.
  induction vars as [|v vars IH]; intros Hagree; simpl; [done|].
  rewrite <- Hagree by left. rewrite IH; [done|].
  intros w Hw. apply Hagree. by right.
Qed.

Lemma getitem_agree (f : Factor) (ev ev' : event) :
  (∀ v, v ∈ variables f → ev !! v = ev' !! v) → getitem f ev = getitem f ev'.
Proof. intros H. unfold getitem. by rewrite (build_key_agree _ _ _ H). Qed.

Lemma value_at_agree (f : Factor) (ev ev' : event) :
  (∀ v, v ∈ variables f → ev !! v = ev' !! v) → value_at f ev = value_at f ev'.
Proof. intros H. unfold value_at. by rewrite (getitem_agree _ _ _ H). Qed.

Lemma getitem_value_at (f : Factor) (ev : event) (x : Qc) :
  getitem f ev = Ok x → value_at f ev = x.
Proof. unfold value_at. by intros ->. Qed.

(** ** Lookups in well-formed factors *)

Lemma wf_factor_doms (D : registry) (f : Factor) :
  wf_factor D f →
  ∃ doms, Forall2 (λ v d, D !! v = Some d) (variables f) doms ∧
          (values f).*1 ≡ₚ product doms.
Proof.
  intros (_ & _ & H). destruct (mapM _ _) as [doms|] eqn:Hm; [|done].
  exists doms. split; [by apply mapM_Some | done].
Qed.

Lemma assigned_key (D : registry) (ev : event) (vars : list string)
    (doms : list (list string)) :
  Forall2 (λ v d, D !! v = Some d) vars doms →
  Forall (assigns D ev) vars →
  ∃ k, Forall2 (λ v x, ev !! v = Some x) vars k ∧
       Forall2 (λ x d, x ∈ d) k doms.
Proof.
  induction 1 as [|v d vars doms Hd _ IH]; intros Hall.
  - exists []. split; constructor.
  - apply Forall_cons in Hall as [Hv Hall].
    destruct (IH Hall) as (k & Hk & Hkd).
    unfold assigns in Hv. rewrite Hd in Hv.
    destruct (ev !! v) as [x|] eqn:Hx; [|done].
    exists (x :: k). split; by constructor.
Qed.

Lemma getitem_wf (D : registry) (f : Factor) (ev : event) :
  wf_factor D f → Forall (assigns D ev) (variables f) →
  getitem f ev = Ok (value_at f ev).
Proof.
  intros Hwf Hall. destruct (wf_factor_doms _ _ Hwf) as (doms & Hdoms & Hkeys).
  destruct (assigned_key _ _ _ _ Hdoms Hall) as (k & Hk & Hkd).
  assert (k ∈ (values f).*1) as Hin.
  { rewrite Hkeys. by apply elem_of_product. }
  destruct (dict_get (values f) k) as [x|] eqn:Hget.
  - assert (getitem f ev = Ok x) as Hx.
    { unfold getitem. apply build_key_Ok in Hk. rewrite Hk. simpl.
      by rewrite Hget. }
    by rewrite (getitem_value_at _ _ _ Hx).
  - by apply dict_get_None in Hget.
Qed.

(** ** The product loop *)

Lemma prod_loop (fs : list Factor) (ev : event) (p : Qc) :
  (∀ f, f ∈ fs → getitem f ev = Ok (value_at f ev)) →
  foldM (λ prod_val f, x ← getitem f ev; Ok (prod_val * x)) p fs
  = Ok (p * joint_value fs ev).
Proof.
  revert p. induction fs as [|f fs IH]; intros p Hok; simpl.
  - f_equal. unfold joint_value. rewrite fmap_nil, Qc_prod_nil. ring.
  - rewrite Hok by left. simpl. rewrite IH.
    + f_equal. unfold joint_value. rewrite fmap_cons, Qc_prod_cons. ring.
    + intros g Hg. apply Hok. by right.
Qed.

Lemma prod_at_Ok (fs : list Factor) (ev : event) :
  (∀ f, f ∈ fs → getitem f ev = Ok (value_at f ev)) →
  prod_at fs ev = Ok (joint_value fs ev).
Proof.
  intros Hok. unfold prod_at. rewrite prod_loop by done. f_equal. ring.
Qed.

Lemma joint_value_app (fs gs : list Factor) (ev : event) :
  joint_value (fs ++ gs) ev = joint_value fs ev * joint_value gs ev.
Proof. unfold joint_value. by rewrite fmap_app, Qc_prod_app. Qed.

Lemma joint_value_perm (fs gs : list Factor) (ev : event) :
  fs ≡ₚ gs → joint_value fs ev = joint_value gs ev.
Proof. intros H. unfold joint_value. apply Qc_prod_perm. by rewrite H. Qed.

Lemma joint_value_agree (fs : list Factor) (ev ev' : event) :
  (∀ f v, f ∈ fs → v ∈ variables f → ev !! v = ev' !! v) →
  joint_value fs ev = joint_value fs ev'.
Proof.
  intros H. unfold joint_value. apply Qc_prod_ext.
  intros f Hf. apply value_at_agree. intros v Hv. by apply (H f).
Qed.

(** ** The scope of a product *)

Lemma filter_all {A : Type} (P : A → Prop) `{!∀ x, Decision (P x)}
    (l : list A) :
  (∀ x, x ∈ l → P x) → filter P l = l.
Proof.
  induction l as [|x l IH]; intros HP; [done|].
  rewrite filter_cons_True by (apply HP; left).
  f_equal. apply IH. intros y Hy. apply HP. by right.
Qed.

Lemma filter_none {A : Type} (P : A → Prop) `{!∀ x, Decision (P x)}
    (l : list A) :
  (∀ x, x ∈ l → ¬ P x) → filter P l = [].
Proof.
  induction l as [|x l IH]; intros HP; [done|].
  rewrite filter_cons_False by (apply HP; left).
  apply IH. intros y Hy. apply HP. by right.
Qed.

Lemma first_occurrences_filter (P : string → Prop) `{!∀ x, Decision (P x)}
    (l : list string) :
  first_occurrences (filter P l) = filter P (first_occurrences l).
Proof.
  induction l as [|x l IH]; simpl; [done|].
  rewrite !filter_cons. destruct (decide (P x)) as [HP|HP]; simpl.
  - rewrite IH. f_equal. rewrite !list_filter_filter.
    apply list_filter_iff. tauto.
  - rewrite IH, list_filter_filter. apply list_filter_iff.
    intros y. split; [|tauto]. intros Hy. split; [done|]. by intros ->.
Qed.

Lemma elem_of_first_occurrences (x : string) (l : list string) :
  x ∈ first_occurrences l ↔ x ∈ l.
Proof.
  induction l as [|y l IH]; simpl; [done|].
  rewrite !elem_of_cons, list_elem_of_filter, IH.
  destruct (decide (x = y)); tauto.
Qed.

Lemma NoDup_first_occurrences (l : list string) : NoDup (first_occurrences l).
Proof.
  induction l as [|y l IH]; simpl; [constructor|].
  apply NoDup_cons. split.
  - rewrite list_elem_of_filter. tauto.
  - by apply NoDup_filter.
Qed.

Lemma add_vars_first_occurrences (acc l : list string) :
  foldl add_var acc l = acc ++ first_occurrences (filter (λ x, x ∉ acc) l).
Proof.
  revert acc. induction l as [|x l IH]; intros acc; simpl.
  - by rewrite app_nil_r.
  - rewrite filter_cons. destruct (decide (x ∈ acc)) as [Hin|Hin].
    + rewrite decide_False by tauto.
      replace (add_var acc x) with acc; [apply IH|].
      unfold add_var. by rewrite decide_True.
    + rewrite decide_True by done.
      replace (add_var acc x) with (acc ++ [x]);
        [|unfold add_var; by rewrite decide_False].
      rewrite IH. simpl. rewrite <- (assoc_L (++)). simpl. do 2 f_equal.
      rewrite <- first_occurrences_filter, list_filter_filter.
      f_equal. apply list_filter_iff. intros y.
      rewrite elem_of_app, list_elem_of_singleton. tauto.
Qed.

Lemma union_scope_loop (acc : list string) (fs : list Factor) :
  foldl (λ new_vars f, foldl add_var new_vars (variables f)) acc fs
  = foldl add_var acc (fs ≫= variables).
Proof.
  revert acc. induction fs as [|f fs IH]; intros acc; csimpl; [done|].
  by rewrite foldl_app, IH.
Qed.

Lemma union_scope_first_occurrences (fs : list Factor) :
  union_scope fs = first_occurrences (fs ≫= variables).
Proof.
  unfold union_scope. rewrite union_scope_loop, add_vars_first_occurrences.
  simpl. f_equal. apply filter_all. intros x _. apply not_elem_of_nil.
Qed.

Lemma NoDup_union_scope (fs : list Factor) : NoDup (union_scope fs).
Proof. rewrite union_scope_first_occurrences. apply NoDup_first_occurrences. Qed.

Lemma elem_of_union_scope (v : string) (fs : list Factor) :
  v ∈ union_scope fs ↔ ∃ f, f ∈ fs ∧ v ∈ variables f.
Proof.
  rewrite union_scope_first_occurrences, elem_of_first_occurrences.
  rewrite list_elem_of_bind. split.
  - intros (f & Hv & Hf). by exists f.
  - intros (f & Hf & Hv). by exists f.
Qed.

(** ** Tables built by [multiply_factors] *)

Lemma assign_loop_keys (h : key → Qc) (ks : list key) (t0 : table) :
  NoDup (t0.*1 ++ ks) →
  (foldl (λ t k, dict_set t k (h k)) t0 ks).*1 = t0.*1 ++ ks.
Proof.
  revert t0. induction ks as [|k ks IH]; intros t0 Hnd; simpl.
  - by rewrite app_nil_r.
  - assert (k ∉ t0.*1) as Hk.
    { apply NoDup_app in Hnd as (_ & Hnd & _). intros Hin.
      apply (Hnd k Hin). left. }
    assert ((dict_set t0 k (h k)).*1 = t0.*1 ++ [k]) as Hkeys.
    { rewrite dict_set_keys. by rewrite decide_False. }
    rewrite IH; rewrite Hkeys, <- (assoc_L (++)); done.
Qed.

Lemma assign_loop_get (h : key → Qc) (ks : list key) (t0 : table) (k : key) :
  k ∈ ks → dict_get (foldl (λ t k, dict_set t k (h k)) t0 ks) k = Some (h k).
Proof.
  induction ks as [|k' ks IH] using rev_ind; intros Hin.
  - by apply elem_of_nil in Hin.
  - rewrite foldl_snoc, dict_get_set. case_decide as Heq; [by subst|].
    apply IH. apply elem_of_app in Hin as [Hin|Hin]; [done|].
    by apply list_elem_of_singleton in Hin.
Qed.

Lemma foldM_fmap_pure {A B C : Type} (step : B → A → result B)
    (step' : B → C → B) (g : C → A) (l : list C) :
  (∀ acc x, x ∈ l → step acc (g x) = Ok (step' acc x)) →
  ∀ acc, foldM step acc (g <$> l) = Ok (foldl step' acc l).
Proof.
  induction l as [|x l IH]; intros Hstep acc; csimpl; [done|].
  rewrite Hstep by left. simpl. apply IH.
  intros acc' y Hy. apply Hstep. by right.
Qed.

Lemma registered_domains (D : registry) (vars : list string) :
  (∀ v, v ∈ vars → is_Some (D !! v)) →
  ∃ doms, mapM_result (domain_of D) vars = Ok doms ∧
          Forall2 (λ v d, D !! v = Some d) vars doms.
Proof.
  induction vars as [|v vars IH]; intros Hreg.
  - exists []. split; [done | constructor].
  - destruct (Hreg v) as [d Hd]; [left|].
    destruct IH as (doms & Hdoms & Hall).
    { intros w Hw. apply Hreg. by right. }
    exists (d :: doms). split; [|by constructor].
    change (mapM_result (domain_of D) (v :: vars))
      with (domain_of D v ≫= λ y,
            mapM_result (domain_of D) vars ≫= λ ys, Ok (y :: ys)).
    rewrite Hdoms. unfold domain_of. by rewrite Hd.
Qed.

Lemma wf_factor_registered (D : registry) (f : Factor) (v : string) :
  wf_factor D f → v ∈ variables f → is_Some (D !! v).
Proof.
  intros Hwf Hv. destruct (wf_factor_doms _ _ Hwf) as (doms & Hdoms & _).
  apply list_elem_of_lookup in Hv as [i Hi].
  destruct (Forall2_lookup_l _ _ _ _ _ Hdoms Hi) as (d & _ & Hd). by exists d.
Qed.

Lemma key_assigns (D : registry) (ev : event) (vars : list string)
    (k : key) (doms : list (list string)) :
  Forall2 (λ v x, ev !! v = Some x) vars k →
  Forall2 (λ v d, D !! v = Some d) vars doms →
  Forall2 (λ x d, x ∈ d) k doms →
  Forall (assigns D ev) vars.
Proof.
  intros Hk. revert doms.
  induction Hk as [|v x vars k Hv _ IH]; intros doms Hdoms Hkd.
  - constructor.
  - apply Forall2_cons_inv_l in Hdoms as (d & doms' & Hd & Hdoms & ->).
    apply Forall2_cons in Hkd as [Hx Hkd].
    constructor; [|by eapply IH].
    unfold assigns. by rewrite Hv, Hd.
Qed.

Lemma same_key_agree (ev ev' : event) (vars : list string) (k : key) :
  Forall2 (λ v x, ev !! v = Some x) vars k →
  Forall2 (λ v x, ev' !! v = Some x) vars k →
  ∀ v, v ∈ vars → ev !! v = ev' !! v.
Proof.
  intros H H' v (i & Hi)%list_elem_of_lookup.
  destruct (Forall2_lookup_l _ _ _ _ _ H Hi) as (x & Hx & ->).
  destruct (Forall2_lookup_l _ _ _ _ _ H' Hi) as (x' & Hx' & ->).
  congruence.
Qed.

Lemma wf_domains_NoDup (D : registry) (vars : list string)
    (doms : list (list string)) :
  wf_domains D → Forall2 (λ v d, D !! v = Some d) vars doms →
  Forall NoDup doms.
Proof.
  intros HD. induction 1 as [|v d vars doms Hd _ IH]; constructor; [|done].
  by apply (HD v).
Qed.

(** What [multiply_factors] computes on well-formed factors. *)
Lemma multiply_factors_wf (D : registry) (fs : list Factor) :
  wf_domains D → Forall (wf_factor D) fs →
  ∃ g doms,
    multiply_factors fs D = Ok g ∧
    variables g = union_scope fs ∧
    Forall2 (λ v d, D !! v = Some d) (union_scope fs) doms ∧
    (values g).*1 = product doms ∧
    wf_factor D g ∧
    ∀ ev, Forall (assigns D ev) (union_scope fs) →
          getitem g ev = Ok (joint_value fs ev).
Proof.
  intros HD Hfs. rewrite Forall_forall in Hfs.
  set (nv := union_scope fs).
  assert (NoDup nv) as Hnd by apply NoDup_union_scope.
  destruct (registered_domains D nv) as (doms & Hev & Hdoms).
  { intros v (f & Hf & Hv)%elem_of_union_scope.
    eapply wf_factor_registered; eauto. }
  set (h := λ k : list string, joint_value fs (zip_event nv k)).
  set (T := foldl (λ t k, dict_set t k (h k)) [] (product doms)).
  assert (∀ k, k ∈ product doms →
               Forall2 (λ v x, zip_event nv k !! v = Some x) nv k) as Hzip.
  { intros k Hk. apply zip_event_lookup; [done|].
    rewrite (product_length _ _ Hk). by eapply Forall2_length. }
  assert (∀ ev f, Forall (assigns D ev) nv → f ∈ fs →
                  getitem f ev = Ok (value_at f ev)) as Hget.
  { intros ev f Hall Hf. apply (getitem_wf D); [by apply Hfs|].
    rewrite Forall_forall in Hall |- *. intros v Hv. apply Hall.
    apply elem_of_union_scope. by exists f. }
  assert (NoDup (product doms)) as Hndp.
  { apply NoDup_product. by eapply wf_domains_NoDup. }
  assert (T.*1 = product doms) as Hkeys.
  { unfold T. by rewrite assign_loop_keys. }
  exists (mkFactor nv T), doms.
  split_and!; try done.
  - unfold multiply_factors. fold nv. unfold events. rewrite Hev. simpl.
    rewrite (foldM_fmap_pure _ (λ t k, dict_set t k (h k))); [done|].
    intros acc k Hk. pose proof (Hzip k Hk) as Hzk.
    rewrite prod_at_Ok.
    + simpl. by rewrite (tuple_of_Ok _ _ _ Hzk).
    + intros f Hf. apply Hget; [|done].
      eapply key_assigns; [done..|]. by apply elem_of_product.
  - split_and!; simpl; [done | by rewrite Hkeys |].
    apply mapM_Some in Hdoms. rewrite Hdoms. by rewrite Hkeys.
  - intros ev Hall.
    destruct (assigned_key _ _ _ _ Hdoms Hall) as (k & Hk & Hkd).
    apply elem_of_product in Hkd.
    unfold getitem. simpl. apply build_key_Ok in Hk as Hbk. rewrite Hbk. simpl.
    unfold T. rewrite assign_loop_get by done. f_equal. unfold h.
    apply joint_value_agree. intros f v Hf Hv.
    apply (same_key_agree _ _ nv k); [by apply Hzip | done |].
    apply elem_of_union_scope. by exists f.
Qed.

(** ** Tables built by [marginalize] *)

Lemma dict_add_get (d : table) (k k' : key) (x : Qc) :
  default 0 (dict_get (dict_add d k x) k')
  = default 0 (dict_get d k') + (if decide (k = k') then x else 0).
Proof.
  unfold dict_add. rewrite dict_get_set.
  destruct (decide (k' = k)) as [->|Hne].
  - rewrite decide_True by done. done.
  - rewrite decide_False by done. ring.
Qed.

Lemma dict_add_NoDup (d : table) (k : key) (x : Qc) :
  NoDup d.*1 → NoDup (dict_add d k x).*1.
Proof. apply dict_set_NoDup. Qed.

Section bucket_loop.
Variable r : key → key.

Local Abbreviation loop t0 l :=
  (foldl (λ acc p, dict_add acc (r p.1) p.2) t0 l).

Lemma bucket_loop_get (l t0 : table) (k' : key) :
  default 0 (dict_get (loop t0 l) k')
  = default 0 (dict_get t0 k')
    + Qc_sum ((filter (λ p, r p.1 = k') l).*2).
Proof.
  revert t0. induction l as [|[k x] l IH]; intros t0.
  - rewrite filter_nil, fmap_nil, Qc_sum_nil. simpl. ring.
  - simpl foldl. rewrite IH, dict_add_get, filter_cons.
    cbn [fst snd]. destruct (decide (r k = k')).
    + rewrite fmap_cons, Qc_sum_cons. cbn [snd]. ring.
    + ring.
Qed.

Lemma bucket_loop_NoDup (l t0 : table) :
  NoDup t0.*1 → NoDup (loop t0 l).*1.
Proof.
  revert t0. induction l as [|[k x] l IH]; intros t0 Hnd; simpl; [done|].
  apply IH. by apply dict_add_NoDup.
Qed.

Lemma bucket_loop_keys (l t0 : table) (k' : key) :
  k' ∈ (loop t0 l).*1 ↔ k' ∈ t0.*1 ∨ ∃ p, p ∈ l ∧ r p.1 = k'.
Proof.
  revert t0. induction l as [|[k x] l IH]; intros t0.
  - split; [by left|]. intros [?|(p & Hp & _)]; [done|].
    by apply elem_of_nil in Hp.
  - simpl foldl. rewrite IH. unfold dict_add.
    rewrite elem_of_dict_set_keys. split.
    + intros [[->|?]|(p & Hp & Hr)].
      * right. exists (k, x). split; [left | done].
      * by left.
      * right. exists p. split; [by right | done].
    + intros [?|(p & Hp & Hr)]; [by left; right|].
      apply elem_of_cons in Hp as [->|Hp].
      * left. by left.
      * right. by exists p.
Qed.
End bucket_loop.

(** ** Keys with one position singled out *)

Lemma slice_out_middle (k1 k2 : key) (x : string) :
  slice_out (length k1) (k1 ++ x :: k2) = k1 ++ k2.
Proof.
  unfold slice_out. rewrite take_app_length. f_equal.
  rewrite cons_middle, (assoc_L (++)).
  apply drop_app_length'. rewrite length_app. simpl. lia.
Qed.

Lemma elem_of_product_middle (k : key) (doms1 doms2 : list (list string))
    (d : list string) :
  k ∈ product (doms1 ++ d :: doms2) ↔
  ∃ k1 x k2, k = k1 ++ x :: k2 ∧ length k1 = length doms1 ∧
             k1 ++ k2 ∈ product (doms1 ++ doms2) ∧ x ∈ d.
Proof.
  rewrite elem_of_product. split.
  - intros (k1 & k' & H1 & H' & ->)%Forall2_app_inv_r.
    apply Forall2_cons_inv_r in H' as (x & k2 & Hx & H2 & ->).
    exists k1, x, k2. split_and!; [done | by eapply Forall2_length | | done].
    apply elem_of_product. by apply Forall2_app.
  - intros (k1 & x & k2 & -> & Hlen & H12 & Hx).
    apply elem_of_product, Forall2_app_inv in H12 as [H1 H2]; [|done].
    apply Forall2_app; [done|]. by constructor.
Qed.

Lemma index_middle (l1 l2 : list string) (x : string) :
  x ∉ l1 → index (l1 ++ x :: l2) x = Ok (length l1).
Proof.
  induction l1 as [|y l1 IH]; intros Hx; simpl.
  - by rewrite decide_True.
  - apply not_elem_of_cons in Hx as [Hne Hx].
    rewrite decide_False by congruence. by rewrite IH.
Qed.

Lemma insert_other_key (ev : event) (v x : string) (ws : list string)
    (k : key) :
  v ∉ ws → Forall2 (λ w y, ev !! w = Some y) ws k →
  Forall2 (λ w y, <[v := x]> ev !! w = Some y) ws k.
Proof.
  intros Hv. induction 1 as [|w y ws k Hw _ IH]; constructor.
  - apply not_elem_of_cons in Hv as [Hne _]. by rewrite lookup_insert_ne.
  - apply IH. by apply not_elem_of_cons in Hv as [_ ?].
Qed.

Lemma value_at_key (f : Factor) (ev : event) (k : key) :
  build_key (variables f) ev = Ok k →
  value_at f ev = default 0 (dict_get (values f) k).
Proof.
  intros Hk. unfold value_at, getitem. rewrite Hk. simpl.
  by destruct (dict_get (values f) k).
Qed.

(** The scope of a well-formed factor, split at one of its variables. *)
Lemma wf_factor_split (D : registry) (f : Factor) (v : string)
    (d : list string) :
  wf_factor D f → v ∈ variables f → D !! v = Some d →
  ∃ vars1 vars2 doms1 doms2,
    variables f = vars1 ++ v :: vars2 ∧
    (v ∉ vars1) ∧ (v ∉ vars2) ∧ NoDup (vars1 ++ vars2) ∧
    Forall2 (λ w d, D !! w = Some d) vars1 doms1 ∧
    Forall2 (λ w d, D !! w = Some d) vars2 doms2 ∧
    (values f).*1 ≡ₚ product (doms1 ++ d :: doms2).
Proof.
  intros Hwf Hv Hd. pose proof Hwf as (Hnd & _ & _).
  destruct (wf_factor_doms _ _ Hwf) as (doms & Hdoms & Hkeys).
  apply list_elem_of_split in Hv as (vars1 & vars2 & Hvars).
  rewrite Hvars in Hnd, Hdoms.
  apply Forall2_app_inv_l in Hdoms as (doms1 & doms' & H1 & H' & ->).
  apply Forall2_cons_inv_l in H' as (d' & doms2 & Hd' & H2 & ->).
  assert (d' = d) as -> by congruence.
  apply NoDup_app in Hnd as (Hnd1 & Hdisj & Hnd2).
  apply NoDup_cons in Hnd2 as [Hv2 Hnd2].
  exists vars1, vars2, doms1, doms2. split_and!; try done.
  - intros Hin. apply (Hdisj v Hin). left.
  - apply NoDup_app. split_and!; [done | | done].
    intros w Hw1 Hw2. apply (Hdisj w Hw1). by right.
Qed.

Lemma filter_out_middle (l1 l2 : list string) (v : string) :
  v ∉ l1 → v ∉ l2 → filter (λ w, w ≠ v) (l1 ++ v :: l2) = l1 ++ l2.
Proof.
  intros H1 H2. rewrite filter_app, filter_cons_False by tauto.
  rewrite !filter_all; [done | |]; intros w Hw ->; done.
Qed.

(** What [marginalize] computes on a well-formed factor, when the variable
    has at least one value. *)
Lemma marginalize_wf (D : registry) (f : Factor) (v : string) (d : list string) :
  wf_domains D → wf_factor D f → v ∈ variables f →
  D !! v = Some d → d ≠ [] →
  ∃ g, marginalize f v = Ok g ∧
       variables g = filter (λ w, w ≠ v) (variables f) ∧
       wf_factor D g ∧
       ∀ ev, Forall (assigns D ev) (variables g) →
             getitem g ev = Ok (sum_over D v (value_at f) ev).
Proof.
  intros HD Hwf Hv Hd Hne.
  destruct (wf_factor_split _ _ _ _ Hwf Hv Hd)
    as (vars1 & vars2 & doms1 & doms2 & Hvars & Hv1 & Hv2 & Hnd & H1 & H2 & Hkeys).
  pose proof Hwf as (_ & Hndk & _).
  assert (length doms1 = length vars1) as Hlen1
    by (symmetry; by eapply Forall2_length).
  set (idx := length vars1).
  set (T := foldl (λ acc p, dict_add acc (slice_out idx p.1) p.2) []
                  (values f)).
  assert (Forall2 (λ w d, D !! w = Some d) (vars1 ++ vars2) (doms1 ++ doms2))
    as H12 by by apply Forall2_app.
  assert (NoDup T.*1) as HndT.
  { apply (bucket_loop_NoDup (slice_out idx)). constructor. }
  assert (∀ k', k' ∈ T.*1 ↔ k' ∈ product (doms1 ++ doms2)) as HkeysT.
  { intros k'. unfold T. rewrite (bucket_loop_keys (slice_out idx)). split.
    - intros [Hin|((k & y) & Hp & Hr)]; [by apply elem_of_nil in Hin|].
      assert (k ∈ (values f).*1) as Hk.
      { apply list_elem_of_fmap. by exists (k, y). }
      rewrite Hkeys in Hk.
      apply elem_of_product_middle in Hk as (k1 & x & k2 & -> & Hl & Hk & _).
      simpl in Hr. subst k'. unfold idx. rewrite <- Hlen1, <- Hl.
      by rewrite slice_out_middle.
    - intros Hk'. right. destruct d as [|x0 d']; [done|].
      assert (take idx k' ++ x0 :: drop idx k' ∈ (values f).*1) as Hk.
      { rewrite Hkeys. apply elem_of_product_middle.
        exists (take idx k'), x0, (drop idx k'). split_and!; [done | | | left].
        - rewrite length_take_le; [lia|].
          rewrite (product_length _ _ Hk'), length_app. lia.
        - by rewrite take_drop. }
      apply list_elem_of_fmap in Hk as ((k & y) & Hk & Hp). simpl in Hk.
      exists (k, y). split; [done|]. simpl. rewrite <- Hk.
      assert (length (take idx k') = idx) as Hl.
      { rewrite length_take_le; [lia|].
        rewrite (product_length _ _ Hk'), length_app. lia. }
      rewrite <- Hl at 1. by rewrite slice_out_middle, take_drop. }
  exists (mkFactor (vars1 ++ vars2) T). split_and!.
  - unfold marginalize. rewrite Hvars, index_middle by done. simpl.
    by rewrite filter_out_middle.
  - simpl. by rewrite Hvars, filter_out_middle.
  - split_and!; simpl; [done | done |].
    pose proof H12 as ->%mapM_Some.
    apply NoDup_Permutation; [done | | done].
    apply NoDup_product. by eapply wf_domains_NoDup.
  - simpl. intros ev Hall.
    destruct (assigned_key _ _ _ _ H12 Hall) as (k' & Hk' & Hkd).
    apply Forall2_app_inv_l in Hk' as (k1 & k2 & Hk1 & Hk2 & ->).
    assert (length k1 = idx) as Hl by (symmetry; by eapply Forall2_length).
    assert (build_key (vars1 ++ vars2) ev = Ok (k1 ++ k2)) as Hbk.
    { apply build_key_Ok. by apply Forall2_app. }
    assert (k1 ++ k2 ∈ product (doms1 ++ doms2)) as Hin
      by by apply elem_of_product.
    unfold getitem. simpl. rewrite Hbk. simpl.
    destruct (dict_get T (k1 ++ k2)) as [y|] eqn:Hget;
      [|by apply dict_get_None, (not_iff_compat (HkeysT _)) in Hget].
    f_equal.
    pose proof (bucket_loop_get (slice_out idx) (values f) [] (k1 ++ k2))
      as Hsum.
    fold T in Hsum. rewrite Hget in Hsum. simpl in Hsum.
    rewrite Hsum. unfold sum_over. rewrite Hd. simpl.
    set (val := λ k : list string, default 0 (dict_get (values f) k)).
    assert (filter (λ p, slice_out idx p.1 = k1 ++ k2) (values f)
            ≡ₚ (λ x, (k1 ++ x :: k2, val (k1 ++ x :: k2))) <$> d) as Hperm.
    { apply NoDup_Permutation.
      - apply NoDup_filter. by eapply NoDup_fmap_1.
      - apply NoDup_fmap_2_strong; [|by apply (HD v)].
        intros x x' _ _ [= Heq]. by apply app_inv_head in Heq as [= ->].
      - intros [k y']. rewrite list_elem_of_filter, list_elem_of_fmap. simpl.
        split.
        + intros [Hr Hp].
          assert (k ∈ (values f).*1) as Hk.
          { apply list_elem_of_fmap. by exists (k, y'). }
          rewrite Hkeys in Hk.
          apply elem_of_product_middle in Hk
            as (a1 & x & a2 & -> & Hla & _ & Hx).
          assert (length a1 = idx) as Hla' by lia.
          rewrite <- Hla', slice_out_middle in Hr.
          apply app_inj_1 in Hr as [-> ->]; [|lia].
          exists x. split; [|done]. f_equal. unfold val.
          by rewrite (dict_get_elem _ _ _ Hndk Hp).
        + intros (x & [= -> ->] & Hx). split.
          * by rewrite <- Hl, slice_out_middle.
          * apply dict_get_Some_elem. unfold val.
            destruct (dict_get (values f) (k1 ++ x :: k2)) eqn:Hg; [done|].
            apply dict_get_None in Hg. exfalso. apply Hg.
            rewrite Hkeys. apply elem_of_product_middle.
            exists k1, x, k2. split_and!; [done | lia | done | done]. }
    rewrite (Qc_sum_perm _ _ (fmap_Permutation snd _ _ Hperm)).
    rewrite <- list_fmap_compose.
    replace (0 + Qc_sum ((snd ∘ λ x, (k1 ++ x :: k2, val (k1 ++ x :: k2))) <$> d))
      with (Qc_sum ((snd ∘ λ x, (k1 ++ x :: k2, val (k1 ++ x :: k2))) <$> d))
      by ring.
    apply Qc_sum_ext. intros x Hx. simpl. unfold val. symmetry.
    apply value_at_key. rewrite Hvars. apply build_key_Ok.
    apply Forall2_app; [by apply insert_other_key|].
    constructor; [by rewrite lookup_insert_eq | by apply insert_other_key].
Qed.

(** ** Networks *)

Lemma net_variables_loop (acc : gset string) (fs : list Factor) :
  foldl (λ vs f, vs ∪ list_to_set (variables f)) acc fs
  = acc ∪ list_to_set (fs ≫= variables).
Proof.
  revert acc. induction fs as [|f fs IH]; intros acc; csimpl.
  - set_solver.
  - rewrite IH, list_to_set_app_L. set_solver.
Qed.

Lemma elem_of_net_variables (v : string) (bnet : BayesianNetwork) :
  v ∈ net_variables bnet ↔ ∃ f, f ∈ factors bnet ∧ v ∈ variables f.
Proof.
  unfold net_variables. rewrite net_variables_loop.
  rewrite elem_of_union, elem_of_list_to_set, list_elem_of_bind. split.
  - intros [Hin|(f & Hv & Hf)]; [set_solver | by exists f].
  - intros (f & Hf & Hv). right. by exists f.
Qed.

Lemma multiply_factors_variables (fs : list Factor) (D : registry) (g : Factor) :
  multiply_factors fs D = Ok g → variables g = union_scope fs.
Proof.
  unfold multiply_factors. intros H.
  apply bind_Ok in H as (? & _ & H). apply bind_Ok in H as (? & _ & H).
  apply bind_Ok in H as (? & _ & [= <-]). done.
Qed.

Lemma marginalize_variables (f g : Factor) (v : string) :
  marginalize f v = Ok g →
  v ∈ variables f ∧ variables g = filter (λ w, w ≠ v) (variables f).
Proof.
  unfold marginalize. intros H. apply bind_Ok in H as (idx & Hidx & [= <-]).
  split; [|done]. destruct (decide (v ∈ variables f)) as [|Hn]; [done|].
  by rewrite (index_Err _ _ Hn) in Hidx.
Qed.

(** Whenever [eliminate] returns, the variable is gone from the network and
    nothing else has changed in its variable set or its registry. *)
Lemma eliminate_variables (bnet bnet' : BayesianNetwork) (v : string) :
  eliminate bnet v = Ok bnet' →
  domains bnet' = domains bnet ∧
  net_variables bnet' = net_variables bnet ∖ {[v]}.
Proof.
  unfold eliminate. intros H.
  apply bind_Ok in H as (g1 & Hg1 & H).
  apply bind_Ok in H as (g2 & Hg2 & [= <-]). split; [done|].
  apply multiply_factors_variables in Hg1.
  apply marginalize_variables in Hg2 as [_ Hg2].
  apply set_eq. intros w.
  rewrite elem_of_difference, !elem_of_net_variables, not_elem_of_singleton.
  simpl. split.
  - intros (f & Hf & Hw). apply elem_of_app in Hf as [Hf|Hf].
    + apply list_elem_of_filter in Hf as [Hv Hf].
      split; [by exists f | by intros ->].
    + apply list_elem_of_singleton in Hf as ->.
      rewrite Hg2, list_elem_of_filter, Hg1 in Hw. destruct Hw as [Hne Hw].
      apply elem_of_union_scope in Hw as (f & Hf & Hw).
      apply list_elem_of_filter in Hf as [_ Hf]. split; [by exists f | done].
  - intros [(f & Hf & Hw) Hne].
    destruct (decide (v ∈ variables f)) as [Hv|Hv].
    + exists g2. split; [apply elem_of_app; right; left|].
      rewrite Hg2, list_elem_of_filter, Hg1. split; [done|].
      apply elem_of_union_scope. exists f. split; [|done].
      by apply list_elem_of_filter.
    + exists f. split; [|done]. apply elem_of_app. left.
      by apply list_elem_of_filter.
Qed.

Lemma full_assignment_Forall (D : registry) (X : gset string) (ev : event)
    (vars : list string) :
  full_assignment D X ev → (∀ v, v ∈ vars → v ∈ X) →
  Forall (assigns D ev) vars.
Proof. intros Hfull Hsub. apply Forall_forall. intros v Hv. by apply Hfull, Hsub. Qed.

Lemma full_assignment_insert (D : registry) (X : gset string) (ev : event)
    (v x : string) (d : list string) :
  full_assignment D (X ∖ {[v]}) ev → D !! v = Some d → x ∈ d →
  full_assignment D X (<[v := x]> ev).
Proof.
  intros Hfull Hd Hx w Hw. unfold assigns.
  destruct (decide (w = v)) as [->|Hne].
  - by rewrite lookup_insert_eq, Hd.
  - rewrite lookup_insert_ne by done. apply Hfull. set_solver.
Qed.

(** What [eliminate] computes on a well-formed network, when the variable
    occurs in it and has at least one value. *)
Lemma eliminate_wf (bnet : BayesianNetwork) (v : string) (d : list string) :
  wf_network bnet → v ∈ net_variables bnet →
  domains bnet !! v = Some d → d ≠ [] →
  ∃ bnet', eliminate bnet v = Ok bnet' ∧ wf_network bnet' ∧
    ∀ ev, full_assignment (domains bnet) (net_variables bnet ∖ {[v]}) ev →
          joint_value (factors bnet') ev
          = sum_over (domains bnet) v (joint_value (factors bnet)) ev.
Proof.
  intros [HD Hfs] Hv Hd Hne. set (D := domains bnet) in *.
  set (with_var := filter (λ f, v ∈ variables f) (factors bnet)).
  set (without_var := filter (λ f, v ∉ variables f) (factors bnet)).
  assert (Forall (wf_factor D) with_var) as Hwith.
  { apply Forall_forall. intros f [_ Hf]%list_elem_of_filter.
    by apply (proj1 (Forall_forall _ _) Hfs). }
  assert (Forall (wf_factor D) without_var) as Hwithout.
  { apply Forall_forall. intros f [_ Hf]%list_elem_of_filter.
    by apply (proj1 (Forall_forall _ _) Hfs). }
  destruct (multiply_factors_wf D with_var HD Hwith)
    as (g1 & doms & Hg1 & Hvars1 & _ & _ & Hwf1 & Hval1).
  assert (v ∈ variables g1) as Hv1.
  { rewrite Hvars1. apply elem_of_union_scope.
    apply elem_of_net_variables in Hv as (f & Hf & Hvf).
    exists f. split; [by apply list_elem_of_filter | done]. }
  destruct (marginalize_wf D g1 v d HD Hwf1 Hv1 Hd Hne)
    as (g2 & Hg2 & Hvars2 & Hwf2 & Hval2).
  exists (mkNet (without_var ++ [g2]) D). split_and!.
  - unfold eliminate. fold with_var without_var D. rewrite Hg1. simpl.
    by rewrite Hg2.
  - split; [done|]. simpl. apply Forall_app. split; [done|].
    by constructor.
  - simpl. intros ev Hfull.
    assert (∀ w, w ∈ union_scope with_var → w ∈ net_variables bnet) as Hsub.
    { intros w (f & [_ Hf]%list_elem_of_filter & Hw)%elem_of_union_scope.
      apply elem_of_net_variables. by exists f. }
    rewrite joint_value_app.
    assert (joint_value [g2] ev = value_at g2 ev) as ->.
    { unfold joint_value. rewrite fmap_cons, fmap_nil, Qc_prod_cons, Qc_prod_nil.
      ring. }
    assert (Forall (assigns D ev) (variables g2)) as Hcov2.
    { apply (full_assignment_Forall _ _ _ _ Hfull). intros w.
      rewrite Hvars2, list_elem_of_filter, Hvars1. intros [Hne' Hw].
      apply Hsub in Hw. set_solver. }
    rewrite (getitem_value_at _ _ _ (Hval2 ev Hcov2)).
    unfold sum_over. fold D. rewrite Hd. simpl.
    rewrite <- Qc_sum_scale. apply Qc_sum_ext. intros x Hx.
    assert (full_assignment D (net_variables bnet) (<[v := x]> ev)) as Hfull'
      by by eapply full_assignment_insert.
    assert (Forall (assigns D (<[v := x]> ev)) (union_scope with_var))
      as Hcov1 by by apply (full_assignment_Forall _ _ _ _ Hfull').
    rewrite (getitem_value_at _ _ _ (Hval1 _ Hcov1)).
    rewrite <- (joint_value_perm (with_var ++ without_var) (factors bnet))
      by apply filter_app_complement.
    rewrite joint_value_app.
    rewrite (joint_value_agree without_var (<[v := x]> ev) ev); [ring|].
    intros f w [Hvf _]%list_elem_of_filter Hw.
    apply lookup_insert_ne. by intros ->.
Qed.

(** ** Summing out several variables *)

Lemma full_assignment_mono (D : registry) (X Y : gset string) (ev : event) :
  X ⊆ Y → full_assignment D Y ev → full_assignment D X ev.
Proof. intros Hsub Hfull v Hv. apply Hfull. by apply Hsub. Qed.

Lemma sum_over_ext (D : registry) (v : string) (F G : event → Qc) (ev : event) :
  (∀ e, F e = G e) → sum_over D v F ev = sum_over D v G ev.
Proof. intros H. unfold sum_over. apply Qc_sum_ext. intros x _. apply H. Qed.

Lemma sum_over_ext_full (D : registry) (X : gset string) (v : string)
    (F G : event → Qc) (ev : event) :
  (∀ e, full_assignment D X e → F e = G e) →
  full_assignment D (X ∖ {[v]}) ev →
  sum_over D v F ev = sum_over D v G ev.
Proof.
  intros H Hfull. unfold sum_over.
  destruct (D !! v) as [d|] eqn:Hd; simpl; [|done].
  apply Qc_sum_ext. intros x Hx. apply H. by eapply full_assignment_insert.
Qed.

Lemma marginal_sum_ext (D : registry) (order : list string)
    (F G : event → Qc) (ev : event) :
  (∀ e, F e = G e) → marginal_sum D order F ev = marginal_sum D order G ev.
Proof.
  revert F G. induction order as [|v order IH]; intros F G H; simpl; [done|].
  apply IH. intros e. by apply sum_over_ext.
Qed.

Lemma marginal_sum_ext_full (D : registry) (order : list string)
    (X : gset string) (F G : event → Qc) (ev : event) :
  (∀ e, full_assignment D X e → F e = G e) →
  full_assignment D (X ∖ list_to_set order) ev →
  marginal_sum D order F ev = marginal_sum D order G ev.
Proof.
  revert X F G. induction order as [|v order IH]; intros X F G H Hfull; simpl.
  - apply H. eapply full_assignment_mono; [|done]. set_solver.
  - apply (IH (X ∖ {[v]})).
    + intros e He. by apply (sum_over_ext_full D X).
    + eapply full_assignment_mono; [|done]. set_solver.
Qed.

(** Two variables can be summed out in either order. *)
Lemma sum_over_swap (D : registry) (x y : string) (F : event → Qc)
    (ev : event) :
  sum_over D x (sum_over D y F) ev = sum_over D y (sum_over D x F) ev.
Proof.
  destruct (decide (x = y)) as [->|Hne]; [done|].
  unfold sum_over. rewrite Qc_sum_swap.
  apply Qc_sum_ext. intros b _. apply Qc_sum_ext. intros a _.
  by rewrite insert_insert_ne.
Qed.

Lemma marginal_sum_perm (D : registry) (o1 o2 : list string) :
  o1 ≡ₚ o2 → ∀ F ev, marginal_sum D o1 F ev = marginal_sum D o2 F ev.
Proof.
  induction 1 as [|x o1 o2 _ IH|x y o|o1 o2 o3 _ IH1 _ IH2]; intros F ev;
    simpl.
  - done.
  - apply IH.
  - apply marginal_sum_ext. intros e. apply sum_over_swap.
  - by rewrite IH1.
Qed.

(** ** The elimination loop *)

Lemma inhabited_domain_Some (D : registry) (v : string) :
  inhabited_domain D v → ∃ d, D !! v = Some d ∧ d ≠ [].
Proof.
  unfold inhabited_domain. destruct (D !! v) as [d|]; [|done]. by exists d.
Qed.

Lemma eliminate_all_wf (order : list string) (bnet : BayesianNetwork) :
  wf_network bnet → NoDup order →
  (∀ v, v ∈ order →
        v ∈ net_variables bnet ∧ inhabited_domain (domains bnet) v) →
  ∃ bn, foldM eliminate bnet order = Ok bn ∧ wf_network bn ∧
    domains bn = domains bnet ∧
    ∀ ev, full_assignment (domains bnet)
                          (net_variables bnet ∖ list_to_set order) ev →
          joint_value (factors bn) ev
          = marginal_sum (domains bnet) order (joint_value (factors bnet)) ev.
Proof.
  revert bnet. induction order as [|v order IH]; intros bnet Hwf Hnd Hin.
  - exists bnet. split_and!; done.
  - apply NoDup_cons in Hnd as [Hv Hnd].
    destruct (Hin v) as [HvV (d & Hd & Hne)%inhabited_domain_Some]; [left|].
    destruct (eliminate_wf bnet v d Hwf HvV Hd Hne) as (b1 & Hb1 & Hwf1 & Hval1).
    destruct (eliminate_variables _ _ _ Hb1) as [HD1 HV1].
    destruct (IH b1 Hwf1 Hnd) as (bn & Hbn & Hwfn & HDn & Hvaln).
    { intros w Hw. destruct (Hin w) as [HwV Hwd]; [by right|].
      rewrite HD1, HV1. split; [|done]. set_solver. }
    exists bn. split_and!; [|done|congruence|].
    + simpl. by rewrite Hb1.
    + intros ev Hfull. rewrite HD1, HV1 in Hvaln. rewrite Hvaln.
      * simpl. apply (marginal_sum_ext_full _ _ (net_variables bnet ∖ {[v]}));
          [done|].
        eapply full_assignment_mono; [|done]. set_solver.
      * eapply full_assignment_mono; [|done]. set_solver.
Qed.

Lemma eliminate_all_variables (order : list string) (bnet bn : BayesianNetwork) :
  foldM eliminate bnet order = Ok bn →
  domains bn = domains bnet ∧
  net_variables bn = net_variables bnet ∖ list_to_set order.
Proof.
  revert bnet. induction order as [|v order IH]; intros bnet H; simpl in H.
  - injection H as <-. split; [done | set_solver].
  - apply bind_Ok in H as (b1 & Hb1 & H).
    destruct (eliminate_variables _ _ _ Hb1) as [HD1 HV1].
    destruct (IH _ H) as [HDn HVn]. split; [congruence|].
    rewrite HVn, HV1. set_solver.
Qed.

Lemma net_variables_union_scope (bnet : BayesianNetwork) :
  list_to_set (union_scope (factors bnet)) = net_variables bnet.
Proof.
  apply set_eq. intros v.
  by rewrite elem_of_list_to_set, elem_of_union_scope, elem_of_net_variables.
Qed.

Lemma mkNet_eta (bnet : BayesianNetwork) :
  mkNet (factors bnet) (domains bnet) = bnet.
Proof. by destruct bnet. Qed.


Lemma iteration_order_NoDup (s : gset string) (order : list string) :
  iteration_order s order → NoDup order.
Proof. unfold iteration_order. intros ->. apply NoDup_elements. Qed.

Lemma iteration_order_elem (s : gset string) (order : list string) (v : string) :
  iteration_order s order → v ∈ order ↔ v ∈ s.
Proof. unfold iteration_order. intros ->. apply elem_of_elements. Qed.

Lemma iteration_order_set (s : gset string) (order : list string) :
  iteration_order s order → list_to_set order = s.
Proof.
  intros H. apply set_eq. intros v.
  by rewrite elem_of_list_to_set, (iteration_order_elem _ _ _ H).
Qed.

Lemma difference_twice (V vars : gset string) : V ∖ (V ∖ vars) = vars ∩ V.
Proof.
  apply set_eq. intros v. rewrite !elem_of_difference, elem_of_intersection.
  destruct (decide (v ∈ vars)); tauto.
Qed.

(** Whenever [compute_marginal] returns, the scope of the result consists of
    the network variables that the loop did not visit. *)
Lemma compute_marginal_variables (iter : gset string → list string)
    (bnet : BayesianNetwork) (vars : gset string) (g : Factor) :
  compute_marginal iter bnet vars = Ok g →
  list_to_set (variables g)
  = net_variables bnet ∖ list_to_set (iter (net_variables bnet ∖ vars)).
Proof.
  unfold compute_marginal. rewrite mkNet_eta. intros H.
  apply bind_Ok in H as (bn & Hbn & Hg).
  apply eliminate_all_variables in Hbn as [_ <-].
  apply multiply_factors_variables in Hg as ->.
  apply net_variables_union_scope.
Qed.

(** What [compute_marginal] computes on a well-formed network in which the
    variables outside the query set have at least one value each: the
    product of all factors, summed over these variables. *)
Lemma compute_marginal_wf (iter : gset string → list string)
    (bnet : BayesianNetwork) (vars : gset string) :
  wf_network bnet →
  iteration_order (net_variables bnet ∖ vars)
                  (iter (net_variables bnet ∖ vars)) →
  set_Forall (inhabited_domain (domains bnet)) (net_variables bnet ∖ vars) →
  ∃ g, compute_marginal iter bnet vars = Ok g ∧
    ∀ ev, full_assignment (domains bnet) (vars ∩ net_variables bnet) ev →
          getitem g ev
          = Ok (marginal_sum (domains bnet)
                             (elements (net_variables bnet ∖ vars))
                             (joint_value (factors bnet)) ev).
Proof.
  intros Hwf Horder Hinh.
  set (order := iter (net_variables bnet ∖ vars)) in *.
  destruct (eliminate_all_wf order bnet Hwf)
    as (bn & Hbn & [HDn Hfsn] & HD & Hval).
  { by eapply iteration_order_NoDup. }
  { intros v Hv%(iteration_order_elem _ _ _ Horder).
    split; [by apply elem_of_difference in Hv as [? _] | by apply Hinh]. }
  pose proof (eliminate_all_variables _ _ _ Hbn) as [_ HVn].
  rewrite (iteration_order_set _ _ Horder), difference_twice in Hval, HVn.
  rewrite HD in HDn, Hfsn.
  destruct (multiply_factors_wf _ _ HDn Hfsn)
    as (g & doms & Hg & _ & _ & _ & _ & Hget).
  exists g. split.
  - unfold compute_marginal. rewrite mkNet_eta. fold order. by rewrite Hbn.
  - intros ev Hfull. rewrite Hget, Hval; [|done|].
    + f_equal. by apply marginal_sum_perm.
    + apply (full_assignment_Forall _ _ _ _ Hfull). intros v Hv.
      rewrite <- HVn, <- net_variables_union_scope.
      by apply elem_of_list_to_set.
Qed.

Lemma wf_network_getitem (bnet : BayesianNetwork) (ev : event) (f : Factor) :
  wf_network bnet → full_assignment (domains bnet) (net_variables bnet) ev →
  f ∈ factors bnet → getitem f ev = Ok (value_at f ev).
Proof.
  intros [_ Hfs] Hfull Hf. apply (getitem_wf (domains bnet)).
  - by apply (proj1 (Forall_forall _ _) Hfs).
  - apply (full_assignment_Forall _ _ _ _ Hfull). intros v Hv.
    apply elem_of_net_variables. by exists f.
Qed.

Lemma compute_conditional_eq (iter : gset string → list string)
    (bnet : BayesianNetwork) (ev evidence : event)
    (joint denom_factor : Factor) (num denom : Qc) :
  compute_marginal iter bnet (dom ev ∪ dom evidence) = Ok joint →
  getitem joint (evidence ∪ ev) = Ok num →
  compute_marginal iter bnet (dom evidence) = Ok denom_factor →
  getitem denom_factor evidence = Ok denom →
  compute_conditional iter bnet ev evidence
  = if decide (denom = 0) then Err ZeroDivisionError else Ok (num / denom).
Proof.
  intros Hj Hn Hd Hdn. unfold compute_conditional.
  rewrite Hj. simpl. rewrite Hn. simpl. rewrite Hd. simpl. by rewrite Hdn.
Qed.

(** * The engine whatever the arithmetic *)

(** ** Related runs *)

Lemma result_rel_bind {A B A' B' : Type} (P : A → B → Prop) (Q : A' → B' → Prop)
    (r : result A) (r' : result B) (k : A → result A') (k' : B → result B') :
  result_rel P r r' →
  (∀ a b, P a b → result_rel Q (k a) (k' b)) →
  result_rel Q (r ≫= k) (r' ≫= k').
Proof. destruct r, r'; simpl; intros Hr Hk; try done. by apply Hk. Qed.

Lemma result_rel_Ok {A B : Type} (P : A → B → Prop)
    (r : result A) (r' : result B) (b : B) :
  result_rel P r r' → r' = Ok b → ∃ a, r = Ok a ∧ P a b.
Proof. intros Hr ->. destruct r as [a|e]; [by exists a | done]. Qed.

Lemma result_rel_Err {A B : Type} (P : A → B → Prop)
    (r : result A) (r' : result B) (e : exn) :
  result_rel P r r' → r' = Err e → r = Err e.
Proof. intros Hr ->. destruct r as [a|e']; [done | by rewrite Hr]. Qed.

Lemma result_rel_eq {A : Type} (r : result A) : result_rel eq r r.
Proof. by destruct r. Qed.

Section Related.
Context {R : Type} `{!Num.Arith R} (ρ : R → Qc → Prop).
Hypothesis ρ_zero : ρ Num.zero 0.
Hypothesis ρ_one : ρ Num.one 1.
Hypothesis ρ_add : ∀ a a' b b', ρ a a' → ρ b b' → ρ (Num.add a b) (a' + b').
Hypothesis ρ_mul : ∀ a a' b b', ρ a a' → ρ b b' → ρ (Num.mul a b) (a' * b').

Lemma table_rel_keys (t : list (list string * R)) (t' : table) :
  table_rel ρ t t' → t.*1 = t'.*1.
Proof.
  induction 1 as [|[k x] [k' x'] t t' [Hk _] _ IH]; [done|].
  simpl in Hk. subst k'. by rewrite !fmap_cons, IH.
Qed.

Lemma rel_dict_get (t : list (list string * R)) (t' : table) (k : list string) :
  table_rel ρ t t' →
  option_Forall2 ρ (Num.dict_get t k) (dict_get t' k).
Proof.
  induction 1 as [|[k1 x] [k2 x'] t t' [Hk Hx] _ IH]; simpl; [constructor|].
  simpl in Hk, Hx. subst k2. destruct (decide (k = k1)); [by constructor | done].
Qed.

Lemma rel_dict_set (t : list (list string * R)) (t' : table) (k : list string)
    (x : R) (x' : Qc) :
  table_rel ρ t t' → ρ x x' →
  table_rel ρ (Num.dict_set t k x) (dict_set t' k x').
Proof.
  intros Ht Hx.
  induction Ht as [|[k1 y] [k2 y'] t t' [Hk Hy] Ht IH]; simpl.
  - by repeat constructor.
  - simpl in Hk, Hy. subst k2. destruct (decide (k = k1)).
    + by constructor.
    + by constructor.
Qed.

Lemma rel_dict_add (t : list (list string * R)) (t' : table) (k : list string)
    (x : R) (x' : Qc) :
  table_rel ρ t t' → ρ x x' →
  table_rel ρ (Num.dict_add t k x) (dict_add t' k x').
Proof.
  intros Ht Hx. unfold Num.dict_add, dict_add. apply rel_dict_set; [done|].
  apply ρ_add; [|done].
  by destruct (rel_dict_get t t' k Ht).
Qed.

Lemma rel_getitem (f : Num.Factor R) (g : Factor) (ev : event) :
  factor_rel ρ f g → result_rel ρ (Num.getitem f ev) (getitem g ev).
Proof.
  intros [Hv Ht]. unfold Num.getitem, getitem. rewrite Hv.
  destruct (build_key (variables g) ev) as [k|e]; simpl; [|done].
  by destruct (rel_dict_get _ _ k Ht).
Qed.

Lemma rel_prod_loop (fs : list (Num.Factor R)) (gs : list Factor) (ev : event) :
  Forall2 (factor_rel ρ) fs gs → ∀ (a : R) (a' : Qc), ρ a a' →
  result_rel ρ
    (foldM (λ prod_val f, x ← Num.getitem f ev; Ok (Num.mul prod_val x)) a fs)
    (foldM (λ prod_val f, x ← getitem f ev; Ok (prod_val * x)) a' gs).
Proof.
  induction 1 as [|f g fs gs Hfg _ IH]; intros a a' Ha; simpl; [done|].
  eapply result_rel_bind; [|intros b b' Hb; by apply IH].
  eapply result_rel_bind; [by apply rel_getitem|].
  intros x x' Hx. simpl. by apply ρ_mul.
Qed.

Lemma rel_prod_at (fs : list (Num.Factor R)) (gs : list Factor) (ev : event) :
  Forall2 (factor_rel ρ) fs gs →
  result_rel ρ (Num.prod_at fs ev) (prod_at gs ev).
Proof. intros Hfs. by apply rel_prod_loop. Qed.

Lemma rel_union_scope (fs : list (Num.Factor R)) (gs : list Factor) :
  Forall2 (factor_rel ρ) fs gs → Num.union_scope fs = union_scope gs.
Proof.
  unfold Num.union_scope, union_scope. generalize (@nil string).
  intros acc Hfs. revert acc.
  induction Hfs as [|f g fs gs [Hv _] _ IH]; intros acc; simpl; [done|].
  by rewrite Hv, IH.
Qed.

Lemma rel_table_loop (fs : list (Num.Factor R)) (gs : list Factor)
    (vars : list string) (evs : list event) :
  Forall2 (factor_rel ρ) fs gs →
  ∀ (t : list (list string * R)) (t' : table), table_rel ρ t t' →
  result_rel (table_rel ρ)
    (foldM (λ new_vals ev,
              prod_val ← Num.prod_at fs ev;
              k ← tuple_of ev vars;
              Ok (Num.dict_set new_vals k prod_val)) t evs)
    (foldM (λ new_vals ev,
              prod_val ← prod_at gs ev;
              k ← tuple_of ev vars;
              Ok (dict_set new_vals k prod_val)) t' evs).
Proof.
  intros Hfs. induction evs as [|ev evs IH]; intros t t' Ht; simpl; [done|].
  eapply result_rel_bind; [|intros; by apply IH].
  eapply result_rel_bind; [by apply rel_prod_at|].
  intros x x' Hx. simpl.
  destruct (tuple_of ev vars) as [k|e]; simpl; [|done].
  by apply rel_dict_set.
Qed.

Lemma rel_multiply_factors (fs : list (Num.Factor R)) (gs : list Factor)
    (D : registry) :
  Forall2 (factor_rel ρ) fs gs →
  result_rel (factor_rel ρ) (Num.multiply_factors fs D) (multiply_factors gs D).
Proof.
  intros Hfs. unfold Num.multiply_factors, multiply_factors.
  rewrite (rel_union_scope _ _ Hfs).
  destruct (events (union_scope gs) D) as [evs|e]; simpl; [|done].
  eapply result_rel_bind; [apply rel_table_loop; [done | constructor]|].
  intros t t' Ht. by split.
Qed.

Lemma rel_bucket_loop (idx : nat) (l : list (list string * R)) (l' : table) :
  table_rel ρ l l' →
  ∀ (t : list (list string * R)) (t' : table), table_rel ρ t t' →
  table_rel ρ
    (foldl (λ acc p, Num.dict_add acc (slice_out idx p.1) p.2) t l)
    (foldl (λ acc p, dict_add acc (slice_out idx p.1) p.2) t' l').
Proof.
  induction 1 as [|[k x] [k' x'] l l' [Hk Hx] _ IH]; intros t t' Ht; simpl;
    [done|].
  simpl in Hk, Hx. subst k'. apply IH. by apply rel_dict_add.
Qed.

Lemma rel_marginalize (f : Num.Factor R) (g : Factor) (v : string) :
  factor_rel ρ f g →
  result_rel (factor_rel ρ) (Num.marginalize f v) (marginalize g v).
Proof.
  intros [Hv Ht]. unfold Num.marginalize, marginalize. rewrite Hv.
  destruct (index (variables g) v) as [idx|e]; simpl; [|done].
  split; simpl; [done|]. apply rel_bucket_loop; [done | constructor].
Qed.

Lemma rel_filter (P : list string → Prop) `{!∀ l, Decision (P l)}
    (fs : list (Num.Factor R)) (gs : list Factor) :
  Forall2 (factor_rel ρ) fs gs →
  Forall2 (factor_rel ρ) (filter (λ f, P (Num.variables f)) fs)
                         (filter (λ g, P (variables g)) gs).
Proof.
  induction 1 as [|f g fs gs Hfg _ IH]; [constructor|].
  rewrite !filter_cons. destruct Hfg as [Hv Ht]. rewrite Hv.
  destruct (decide (P (variables g))); [|done].
  constructor; [by split | done].
Qed.

Lemma rel_eliminate (bnet : Num.BayesianNetwork R) (bnet' : BayesianNetwork)
    (v : string) :
  net_rel ρ bnet bnet' →
  result_rel (net_rel ρ) (Num.eliminate bnet v) (eliminate bnet' v).
Proof.
  intros [Hfs HD]. unfold Num.eliminate, eliminate. rewrite HD.
  eapply result_rel_bind.
  { apply rel_multiply_factors. exact (rel_filter (λ l, v ∈ l) _ _ Hfs). }
  intros p p' Hp. eapply result_rel_bind; [by apply rel_marginalize|].
  intros r r' Hr. split; simpl; [|done].
  apply Forall2_app; [|by constructor].
  exact (rel_filter (λ l, v ∉ l) _ _ Hfs).
Qed.

Lemma rel_net_variables (bnet : Num.BayesianNetwork R)
    (bnet' : BayesianNetwork) :
  net_rel ρ bnet bnet' → Num.net_variables bnet = net_variables bnet'.
Proof.
  intros [Hfs _]. unfold Num.net_variables, net_variables.
  generalize (∅ : gset string). intros acc. revert acc.
  induction Hfs as [|f g fs gs [Hv _] _ IH]; intros acc; simpl; [done|].
  by rewrite Hv, IH.
Qed.

Lemma rel_eliminate_all (order : list string) (bnet : Num.BayesianNetwork R)
    (bnet' : BayesianNetwork) :
  net_rel ρ bnet bnet' →
  result_rel (net_rel ρ) (foldM Num.eliminate bnet order)
                         (foldM eliminate bnet' order).
Proof.
  revert bnet bnet'. induction order as [|v order IH];
    intros bnet bnet' Hnet; simpl; [done|].
  eapply result_rel_bind; [by apply rel_eliminate | intros; by apply IH].
Qed.

Lemma rel_compute_marginal (iter : gset string → list string)
    (bnet : Num.BayesianNetwork R) (bnet' : BayesianNetwork)
    (vars : gset string) :
  net_rel ρ bnet bnet' →
  result_rel (factor_rel ρ) (Num.compute_marginal iter bnet vars)
                            (compute_marginal iter bnet' vars).
Proof.
  intros Hnet. unfold Num.compute_marginal, compute_marginal.
  assert (net_rel ρ (Num.mkNet (Num.factors bnet) (Num.domains bnet))
                    (mkNet (factors bnet') (domains bnet'))) as Hnet'.
  { destruct Hnet. by split. }
  rewrite (rel_net_variables _ _ Hnet').
  eapply result_rel_bind; [by apply rel_eliminate_all|].
  intros bn bn' [Hfs _]. destruct Hnet as [_ ->].
  by apply rel_multiply_factors.
Qed.

End Related.

(** ** The exact run on the same tables *)

Lemma exact_factor_rel {R : Type} (σ : R → Qc) (f : Num.Factor R) :
  factor_rel (λ x q, q = σ x) f (exact_factor σ f).
Proof.
  split; [done|]. simpl. unfold table_rel.
  induction (Num.values f) as [|[k x] t IH]; [constructor|].
  rewrite fmap_cons. by constructor.
Qed.

Lemma factor_rel_shape {R : Type} (ρ : R → Qc → Prop)
    (f : Num.Factor R) (g : Factor) :
  factor_rel ρ f g → same_shape f g.
Proof.
  intros [Hv Ht]. split; [done|].
  eapply Forall2_impl; [exact Ht|]. by intros a b [? _].
Qed.

Lemma exact_factor_shape {R : Type} (σ : R → Qc) (f : Num.Factor R) :
  same_shape f (exact_factor σ f).
Proof. eapply factor_rel_shape, exact_factor_rel. Qed.

Lemma exact_factors_shape {R : Type} (σ : R → Qc) (fs : list (Num.Factor R)) :
  Forall2 same_shape fs (exact_factor σ <$> fs).
Proof.
  induction fs as [|f fs IH]; [constructor|].
  rewrite fmap_cons. constructor; [apply exact_factor_shape | done].
Qed.

Lemma exact_net_shape {R : Type} (σ : R → Qc) (bnet : Num.BayesianNetwork R) :
  net_rel (λ _ _, True) bnet (exact_net σ bnet).
Proof. split; [apply exact_factors_shape | done]. Qed.

Lemma same_shape_wf {R : Type} (D : registry) (f : Num.Factor R) (g : Factor) :
  same_shape f g → Num.wf_factor D f ↔ wf_factor D g.
Proof.
  intros [Hv Ht]. apply table_rel_keys in Ht.
  unfold Num.wf_factor, wf_factor. by rewrite Hv, Ht.
Qed.

Lemma same_shape_wf_all {R : Type} (D : registry)
    (fs : list (Num.Factor R)) (gs : list Factor) :
  Forall2 same_shape fs gs →
  Forall (Num.wf_factor D) fs ↔ Forall (wf_factor D) gs.
Proof.
  induction 1 as [|f g fs gs Hfg _ IH]; [by split; constructor|].
  rewrite !Forall_cons, IH. by rewrite (same_shape_wf D f g Hfg).
Qed.

Lemma net_shape_wf {R : Type} (bnet : Num.BayesianNetwork R)
    (bnet' : BayesianNetwork) :
  net_rel (λ _ _, True) bnet bnet' → Num.wf_network bnet ↔ wf_network bnet'.
Proof.
  intros [Hfs HD]. unfold Num.wf_network, wf_network. rewrite HD.
  by rewrite (same_shape_wf_all _ _ _ Hfs).
Qed.

(** Whatever the arithmetic, a run returns a value exactly when the exact
    run on tables of the same shape does, and raises the same exception
    otherwise. *)
Lemma shape_getitem {R : Type} `{!Num.Arith R} (f : Num.Factor R) (g : Factor)
    (ev : event) :
  same_shape f g → result_rel (λ _ _, True) (Num.getitem f ev) (getitem g ev).
Proof. intros Hfg. by apply rel_getitem. Qed.

Lemma shape_prod_at {R : Type} `{!Num.Arith R} (fs : list (Num.Factor R))
    (gs : list Factor) (ev : event) :
  Forall2 same_shape fs gs →
  result_rel (λ _ _, True) (Num.prod_at fs ev) (prod_at gs ev).
Proof. intros Hfs. by apply rel_prod_at. Qed.

Lemma shape_multiply_factors {R : Type} `{!Num.Arith R}
    (fs : list (Num.Factor R)) (gs : list Factor) (D : registry) :
  Forall2 same_shape fs gs →
  result_rel same_shape (Num.multiply_factors fs D) (multiply_factors gs D).
Proof. intros Hfs. by apply rel_multiply_factors. Qed.

Lemma shape_marginalize {R : Type} `{!Num.Arith R} (f : Num.Factor R)
    (g : Factor) (v : string) :
  same_shape f g →
  result_rel same_shape (Num.marginalize f v) (marginalize g v).
Proof. intros Hfg. by apply rel_marginalize. Qed.

Lemma shape_eliminate {R : Type} `{!Num.Arith R} (bnet : Num.BayesianNetwork R)
    (bnet' : BayesianNetwork) (v : string) :
  net_rel (λ _ _, True) bnet bnet' →
  result_rel (net_rel (λ _ _, True)) (Num.eliminate bnet v) (eliminate bnet' v).
Proof. intros Hnet. by apply rel_eliminate. Qed.

Lemma shape_compute_marginal {R : Type} `{!Num.Arith R}
    (iter : gset string → list string) (bnet : Num.BayesianNetwork R)
    (bnet' : BayesianNetwork) (vars : gset string) :
  net_rel (λ _ _, True) bnet bnet' →
  result_rel same_shape (Num.compute_marginal iter bnet vars)
                        (compute_marginal iter bnet' vars).
Proof. intros Hnet. by apply rel_compute_marginal. Qed.

Lemma shape_mapM_prod_at {R : Type} `{!Num.Arith R} (fs : list (Num.Factor R))
    (gs : list Factor) (mk : string → event) (d : list string) :
  Forall2 same_shape fs gs →
  result_rel (λ _ _, True) (mapM_result (λ x, Num.prod_at fs (mk x)) d)
                           (mapM_result (λ x, prod_at gs (mk x)) d).
Proof.
  intros Hfs. induction d as [|x d IH]; simpl; [done|].
  eapply result_rel_bind; [by apply shape_prod_at|]. intros y y' _.
  eapply result_rel_bind; [exact IH|]. by intros ys ys' _.
Qed.

Lemma exact_net_wf {R : Type} (σ : R → Qc) (bnet : Num.BayesianNetwork R) :
  Num.wf_network bnet → wf_network (exact_net σ bnet).
Proof. apply net_shape_wf, exact_net_shape. Qed.

Lemma exact_net_variables {R : Type} (σ : R → Qc)
    (bnet : Num.BayesianNetwork R) :
  net_variables (exact_net σ bnet) = Num.net_variables bnet.
Proof.
  symmetry. apply (rel_net_variables (λ _ _, True)), exact_net_shape.
Qed.

(** The exact engine is the engine at rational arithmetic. *)
Lemma result_rel_fmap {A B : Type} (P : A → B → Prop) (h : A → B)
    (r : result A) (r' : result B) :
  (∀ a b, P a b → b = h a) → result_rel P r r' → h <$> r = r'.
Proof.
  intros HP Hr. destruct r as [a|e], r' as [b|e']; simpl in *; try done.
  - by rewrite (HP a b Hr).
  - by subst.
Qed.

Lemma factor_rel_exact (g : Num.Factor Qc) (g' : Factor) :
  factor_rel (λ x q, q = id x) g g' → g' = exact_factor id g.
Proof.
  destruct g as [vs t], g' as [vs' t']. intros [Hv Ht]. simpl in *.
  subst vs'. unfold exact_factor. simpl. f_equal.
  induction Ht as [|[k x] [k' x'] t t' [Hk Hx] _ IH]; [done|].
  simpl in *. by subst.
Qed.

Lemma exact_factors_rel (fs : list (Num.Factor Qc)) :
  Forall2 (factor_rel (λ x q, q = id x)) fs (exact_factor id <$> fs).
Proof.
  induction fs as [|f fs IH]; [constructor|].
  rewrite fmap_cons. constructor; [apply exact_factor_rel | done].
Qed.

Lemma net_rel_exact (bnet : Num.BayesianNetwork Qc) (bnet' : BayesianNetwork) :
  net_rel (λ x q, q = id x) bnet bnet' → bnet' = exact_net id bnet.
Proof.
  destruct bnet as [fs D], bnet' as [fs' D']. intros [Hfs HD]. simpl in *.
  subst D'. unfold exact_net. simpl. f_equal.
  induction Hfs as [|f f' fs fs' Hf _ IH]; [done|].
  rewrite fmap_cons. by rewrite <- (factor_rel_exact f f' Hf), IH.
Qed.

Lemma exact_engine_getitem (f : Num.Factor Qc) (ev : event) :
  Num.getitem f ev = getitem (exact_factor id f) ev.
Proof.
  rewrite <- (result_rel_fmap (λ x q, q = id x) id (Num.getitem f ev)
                (getitem (exact_factor id f) ev)).
  - by destruct (Num.getitem f ev).
  - done.
  - apply rel_getitem, exact_factor_rel.
Qed.

Lemma exact_engine_marginalize (f : Num.Factor Qc) (v : string) :
  exact_factor id <$> Num.marginalize f v = marginalize (exact_factor id f) v.
Proof.
  apply (result_rel_fmap (factor_rel (λ x q, q = id x)));
    [apply factor_rel_exact|].
  apply rel_marginalize;
    [.. | apply exact_factor_rel]; first [done | by intros a a' b b' -> ->].
Qed.

Lemma exact_engine_multiply_factors (fs : list (Num.Factor Qc)) (D : registry) :
  exact_factor id <$> Num.multiply_factors fs D
  = multiply_factors (exact_factor id <$> fs) D.
Proof.
  apply (result_rel_fmap (factor_rel (λ x q, q = id x)));
    [apply factor_rel_exact|].
  apply rel_multiply_factors;
    [.. | apply exact_factors_rel]; first [done | by intros a a' b b' -> ->].
Qed.

Lemma exact_engine_eliminate (bnet : Num.BayesianNetwork Qc) (v : string) :
  exact_net id <$> Num.eliminate bnet v = eliminate (exact_net id bnet) v.
Proof.
  apply (result_rel_fmap (net_rel (λ x q, q = id x)));
    [apply net_rel_exact|].
  apply rel_eliminate;
    [.. | split; [apply exact_factors_rel | done]];
    first [done | by intros a a' b b' -> ->].
Qed.

Lemma exact_engine_compute_marginal (iter : gset string → list string)
    (bnet : Num.BayesianNetwork Qc) (vars : gset string) :
  exact_factor id <$> Num.compute_marginal iter bnet vars
  = compute_marginal iter (exact_net id bnet) vars.
Proof.
  apply (result_rel_fmap (factor_rel (λ x q, q = id x)));
    [apply factor_rel_exact|].
  apply rel_compute_marginal;
    [.. | split; [apply exact_factors_rel | done]];
    first [done | by intros a a' b b' -> ->].
Qed.

(** ** Sum-out, whatever the arithmetic *)

Section Buckets.
Context {R : Type} `{!Num.Arith R}.

Lemma num_dict_get_set (d : list (list string * R)) (k k' : list string)
    (x : R) :
  Num.dict_get (Num.dict_set d k x) k'
  = if decide (k' = k) then Some x else Num.dict_get d k'.
Proof.
  induction d as [|[k1 y] d IH]; simpl.
  - by destruct (decide (k' = k)).
  - destruct (decide (k = k1)) as [->|Hne]; simpl.
    + by destruct (decide (k' = k1)).
    + destruct (decide (k' = k1)) as [->|Hne'].
      * by rewrite decide_False by done.
      * apply IH.
Qed.

Lemma group_cons (idx : nat) (p : list string * R)
    (t : list (list string * R)) (k : list string) :
  Num.group idx (p :: t) k
  = if decide (slice_out idx p.1 = k) then p.2 :: Num.group idx t k
    else Num.group idx t k.
Proof.
  unfold Num.group. rewrite filter_cons.
  by destruct (decide (slice_out idx p.1 = k)).
Qed.

(** The bucket of a reduced key holds the values of its group, added one
    after the other to what the bucket held before. *)
Lemma group_bucket_loop (idx : nat) (l acc : list (list string * R))
    (k : list string) :
  Num.dict_get
    (foldl (λ acc p, Num.dict_add acc (slice_out idx p.1) p.2) acc l) k
  = match Num.group idx l k with
    | [] => Num.dict_get acc k
    | x :: xs =>
        Some (foldl Num.add (default Num.zero (Num.dict_get acc k)) (x :: xs))
    end.
Proof.
  revert acc. induction l as [|p l IH]; intros acc; [done|].
  cbn [foldl]. rewrite IH, group_cons.
  assert (Num.dict_get (Num.dict_add acc (slice_out idx p.1) p.2) k
          = if decide (k = slice_out idx p.1)
            then Some (Num.add (default Num.zero
                                  (Num.dict_get acc (slice_out idx p.1))) p.2)
            else Num.dict_get acc k) as ->.
  { unfold Num.dict_add. apply num_dict_get_set. }
  destruct (decide (slice_out idx p.1 = k)) as [->|Hne].
  - rewrite decide_True by done.
    by destruct (Num.group idx l k).
  - rewrite decide_False; [done | congruence].
Qed.

End Buckets.

(** ** The order of the keys of a product table *)

Lemma slice_out_cons (n : nat) (x : string) (k : key) :
  slice_out (S n) (x :: k) = x :: slice_out n k.
Proof. done. Qed.

Lemma filter_fmap_unique {A B : Type} (g : A → B) (Q : B → Prop)
    `{!∀ b, Decision (Q b)} (a : A) (l : list A) :
  NoDup l → a ∈ l → (∀ a', a' ∈ l → Q (g a') ↔ a' = a) →
  filter Q (g <$> l) = [g a].
Proof.
  induction 1 as [|b l Hb Hnd IH]; intros Ha HQ.
  - by apply elem_of_nil in Ha.
  - rewrite fmap_cons, filter_cons.
    destruct (decide (Q (g b))) as [Hq|Hq].
    + apply HQ in Hq as ->; [|left]. f_equal.
      apply filter_none. intros y (c & -> & Hc)%list_elem_of_fmap Hqc.
      apply HQ in Hqc as ->; [done | by right].
    + apply elem_of_cons in Ha as [->|Ha].
      * exfalso. apply Hq. apply HQ; [left | done].
      * apply IH; [done|]. intros a' Ha'. apply HQ. by right.
Qed.

Lemma filter_bind {A B : Type} (Q : B → Prop) `{!∀ b, Decision (Q b)}
    (F : A → list B) (l : list A) :
  filter Q (l ≫= F) = l ≫= (λ x, filter Q (F x)).
Proof.
  induction l as [|x l IH]; [done|].
  by rewrite !bind_cons, filter_app, IH.
Qed.

Lemma bind_nil_all {A B : Type} (F : A → list B) (l : list A) :
  (∀ x, x ∈ l → F x = []) → l ≫= F = [].
Proof.
  induction l as [|x l IH]; intros HF; [done|].
  rewrite bind_cons, (HF x) by left. apply IH. intros y Hy. apply HF. by right.
Qed.

Lemma bind_unique {A B : Type} (F : A → list B) (a : A) (l : list A) :
  NoDup l → a ∈ l → (∀ x, x ∈ l → x ≠ a → F x = []) → l ≫= F = F a.
Proof.
  induction 1 as [|b l Hb Hnd IH]; intros Ha HF.
  - by apply elem_of_nil in Ha.
  - rewrite bind_cons. apply elem_of_cons in Ha as [->|Ha].
    + rewrite bind_nil_all; [by rewrite app_nil_r|].
      intros x Hx. apply HF; [by right|]. intros ->. done.
    + rewrite (HF b); [|left|by intros ->].
      apply IH; [done|]. intros x Hx. apply HF. by right.
Qed.

(** The keys of a product of domains that reduce to a given key when one
    position is removed are the extensions of that key by the values of the
    domain at that position, in the order of the domain. *)
Lemma product_slice (doms1 doms2 : list (list string)) (d : list string) :
  Forall NoDup doms1 → Forall NoDup doms2 →
  ∀ k1 k2 : key, length k1 = length doms1 →
    k1 ++ k2 ∈ product (doms1 ++ doms2) →
    filter (λ k, slice_out (length doms1) k = k1 ++ k2)
           (product (doms1 ++ d :: doms2))
    = (λ x, k1 ++ x :: k2) <$> d.
Proof.
  intros Hnd1 Hnd2. induction Hnd1 as [|d1 doms1 Hd1 Hnd1 IH];
    intros k1 k2 Hlen Hin.
  - destruct k1; [|done]. simpl in *.
    rewrite filter_bind. clear Hlen.
    induction d as [|x d IHd]; [done|].
    rewrite bind_cons, fmap_cons, IHd.
    rewrite (filter_fmap_unique (x ::.) _ k2);
      [done | by apply NoDup_product | done |].
    intros k _. done.
  - destruct k1 as [|a k1]; [done|]. simpl in Hlen.
    injection Hlen as Hlen.
    change ((d1 :: doms1) ++ doms2) with (d1 :: (doms1 ++ doms2)) in Hin.
    apply elem_of_product, Forall2_cons in Hin as [Ha Hin%elem_of_product].
    change (product ((d1 :: doms1) ++ d :: doms2))
      with (d1 ≫= λ x, (x ::.) <$> product (doms1 ++ d :: doms2)).
    rewrite filter_bind.
    rewrite (bind_unique _ a); [|done|done|].
    + cbn [length]. 
      assert (∀ l : list key,
                filter (λ k, slice_out (S (length doms1)) k
                             = (a :: k1) ++ k2) ((a ::.) <$> l)
                = (a ::.) <$> filter (λ k, slice_out (length doms1) k
                                           = k1 ++ k2) l) as ->.
      { induction l as [|k l IHl]; [done|].
        rewrite fmap_cons, !filter_cons, slice_out_cons, IHl.
        destruct (decide (slice_out (length doms1) k = k1 ++ k2)) as [Heq|Hne].
        - rewrite decide_True; [reflexivity|]. simpl. by rewrite Heq.
        - rewrite decide_False; [reflexivity|]. simpl. by intros [= ?]. }
      rewrite (IH k1 k2 Hlen Hin), <- list_fmap_compose. done.
    + intros x _ Hne. cbn [length]. apply filter_none.
      intros y (k & -> & _)%list_elem_of_fmap.
      rewrite slice_out_cons. simpl. by intros [= ? _].
Qed.

Lemma filter_zip_Forall2 {A B : Type} (P : A → B → Prop) (Q : A → Prop)
    `{!∀ a, Decision (Q a)} (ks : list A) (ys : list B) :
  Forall2 P ks ys →
  Forall2 P (filter Q ks) (filter (λ p, Q p.1) (zip ks ys)).*2.
Proof.
  induction 1 as [|k y ks ys Hky _ IH]; [constructor|].
  simpl. rewrite !filter_cons. simpl.
  destruct (decide (Q k)); [|done]. rewrite fmap_cons. by constructor.
Qed.

Lemma domains_Ok (D : registry) (vars : list string)
    (doms : list (list string)) :
  Forall2 (λ v d, D !! v = Some d) vars doms →
  mapM_result (domain_of D) vars = Ok doms.
Proof.
  induction 1 as [|v d vars doms Hd _ IH]; [done|].
  cbn [mapM_result]. rewrite IH.
  assert (domain_of D v = Ok d) as -> by (unfold domain_of; by rewrite Hd).
  done.
Qed.

(** ** Products and sums, whatever the arithmetic *)

Section Values.
Context {R : Type} `{!Num.Arith R}.

Lemma num_getitem_agree (f : Num.Factor R) (ev ev' : event) :
  (∀ v, v ∈ Num.variables f → ev !! v = ev' !! v) →
  Num.getitem f ev = Num.getitem f ev'.
Proof. intros Hag. unfold Num.getitem. by rewrite (build_key_agree _ _ _ Hag). Qed.

Lemma num_prod_at_agree (fs : list (Num.Factor R)) (ev ev' : event) :
  (∀ f v, f ∈ fs → v ∈ Num.variables f → ev !! v = ev' !! v) →
  Num.prod_at fs ev = Num.prod_at fs ev'.
Proof.
  unfold Num.prod_at. generalize (Num.one (R := R)).
  induction fs as [|f fs IH]; intros a Hag; [done|].
  simpl. rewrite (num_getitem_agree f ev ev'); [|intros v Hv; apply (Hag f); [left | done]].
  destruct (Num.getitem f ev') as [x|e]; [|done]. simpl.
  apply IH. intros g v Hg. apply Hag. by right.
Qed.

Lemma num_dict_set_absent (t : list (list string * R)) (k : list string) (x : R) :
  k ∉ t.*1 → Num.dict_set t k x = t ++ [(k, x)].
Proof.
  induction t as [|[k' y] t IH]; intros Hk; [done|].
  rewrite fmap_cons in Hk. apply not_elem_of_cons in Hk as [Hne Hk].
  simpl. rewrite decide_False by done. by rewrite IH.
Qed.

Lemma num_assign_zip (ks : list (list string)) (ys : list R)
    (t0 : list (list string * R)) :
  NoDup (t0.*1 ++ ks) → length ks = length ys →
  foldl (λ t p, Num.dict_set t p.1 p.2) t0 (zip ks ys) = t0 ++ zip ks ys.
Proof.
  revert ys t0. induction ks as [|k ks IH]; intros [|y ys] t0 Hnd Hlen;
    simplify_eq/=; [by rewrite app_nil_r|].
  rewrite num_dict_set_absent.
  - rewrite IH; [by rewrite <- (assoc_L (++)) | | done].
    rewrite fmap_app. simpl. by rewrite <- (assoc_L (++)).
  - apply NoDup_app in Hnd as (_ & Hdisj & _). intros Hin.
    apply (Hdisj k Hin). left.
Qed.

(** The loop of [multiply_factors] that fills the table, when it ends
    without an exception. *)
Lemma num_table_loop (fs : list (Num.Factor R)) (vars : list string)
    (mk : list string → event) (ks : list (list string)) :
  (∀ k, k ∈ ks → tuple_of (mk k) vars = Ok k) →
  ∀ t0 t,
    foldM (λ new_vals ev,
             prod_val ← Num.prod_at fs ev;
             k ← tuple_of ev vars;
             Ok (Num.dict_set new_vals k prod_val)) t0 (mk <$> ks) = Ok t →
    ∃ ys, Forall2 (λ k y, Num.prod_at fs (mk k) = Ok y) ks ys ∧
          t = foldl (λ t p, Num.dict_set t p.1 p.2) t0 (zip ks ys).
Proof.
  induction ks as [|k ks IH]; intros Htup t0 t Ht.
  - injection Ht as <-. exists []. split; [constructor | done].
  - rewrite fmap_cons in Ht. cbn [foldM] in Ht.
    apply bind_Ok in Ht as (t1 & Hstep & Ht).
    apply bind_Ok in Hstep as (y & Hy & Hstep).
    rewrite (Htup k) in Hstep by left. simpl in Hstep. injection Hstep as <-.
    destruct (IH (λ k' Hk', Htup k' (list_elem_of_further _ _ _ Hk')) _ _ Ht)
      as (ys & Hys & ->).
    exists (y :: ys). split; [by constructor | done].
Qed.

(** The table that [multiply_factors] returns: one entry for each key of
    the product of the domains, in that order, holding the product of the
    factors at the event of the key. *)
Lemma num_multiply_factors_table (D : registry) (fs : list (Num.Factor R))
    (g : Num.Factor R) (doms : list (list string)) :
  Num.multiply_factors fs D = Ok g →
  NoDup (Num.union_scope fs) →
  Forall2 (λ v d, D !! v = Some d) (Num.union_scope fs) doms →
  Forall NoDup doms →
  Num.variables g = Num.union_scope fs ∧
  ∃ ys, Num.values g = zip (product doms) ys ∧
        Forall2 (λ k y, Num.prod_at fs (zip_event (Num.union_scope fs) k)
                        = Ok y) (product doms) ys.
Proof.
  intros Hg HndU Hdoms Hnd. unfold Num.multiply_factors in Hg.
  unfold events in Hg. rewrite (domains_Ok _ _ _ Hdoms) in Hg. simpl in Hg.
  apply bind_Ok in Hg as (t & Ht & Hg). injection Hg as <-. simpl.
  split; [done|].
  apply num_table_loop in Ht as (ys & Hys & ->).
  - exists ys. split; [|done].
    rewrite num_assign_zip; [done | | by eapply Forall2_length].
    simpl. by apply NoDup_product.
  - intros k Hk. apply tuple_of_Ok, zip_event_lookup; [done|].
    rewrite (product_length _ _ Hk). by eapply Forall2_length.
Qed.

End Values.

Lemma mapM_result_Forall2 {A B : Type} (f : A → result B) (l : list A)
    (ys : list B) :
  Forall2 (λ x y, f x = Ok y) l ys → mapM_result f l = Ok ys.
Proof.
  induction 1 as [|x y l ys Hxy _ IH]; [done|].
  simpl. by rewrite Hxy, IH.
Qed.

Section Elimination.
Context {R : Type} `{!Num.Arith R}.

Lemma num_union_scope_exact (σ : R → Qc) (fs : list (Num.Factor R)) :
  Num.union_scope fs = union_scope (exact_factor σ <$> fs).
Proof. apply (rel_union_scope (λ _ _, True)), exact_factors_shape. Qed.

Lemma num_elem_of_union_scope (v : string) (fs : list (Num.Factor R)) :
  v ∈ Num.union_scope fs ↔ ∃ f, f ∈ fs ∧ v ∈ Num.variables f.
Proof.
  rewrite (num_union_scope_exact (λ _, 0)), elem_of_union_scope. split.
  - intros (f' & (f & -> & Hf)%list_elem_of_fmap & Hv). by exists f.
  - intros (f & Hf & Hv). exists (exact_factor (λ _, 0) f).
    split; [by apply list_elem_of_fmap_2 | done].
Qed.

Lemma num_elem_of_net_variables (v : string) (bnet : Num.BayesianNetwork R) :
  v ∈ Num.net_variables bnet ↔
  ∃ f, f ∈ Num.factors bnet ∧ v ∈ Num.variables f.
Proof.
  rewrite <- (exact_net_variables (λ _, 0)), elem_of_net_variables. simpl.
  split.
  - intros (f' & (f & -> & Hf)%list_elem_of_fmap & Hv). by exists f.
  - intros (f & Hf & Hv). exists (exact_factor (λ _, 0) f).
    split; [by apply list_elem_of_fmap_2 | done].
Qed.

(** What [eliminate] returns on a well-formed network, for a variable that
    has at least one value: the factors without the variable, in their
    order, and one new factor.  At a full assignment of the other
    variables, the factors that contain the variable have a product at the
    assignment extended with each value of the variable, and the new factor
    holds these products, added from left to right in the order of the
    domain, starting at zero. *)
Lemma num_eliminate_value (bnet : Num.BayesianNetwork R) (v : string)
    (d : list string) :
  Num.wf_network bnet → v ∈ Num.net_variables bnet →
  Num.domains bnet !! v = Some d → d ≠ [] →
  ∃ bnet' reduced,
    Num.eliminate bnet v = Ok bnet' ∧
    Num.domains bnet' = Num.domains bnet ∧
    Num.factors bnet'
    = filter (λ f, v ∉ Num.variables f) (Num.factors bnet) ++ [reduced] ∧
    ∀ ev, full_assignment (Num.domains bnet)
                          (Num.net_variables bnet ∖ {[v]}) ev →
      ∃ ys,
        mapM_result
          (λ x, Num.prod_at (filter (λ f, v ∈ Num.variables f)
                                    (Num.factors bnet))
                            (<[v := x]> ev)) d = Ok ys ∧
        Num.getitem reduced ev = Ok (foldl Num.add Num.zero ys).
Proof.
  intros [HD Hfs] Hv Hd Hne.
  set (D := Num.domains bnet) in *.
  set (W := filter (λ f, v ∈ Num.variables f) (Num.factors bnet)).
  set (σ := λ _ : R, 0).
  assert (Forall (Num.wf_factor D) W) as HW.
  { apply Forall_forall. intros f [_ Hf]%list_elem_of_filter.
    by apply (proj1 (Forall_forall _ _) Hfs). }
  assert (∀ w, w ∈ Num.union_scope W → w ∈ Num.net_variables bnet) as Hsub.
  { intros w (f & [_ Hf]%list_elem_of_filter & Hw)%num_elem_of_union_scope.
    apply num_elem_of_net_variables. by exists f. }
  assert (v ∈ Num.union_scope W) as HvU.
  { apply num_elem_of_net_variables in Hv as (f & Hf & Hvf).
    apply num_elem_of_union_scope. exists f. split; [|done].
    by apply list_elem_of_filter. }
  (* the product of the factors with the variable *)
  apply (same_shape_wf_all D _ _ (exact_factors_shape σ W)) in HW.
  destruct (multiply_factors_wf D _ HD HW)
    as (h & doms & Hh & _ & Hdoms & _ & _ & _).
  destruct (result_rel_Ok _ _ _ _
              (shape_multiply_factors _ _ D (exact_factors_shape σ W)) Hh)
    as (g & Hg & _).
  rewrite <- (num_union_scope_exact σ) in Hdoms.
  assert (NoDup (Num.union_scope W)) as HndU.
  { rewrite (num_union_scope_exact σ). apply NoDup_union_scope. }
  pose proof (wf_domains_NoDup D _ _ HD Hdoms) as Hnd.
  destruct (num_multiply_factors_table D W g doms Hg HndU Hdoms Hnd)
    as (HvarsG & ys0 & HvalsG & Hys0).
  (* the scope, split at the variable *)
  apply list_elem_of_split in HvU as (vars1 & vars2 & HU).
  rewrite HU in Hdoms, HndU.
  apply Forall2_app_inv_l in Hdoms as (doms1 & doms' & H1 & H' & ->).
  apply Forall2_cons_inv_l in H' as (d' & doms2 & Hd' & H2 & ->).
  assert (d' = d) as -> by congruence.
  apply NoDup_app in HndU as (Hnd1 & Hdisj & Hnd2').
  apply NoDup_cons in Hnd2' as [Hv2 Hnd2].
  assert (v ∉ vars1) as Hv1 by (intros Hin; apply (Hdisj v Hin); left).
  assert (length vars1 = length doms1) as Hlen1 by by eapply Forall2_length.
  apply Forall_app in Hnd as [HN1 HN2]. apply Forall_cons in HN2 as [_ HN2].
  set (idx := length vars1).
  set (T := foldl (λ acc p, Num.dict_add acc (slice_out idx p.1) p.2) []
                  (Num.values g)).
  set (reduced := Num.mkFactor (vars1 ++ vars2) T).
  assert (Num.marginalize g v = Ok reduced) as Hred.
  { unfold Num.marginalize. rewrite HvarsG, HU, index_middle by done. simpl.
    by rewrite filter_out_middle. }
  eexists _, reduced. split_and!.
  - unfold Num.eliminate. fold D W. rewrite Hg. simpl. by rewrite Hred.
  - done.
  - done.
  - intros ev Hfull.
    assert (Forall (assigns D ev) (vars1 ++ vars2)) as Hall.
    { apply Forall_forall. intros w Hw. apply Hfull.
      apply elem_of_difference. split.
      - apply Hsub. rewrite HU. rewrite elem_of_app in Hw.
        rewrite elem_of_app, elem_of_cons. tauto.
      - rewrite not_elem_of_singleton. intros ->.
        apply elem_of_app in Hw as [?|?]; done. }
    assert (Forall2 (λ w d, D !! w = Some d) (vars1 ++ vars2)
                    (doms1 ++ doms2)) as H12 by by apply Forall2_app.
    destruct (assigned_key _ _ _ _ H12 Hall) as (k' & Hk' & Hkd).
    apply Forall2_app_inv_l in Hk' as (k1 & k2 & Hk1 & Hk2 & ->).
    assert (length k1 = length doms1) as Hl.
    { rewrite <- Hlen1. symmetry. by eapply Forall2_length. }
    assert (k1 ++ k2 ∈ product (doms1 ++ doms2)) as Hin
      by by apply elem_of_product.
    set (ys := Num.group idx (Num.values g) (k1 ++ k2)).
    assert (Forall2 (λ x y, Num.prod_at W (<[v := x]> ev) = Ok y) d ys)
      as Hys.
    { unfold ys, Num.group. rewrite HvalsG.
      pose proof (filter_zip_Forall2 _
                    (λ k, slice_out idx k = k1 ++ k2) _ _ Hys0) as HF.
      unfold idx in HF. rewrite Hlen1 in HF.
      rewrite (product_slice doms1 doms2 d HN1 HN2 k1 k2 Hl Hin) in HF.
      apply Forall2_fmap_l in HF. unfold idx. rewrite Hlen1.
      eapply Forall2_impl; [exact HF|]. intros x y Hxy. simpl in Hxy.
      rewrite <- Hxy. symmetry. apply num_prod_at_agree.
      intros f w Hf Hw.
      assert (w ∈ Num.union_scope W) as HwU
        by (apply num_elem_of_union_scope; by exists f).
      apply (same_key_agree _ _ (Num.union_scope W) (k1 ++ x :: k2));
        [| |done].
      - apply zip_event_lookup.
        + rewrite HU. apply NoDup_app. split_and!; [done | | by apply NoDup_cons].
          intros u Hu1 Hu2. by apply (Hdisj u Hu1).
        + rewrite HU, !length_app. simpl.
          rewrite (Forall2_length _ _ _ Hk1), (Forall2_length _ _ _ Hk2). done.
      - rewrite HU. apply Forall2_app; [by apply insert_other_key|].
        constructor; [by rewrite lookup_insert_eq | by apply insert_other_key]. }
    exists ys. split; [by apply mapM_result_Forall2|].
    unfold Num.getitem. simpl.
    assert (build_key (vars1 ++ vars2) ev = Ok (k1 ++ k2)) as ->.
    { apply build_key_Ok. by apply Forall2_app. }
    simpl. unfold T. rewrite group_bucket_loop. fold ys. simpl.
    destruct ys as [|y ys']; [|done].
    apply Forall2_nil_inv_r in Hys. done.
Qed.

End Elimination.

(** Two binary64 numbers that differ. *)
Lemma float_neq (x y : float) :
  PrimFloat.eqb x x = true → PrimFloat.eqb x y = false → x ≠ y.
Proof. intros Hx Hxy ->. congruence. Qed.

(** * The claims *)

(** ** Join *)

(** C9.  [multiply_factors] applied to the empty list returns the factor
    with the empty scope whose table has the single entry that maps the
    empty key to [1], whatever the registry. *)
Theorem multiply_factors_nil (D : registry) :
  multiply_factors [] D = Ok (mkFactor [] [([], 1)]).
Proof. reflexivity. Qed.



(** ** Sum-out *)

(** C3, as amended.  Let [v] be a variable of the scope of [f].  Whatever
    the arithmetic on the table values, [marginalize f v] returns a factor
    with distinct keys that holds, at each key [k], the values of the
    entries of [f] whose key becomes [k] when the position of [v] is
    removed, added from left to right, in table order, starting at zero;
    there is no entry at [k] when no key of [f] becomes [k].  In exact
    arithmetic on the same tables ([σ] reads the stored numbers as
    rationals) the sum of all values of the result equals the sum of all
    values of the table of [f]. *)
Theorem marginalize_mass_conservation {R : Type} `{!Num.Arith R} (σ : R → Qc)
    (f : Num.Factor R) (v : string) :
  v ∈ Num.variables f →
  ∃ g idx,
    Num.marginalize f v = Ok g ∧
    Num.variables f !! idx = Some v ∧ (v ∉ take idx (Num.variables f)) ∧
    NoDup (Num.values g).*1 ∧
    (∀ k, Num.dict_get (Num.values g) k
          = match Num.group idx (Num.values f) k with
            | [] => None
            | x :: xs => Some (foldl Num.add Num.zero (x :: xs))
            end) ∧
    ∃ g', marginalize (exact_factor σ f) v = Ok g' ∧
          same_shape g g' ∧
          total (values g') = total (values (exact_factor σ f)).
Proof.
  intros Hin.
  destruct (marginalize_total_exact (exact_factor σ f) v Hin) as (g' & Hg' & Htot).
  pose proof (shape_marginalize f _ v (exact_factor_shape σ f)) as Hrel.
  destruct (result_rel_Ok _ _ _ _ Hrel Hg') as (g & Hg & Hshape).
  destruct (index_Ok _ _ Hin) as (idx & Hidx & Hlook & Hfirst).
  exists g, idx. split_and!; [done | done | done | | | by exists g'].
  - destruct Hshape as [_ ->%table_rel_keys].
    unfold marginalize in Hg'. simpl in Hg'. rewrite Hidx in Hg'.
    simpl in Hg'. injection Hg' as <-. simpl.
    apply bucket_loop_NoDup. constructor.
  - intros k. unfold Num.marginalize in Hg. rewrite Hidx in Hg.
    simpl in Hg. injection Hg as <-. simpl.
    by rewrite group_bucket_loop.
Qed.

Lemma marginalize_mass_conservation_witness :
  ∃ g idx,
    Num.marginalize tenths "B" = Ok g ∧
    Num.variables tenths !! idx = Some "B" ∧
    NoDup (Num.values g).*1 ∧
    Num.dict_get (Num.values g) ["0"]
    = match Num.group idx (Num.values tenths) ["0"] with
      | [] => None
      | x :: xs => Some (foldl Num.add Num.zero (x :: xs))
      end ∧
    ∃ g', marginalize (exact_factor float_value tenths) "B" = Ok g' ∧
          same_shape g g' ∧
          total (values g') = total (values (exact_factor float_value tenths)).
Proof.
  destruct (marginalize_mass_conservation float_value tenths "B")
    as (g & idx & Hg & Hidx & _ & Hnd & Hget & Hexact); [by_evaluation|].
  exists g, idx. split_and!; [exact Hg | exact Hidx | exact Hnd | apply Hget
                              | exact Hexact].
Defined.

(** The claim C3 as stated fails in binary64: summing ["B"] out of a table
    with the values 0.1, 0.7, 0.2 and 0.3 changes the sum of the values
    from 1.3 to 1.2999999999999998, since 0.1 + 0.7 is rounded when it is
    stored.  The sums differ also when the stored numbers are added
    exactly. *)
Lemma marginalize_mass_counterexample :
  let g := Num.mkFactor ["A"]
             [(["0"], 0.7999999999999999%float); (["1"], 0.5%float)] in
  "B" ∈ Num.variables tenths ∧
  Forall (λ p, length p.1 = length (Num.variables tenths)) (Num.values tenths) ∧
  Num.marginalize tenths "B" = Ok g ∧
  Num.total (Num.values tenths) = 1.3%float ∧
  Num.total (Num.values g) = 1.2999999999999998%float ∧
  Num.total (Num.values g) ≠ Num.total (Num.values tenths) ∧
  total (values (exact_factor float_value g))
  ≠ total (values (exact_factor float_value tenths)).
Proof.
  split_and!; [by_evaluation | by_evaluation | reflexivity | reflexivity
              | reflexivity | by apply float_neq | by_evaluation].
Qed.

(** ** Eliminate *)

(** C10.  If the variable is in the scope of no factor of the network,
    [eliminate] raises: the product of the empty selection has the empty
    scope, and [list.index] does not find the variable in it.  The network
    is not returned. *)
Theorem eliminate_absent_variable (bnet : BayesianNetwork) (v : string) :
  (∀ f, f ∈ factors bnet → v ∉ variables f) →
  eliminate bnet v = Err IndexValueError.
Proof.
  intros Habs. unfold eliminate.
  rewrite (filter_none (λ f, v ∈ variables f)); [done|].
  intros f Hf. by apply Habs.
Qed.

Lemma eliminate_absent_variable_witness :
  eliminate two_coins "C" = Err IndexValueError.
Proof.
  apply eliminate_absent_variable. intros f Hf.
  repeat (apply elem_of_cons in Hf as [->|Hf]);
    [by_evaluation | by_evaluation | by apply elem_of_nil in Hf].
Defined.

(** C2, as amended.  Let the network be well formed, let [v] occur in the
    scope of one of its factors and have at least one value in the
    registry, and let [ev] be a full assignment over the other variables of
    the network.  Whatever the arithmetic on the table values, [eliminate]
    returns the factors without [v], in their order, followed by one new
    factor; the factors with [v] have a product at [ev] extended with each
    value of [v], and the value of the new factor at [ev] is the sum of
    these products, added from left to right in the order of the domain,
    starting at zero; the product of the factors of the new network at
    [ev] is defined, and so is the product of the factors of the original
    network at [ev] extended with each value of [v].  In exact arithmetic
    on the same tables ([σ] reads the stored numbers as rationals) the
    product of the new factors equals the sum of the products of the
    original factors over the domain of [v]. *)
Theorem eliminate_preserves_joint {R : Type} `{!Num.Arith R} (σ : R → Qc)
    (bnet : Num.BayesianNetwork R) (v : string) (d : list string)
    (ev : event) :
  Num.wf_network bnet → v ∈ Num.net_variables bnet →
  Num.domains bnet !! v = Some d → d ≠ [] →
  full_assignment (Num.domains bnet) (Num.net_variables bnet ∖ {[v]}) ev →
  (∃ bnet' reduced ys lhs rhs,
     Num.eliminate bnet v = Ok bnet' ∧
     Num.factors bnet'
     = filter (λ f, v ∉ Num.variables f) (Num.factors bnet) ++ [reduced] ∧
     mapM_result
       (λ x, Num.prod_at (filter (λ f, v ∈ Num.variables f)
                                 (Num.factors bnet))
                         (<[v := x]> ev)) d = Ok ys ∧
     Num.getitem reduced ev = Ok (foldl Num.add Num.zero ys) ∧
     Num.prod_at (Num.factors bnet') ev = Ok lhs ∧
     mapM_result (λ x, Num.prod_at (Num.factors bnet) (<[v := x]> ev)) d
     = Ok rhs) ∧
  (∃ bnet' lhs rhs,
     eliminate (exact_net σ bnet) v = Ok bnet' ∧
     prod_at (factors bnet') ev = Ok lhs ∧
     mapM_result (λ x, prod_at (factors (exact_net σ bnet)) (<[v := x]> ev)) d
     = Ok rhs ∧
     lhs = Qc_sum rhs).
Proof.
  intros Hwf Hv Hd Hne Hfull.
  destruct (num_eliminate_value bnet v d Hwf Hv Hd Hne)
    as (bnet' & reduced & Hel' & _ & Hfs' & Hred).
  destruct (Hred ev Hfull) as (ys & Hys & Hget).
  apply (exact_net_wf σ) in Hwf.
  rewrite <- (exact_net_variables σ) in Hv, Hfull.
  set (M := exact_net σ bnet) in *.
  change (Num.domains bnet) with (domains M) in Hd, Hfull.
  destruct (eliminate_wf M v d Hwf Hv Hd Hne) as (M' & Hel & Hwf' & Hval).
  destruct (eliminate_variables _ _ _ Hel) as [HD' HV'].
  assert (prod_at (factors M') ev = Ok (joint_value (factors M') ev)) as Hlhs.
  { apply prod_at_Ok. intros f Hf.
    apply (wf_network_getitem M'); [done| |done]. by rewrite HD', HV'. }
  assert (mapM_result (λ x, prod_at (factors M) (<[v := x]> ev)) d
          = Ok ((λ x, joint_value (factors M) (<[v := x]> ev)) <$> d)) as Hrhs.
  { apply mapM_result_pure. intros x Hx. apply prod_at_Ok. intros f Hf.
    apply (wf_network_getitem M); [done | | done].
    by eapply full_assignment_insert. }
  split.
  - pose proof (shape_eliminate bnet M v (exact_net_shape σ bnet)) as Hrel.
    rewrite Hel', Hel in Hrel. destruct Hrel as [Hshape _].
    destruct (result_rel_Ok _ _ _ _ (shape_prod_at _ _ ev Hshape) Hlhs)
      as (lhs & Hlhs' & _).
    destruct (result_rel_Ok _ _ _ _
                (shape_mapM_prod_at _ _ (λ x, <[v := x]> ev) d
                   (exact_factors_shape σ (Num.factors bnet))) Hrhs)
      as (rhs & Hrhs' & _).
    by exists bnet', reduced, ys, lhs, rhs.
  - eexists M', _, _. split_and!; [done | done | done |].
    rewrite (Hval ev Hfull). unfold sum_over. by rewrite Hd.
Qed.

Lemma eliminate_preserves_joint_witness :
  (∃ bnet' reduced ys lhs rhs,
     Num.eliminate tenths_net "A" = Ok bnet' ∧
     Num.factors bnet'
     = filter (λ f, "A" ∉ Num.variables f) (Num.factors tenths_net)
       ++ [reduced] ∧
     mapM_result
       (λ x, Num.prod_at (filter (λ f, "A" ∈ Num.variables f)
                                 (Num.factors tenths_net))
                         (<["A" := x]> {[ "B" := "0" ]})) ["0"; "1"]
     = Ok ys ∧
     Num.getitem reduced {[ "B" := "0" ]}
     = Ok (foldl Num.add Num.zero ys) ∧
     Num.prod_at (Num.factors bnet') {[ "B" := "0" ]} = Ok lhs ∧
     mapM_result (λ x, Num.prod_at (Num.factors tenths_net)
                                   (<["A" := x]> {[ "B" := "0" ]}))
                 ["0"; "1"] = Ok rhs) ∧
  (∃ bnet' lhs rhs,
     eliminate (exact_net float_value tenths_net) "A" = Ok bnet' ∧
     prod_at (factors bnet') {[ "B" := "0" ]} = Ok lhs ∧
     mapM_result (λ x, prod_at (factors (exact_net float_value tenths_net))
                               (<["A" := x]> {[ "B" := "0" ]}))
                 ["0"; "1"] = Ok rhs ∧
     lhs = Qc_sum rhs).
Proof.
  apply (eliminate_preserves_joint float_value tenths_net "A" ["0"; "1"]).
  - by_evaluation.
  - by_evaluation.
  - reflexivity.
  - discriminate.
  - by_evaluation.
Defined.

(** The claim C2 as stated fails in two ways.  Without the condition on
    the domain of [v]: in a well-formed network whose variable ["A"] has no
    value, eliminating ["A"] leaves a factor over ["B"] with an empty
    table, so the product of the new factors raises [KeyNotFound] at the
    assignment of ["0"] to ["B"], while the sum over the (empty) domain of
    ["A"] is [0].  With binary64 numbers: for two independent variables
    with the values 0.1, 0.7 and 0.3, 0.7, eliminating ["A"] stores the
    rounded sum 0.1 + 0.7, and the product of the new factors at ["B"] =
    ["0"] is 0.23999999999999996, while the products of the original
    factors are 0.03 and 0.21, with sum 0.24; the two sides differ also
    when the products and the sum are taken exactly over the stored
    numbers. *)
Lemma eliminate_preserves_joint_counterexample :
  (wf_network empty_domain_net ∧
   "A" ∈ net_variables empty_domain_net ∧
   full_assignment (domains empty_domain_net)
                   (net_variables empty_domain_net ∖ {["A"]}) {[ "B" := "0" ]} ∧
   eliminate empty_domain_net "A"
   = Ok (mkNet [mkFactor ["B"] []] (domains empty_domain_net)) ∧
   prod_at [mkFactor ["B"] []] {[ "B" := "0" ]} = Err KeyNotFound ∧
   domains empty_domain_net !! "A" = Some [] ∧
   mapM_result (λ x, prod_at (factors empty_domain_net)
                             (<["A" := x]> {[ "B" := "0" ]})) [] = Ok []) ∧
  (let bnet' :=
     Num.mkNet
       [Num.mkFactor ["B"] [(["0"], 0.3%float); (["1"], 0.7%float)];
        Num.mkFactor [] [([], 0.7999999999999999%float)]]
       (Num.domains tenths_net) in
   Num.wf_network tenths_net ∧
   "A" ∈ Num.net_variables tenths_net ∧
   Num.domains tenths_net !! "A" = Some ["0"; "1"] ∧
   full_assignment (Num.domains tenths_net)
                   (Num.net_variables tenths_net ∖ {["A"]}) {[ "B" := "0" ]} ∧
   Num.eliminate tenths_net "A" = Ok bnet' ∧
   Num.prod_at (Num.factors bnet') {[ "B" := "0" ]}
   = Ok 0.23999999999999996%float ∧
   mapM_result (λ x, Num.prod_at (Num.factors tenths_net)
                                 (<["A" := x]> {[ "B" := "0" ]})) ["0"; "1"]
   = Ok [0.03%float; 0.21%float] ∧
   foldl Num.add Num.zero [0.03%float; 0.21%float] = 0.24%float ∧
   0.23999999999999996%float ≠ 0.24%float ∧
   ∃ lhs rhs,
     prod_at (factors (exact_net float_value bnet')) {[ "B" := "0" ]} = Ok lhs ∧
     mapM_result (λ x, prod_at (factors (exact_net float_value tenths_net))
                               (<["A" := x]> {[ "B" := "0" ]})) ["0"; "1"]
     = Ok rhs ∧
     lhs ≠ Qc_sum rhs).
Proof.
  split.
  - split_and!; try by_evaluation; reflexivity.
  - split_and!; [by_evaluation | by_evaluation | reflexivity | by_evaluation
                | reflexivity | reflexivity | reflexivity | reflexivity
                | by apply float_neq |].
    eexists _, _. split_and!; [reflexivity | reflexivity | by_evaluation].
Qed.

(** ** Marginals *)

(** C5, as amended.  For every network and every set of query variables,
    the scope of a factor returned by [compute_marginal] is, as a set, the
    set of query variables that occur in the network; it is the whole query
    set when all query variables occur in the network.  On a well-formed
    network whose other variables all have at least one value,
    [compute_marginal] does return a factor. *)
Theorem compute_marginal_scope (iter : gset string → list string)
    (bnet : BayesianNetwork) (vars : gset string) :
  iteration_order (net_variables bnet ∖ vars)
                  (iter (net_variables bnet ∖ vars)) →
  (∀ g, compute_marginal iter bnet vars = Ok g →
        list_to_set (variables g) = vars ∩ net_variables bnet ∧
        (vars ⊆ net_variables bnet → list_to_set (variables g) = vars)) ∧
  (wf_network bnet →
   set_Forall (inhabited_domain (domains bnet)) (net_variables bnet ∖ vars) →
   ∃ g, compute_marginal iter bnet vars = Ok g).
Proof.
  intros Horder. split.
  - intros g Hg. apply compute_marginal_variables in Hg.
    rewrite (iteration_order_set _ _ Horder), difference_twice in Hg.
    rewrite Hg. split; [done|]. intros Hsub. apply set_eq. intros v.
    rewrite elem_of_intersection. split; [tauto|]. intros Hv.
    split; [done | by apply Hsub].
  - intros Hwf Hinh.
    destruct (compute_marginal_wf iter bnet vars Hwf Horder Hinh)
      as (g & Hg & _).
    by exists g.
Qed.

Lemma compute_marginal_scope_witness :
  ∃ g, compute_marginal (λ _, ["B"]) two_coins {["A"]} = Ok g ∧
       list_to_set (variables g) = ({["A"]} : gset string).
Proof.
  destruct (compute_marginal_scope (λ _, ["B"]) two_coins {["A"]})
    as [Hscope Htotal].
  - by_evaluation.
  - destruct Htotal as [g Hg]; [by_evaluation | by_evaluation |].
    exists g. split; [done|]. apply (Hscope g Hg). by_evaluation.
Defined.

(** The claim C5 for a query variable that is not a variable of the
    network: the scope of the result does not contain it. *)
Lemma compute_marginal_scope_counterexample :
  iteration_order (net_variables two_coins ∖ {["A"; "Z"]}) ["B"] ∧
  ∃ g, compute_marginal (λ _, ["B"]) two_coins {["A"; "Z"]} = Ok g ∧
       variables g = ["A"] ∧
       list_to_set (variables g) ≠ ({["A"; "Z"]} : gset string).
Proof.
  split; [by_evaluation|].
  exists (mkFactor ["A"] [(["0"], half); (["1"], half)]).
  split_and!; [by_evaluation | done | by_evaluation].
Qed.




(** ** Conditionals *)




(** ** The pedigree scenario *)

(** C8, as amended.  In the network that [create_family_bayes_net] builds
    for a mother without recorded parents and her son without recorded
    father, with the founder mutation rate [1/30000],
    [compute_conditional] for the son having hemophilia given that the
    mother has the carrier genotype returns exactly [1/2], in whatever
    order the two marginal computations visit the variables. *)
Theorem carrier_son_conditional (iter : gset string → list string) :
  iteration_order
    (net_variables carrier_net ∖ (dom son_affected ∪ dom mother_carrier))
    (iter (net_variables carrier_net
           ∖ (dom son_affected ∪ dom mother_carrier))) →
  iteration_order
    (net_variables carrier_net ∖ dom mother_carrier)
    (iter (net_variables carrier_net ∖ dom mother_carrier)) →
  compute_conditional iter carrier_net son_affected mother_carrier
  = Ok (Q2Qc (1 # 2)).
Proof.
  intros Ho1 Ho2.
  assert (wf_network carrier_net) as Hwf by by_evaluation.
  destruct (compute_marginal_wf iter carrier_net
              (dom son_affected ∪ dom mother_carrier) Hwf Ho1)
    as (g1 & Hg1 & Hval1); [by_evaluation|].
  destruct (compute_marginal_wf iter carrier_net (dom mother_carrier) Hwf Ho2)
    as (g2 & Hg2 & Hval2); [by_evaluation|].
  assert (full_assignment (domains carrier_net)
            ((dom son_affected ∪ dom mother_carrier)
             ∩ net_variables carrier_net)
            (mother_carrier ∪ son_affected)) as Hfull1 by by_evaluation.
  assert (full_assignment (domains carrier_net)
            (dom mother_carrier ∩ net_variables carrier_net)
            mother_carrier) as Hfull2 by by_evaluation.
  rewrite (compute_conditional_eq _ _ _ _ _ _ _ _
             Hg1 (Hval1 _ Hfull1) Hg2 (Hval2 _ Hfull2)).
  by_evaluation.
Qed.

Lemma carrier_son_conditional_witness :
  compute_conditional pedigree_iter carrier_net son_affected mother_carrier
  = Ok (Q2Qc (1 # 2)).
Proof. apply carrier_son_conditional; by_evaluation. Defined.

(** The claim C8: the value is [1/2], not [1/4], and its distance from
    [1/4] is larger than the founder mutation rate.  The joint marginal
    visits ["P_mother"], ["M_mother"], ["H_mother"], ["M_son"], ["G_son"]
    in this order, the evidence marginal visits ["H_son"] after them. *)
Lemma carrier_son_conditional_counterexample :
  pedigree_iter (net_variables carrier_net
                 ∖ (dom son_affected ∪ dom mother_carrier))
  = ["P_mother"; "M_mother"; "H_mother"; "M_son"; "G_son"] ∧
  pedigree_iter (net_variables carrier_net ∖ dom mother_carrier)
  = ["P_mother"; "M_mother"; "H_mother"; "M_son"; "G_son"; "H_son"] ∧
  iteration_order
    (net_variables carrier_net ∖ (dom son_affected ∪ dom mother_carrier))
    ["P_mother"; "M_mother"; "H_mother"; "M_son"; "G_son"] ∧
  iteration_order
    (net_variables carrier_net ∖ dom mother_carrier)
    ["P_mother"; "M_mother"; "H_mother"; "M_son"; "G_son"; "H_son"] ∧
  compute_conditional pedigree_iter carrier_net son_affected mother_carrier
  = Ok (Q2Qc (1 # 2)) ∧
  Q2Qc (1 # 2) ≠ Q2Qc (1 # 4) ∧
  Q2Qc (1 # 30000) < Q2Qc (1 # 2) - Q2Qc (1 # 4).
Proof. split_and!; by_evaluation. Qed.

(** * Further properties of the engine *)

(** ** [events] *)

Lemma domains_Ok_inv (D : registry) (vars : list string)
    (doms : list (list string)) :
  mapM_result (domain_of D) vars = Ok doms →
  Forall2 (λ v d, D !! v = Some d) vars doms.
Proof.
  revert doms. induction vars as [|v vars IH]; intros doms H.
  - injection H as <-. constructor.
  - change (mapM_result (domain_of D) (v :: vars))
      with (domain_of D v ≫= λ y,
            mapM_result (domain_of D) vars ≫= λ ys, Ok (y :: ys)) in H.
    apply bind_Ok in H as (d & Hd & H).
    apply bind_Ok in H as (ds & Hds & [= <-]).
    constructor; [|by apply IH].
    unfold domain_of in Hd. by destruct (D !! v) as [d'|]; simplify_eq.
Qed.

Lemma domains_Err (D : registry) (vars : list string) (v : string) :
  v ∈ vars → D !! v = None →
  ∃ w, w ∈ vars ∧ D !! w = None ∧
       mapM_result (domain_of D) vars = Err (DictKeyError w).
Proof.
  induction vars as [|u vars IH]; intros Hin Hv.
  - by apply elem_of_nil in Hin.
  - change (mapM_result (domain_of D) (u :: vars))
      with (domain_of D u ≫= λ y,
            mapM_result (domain_of D) vars ≫= λ ys, Ok (y :: ys)).
    destruct (D !! u) as [d|] eqn:Hu.
    + apply elem_of_cons in Hin as [->|Hin]; [congruence|].
      destruct (IH Hin Hv) as (w & Hw & Hwn & Hm).
      exists w. split_and!; [by right | done |].
      rewrite Hm. unfold domain_of. by rewrite Hu.
    + exists u. split_and!; [left | done |].
      assert (domain_of D u = Err (DictKeyError u)) as ->
        by (unfold domain_of; by rewrite Hu).
      done.
Qed.

Lemma length_product (doms : list (list string)) :
  length (product doms) = foldr (λ d n, (length d * n)%nat) 1%nat doms.
Proof.
  induction doms as [|d doms IH]; simpl; [done|].
  rewrite <- IH. clear IH. induction d as [|x d IHd]; csimpl; [done|].
  by rewrite length_app, length_fmap, IHd.
Qed.

Lemma zip_from_dom (m : event) (vars : list string) (vals : key) :
  length vars = length vals →
  dom (foldl (λ ev p, <[p.1 := p.2]> ev) m (zip vars vals))
  = dom m ∪ list_to_set vars.
Proof.
  revert m vals. induction vars as [|v vars IH]; intros m [|x vals] Hlen;
    simplify_eq/=.
  - set_solver.
  - rewrite IH by done. rewrite dom_insert_L. set_solver.
Qed.

Lemma zip_from_values (P : string → string → Prop) (m : event)
    (vars : list string) (vals : key) :
  Forall2 P vars vals → (∀ v x, m !! v = Some x → P v x) →
  ∀ v x, foldl (λ ev p, <[p.1 := p.2]> ev) m (zip vars vals) !! v = Some x →
         P v x.
Proof.
  intros HP. revert m. induction HP as [|w y vars vals Hwy _ IH];
    intros m Hm v x; simpl; [by apply Hm|].
  apply IH. intros v' x'. destruct (decide (w = v')) as [->|Hne].
  - rewrite lookup_insert_eq. by intros [= <-].
  - rewrite lookup_insert_ne by done. apply Hm.
Qed.

(** X1.  When [events] returns, every variable is registered, the list has
    one event for each combination of domain values (its length is the
    product of the domain sizes), every event in it has exactly the given
    variables as keys and gives each a value of its domain, and, the
    variables being distinct, every such event is in the list. *)
Theorem events_enumerates (vars : list string) (D : registry)
    (evs : list (gmap string string)) :
  events vars D = Ok evs →
  ∃ doms,
    Forall2 (λ v d, D !! v = Some d) vars doms ∧
    length evs = foldr (λ d n, (length d * n)%nat) 1%nat doms ∧
    (∀ ev, ev ∈ evs →
       dom ev = list_to_set vars ∧
       full_assignment D (list_to_set vars) ev) ∧
    (NoDup vars →
     ∀ ev, dom ev = list_to_set vars →
           full_assignment D (list_to_set vars) ev → ev ∈ evs).
Proof.
  unfold events. intros H. apply bind_Ok in H as (doms & Hdoms & [= <-]).
  apply domains_Ok_inv in Hdoms. exists doms. split_and!; [done | | |].
  - by rewrite length_fmap, length_product.
  - intros ev (k & -> & Hk)%list_elem_of_fmap.
    apply elem_of_product in Hk as Hkd.
    assert (length vars = length k) as Hlen.
    { rewrite (Forall2_length _ _ _ Hdoms). symmetry.
      by eapply Forall2_length. }
    assert (dom (zip_event vars k) = list_to_set vars) as Hdom.
    { unfold zip_event. rewrite zip_from_dom by done. set_solver. }
    split; [done|]. intros v Hv. unfold assigns.
    assert (v ∈ dom (zip_event vars k)) as [x Hx]%elem_of_dom
      by by rewrite Hdom.
    rewrite Hx.
    assert (Forall2 (λ v x, ∃ d, D !! v = Some d ∧ x ∈ d) vars k) as HP.
    { clear -Hdoms Hkd. revert k Hkd.
      induction Hdoms as [|v d vars doms Hd _ IH]; intros k Hkd.
      - apply Forall2_nil_inv_r in Hkd as ->. constructor.
      - apply Forall2_cons_inv_r in Hkd as (x & k' & Hx & Hk' & ->).
        constructor; [by exists d | by apply IH]. }
    destruct (zip_from_values _ ∅ _ _ HP) with (v := v) (x := x)
      as (d & Hd & Hxd); [by intros ?? ?%lookup_empty_Some | done |].
    by rewrite Hd.
  - intros Hnd ev Hdom Hfull.
    assert (Forall (assigns D ev) vars) as Hall.
    { apply (full_assignment_Forall _ _ _ _ Hfull). intros v Hv.
      by apply elem_of_list_to_set. }
    destruct (assigned_key _ _ _ _ Hdoms Hall) as (k & Hk & Hkd).
    apply list_elem_of_fmap. exists k. split; [|by apply elem_of_product].
    apply map_eq. intros v. destruct (decide (v ∈ vars)) as [Hv|Hv].
    + apply (same_key_agree _ _ vars k); [done| |done].
      apply zip_event_lookup; [done | by eapply Forall2_length].
    + assert (ev !! v = None) as ->.
      { apply not_elem_of_dom. rewrite Hdom. by rewrite elem_of_list_to_set. }
      symmetry. unfold zip_event. rewrite zip_from_other by done.
      apply lookup_empty.
Qed.

Lemma events_enumerates_witness :
  ∃ evs, events ["A"; "B"] (domains two_coins) = Ok evs ∧
         length evs = 4%nat ∧
         ({[ "A" := "1"; "B" := "0" ]} : gmap string string) ∈ evs.
Proof.
  exists [ {[ "A" := "0"; "B" := "0" ]}; {[ "A" := "0"; "B" := "1" ]};
           {[ "A" := "1"; "B" := "0" ]}; {[ "A" := "1"; "B" := "1" ]} ].
  assert (events ["A"; "B"] (domains two_coins)
          = Ok [ {[ "A" := "0"; "B" := "0" ]}; {[ "A" := "0"; "B" := "1" ]};
                 {[ "A" := "1"; "B" := "0" ]}; {[ "A" := "1"; "B" := "1" ]} ])
    as Hev by by_evaluation.
  destruct (events_enumerates _ _ _ Hev) as (doms & Hdoms & Hlen & _ & Hall).
  split_and!; [done | done |].
  apply Hall; by_evaluation.
Defined.

(** X2.  If one of the variables is not registered, [events] raises the
    [KeyError] of the registry lookup, naming an unregistered variable, and
    so does [multiply_factors] when that variable is in the scope of one
    of the factors. *)
Theorem events_unregistered (D : registry) :
  (∀ vars v, v ∈ vars → D !! v = None →
     ∃ w, w ∈ vars ∧ D !! w = None ∧ events vars D = Err (DictKeyError w)) ∧
  (∀ fs f v, f ∈ fs → v ∈ variables f → D !! v = None →
     ∃ w, D !! w = None ∧ multiply_factors fs D = Err (DictKeyError w)).
Proof.
  split.
  - intros vars v Hin Hv. unfold events.
    destruct (domains_Err D vars v Hin Hv) as (w & Hw & Hwn & ->).
    by exists w.
  - intros fs f v Hf Hv HD. unfold multiply_factors, events.
    destruct (domains_Err D (union_scope fs) v) as (w & Hw & Hwn & ->);
      [apply elem_of_union_scope; by exists f | done |].
    by exists w.
Qed.

Lemma events_unregistered_witness :
  events ["A"; "C"] (domains two_coins) = Err (DictKeyError "C") ∧
  multiply_factors [coin "A"; coin "C"] (domains two_coins)
  = Err (DictKeyError "C").
Proof.
  destruct (events_unregistered (domains two_coins)) as [Hev Hmul]. split.
  - destruct (Hev ["A"; "C"] "C") as (w & Hw & Hwn & ->);
      [by_evaluation | reflexivity |].
    repeat (apply elem_of_cons in Hw as [->|Hw]);
      [discriminate | done | by apply elem_of_nil in Hw].
  - destruct (Hmul [coin "A"; coin "C"] (coin "C") "C") as (w & Hwn & Hm);
      [by_evaluation | by_evaluation | reflexivity |].
    rewrite Hm. vm_compute in Hm. by injection Hm as <-.
Defined.

(** ** [Factor.__getitem__] and [marginalize] *)

(** X3.  A lookup reads the event only at the variables of the scope: two
    events that agree there give the same result, value or exception. *)
Theorem getitem_projection (f : Factor) (ev ev' : gmap string string) :
  (∀ v, v ∈ variables f → ev !! v = ev' !! v) →
  getitem f ev = getitem f ev'.
Proof. apply getitem_agree. Qed.

Lemma getitem_projection_witness :
  getitem (coin "A") {[ "A" := "1"; "B" := "0" ]}
  = getitem (coin "A") {[ "A" := "1" ]}.
Proof.
  apply getitem_projection. intros v Hv.
  apply list_elem_of_singleton in Hv as ->. reflexivity.
Defined.

(** X4.  [marginalize] raises [ValueError] exactly when the variable is not
    in the scope.  Otherwise, whatever the table, it returns a factor whose
    scope is the old scope without the variable, whose keys are distinct,
    and whose keys are the old keys with the position of the first
    occurrence of the variable removed. *)
Theorem marginalize_scope (f : Factor) (v : string) :
  (v ∉ variables f → marginalize f v = Err IndexValueError) ∧
  (v ∈ variables f →
   ∃ g idx,
     marginalize f v = Ok g ∧
     variables f !! idx = Some v ∧ (v ∉ take idx (variables f)) ∧
     variables g = filter (λ w, w ≠ v) (variables f) ∧
     (v ∉ variables g) ∧
     NoDup (values g).*1 ∧
     ∀ k', k' ∈ (values g).*1 ↔
           ∃ k, k ∈ (values f).*1 ∧ slice_out idx k = k').
Proof.
  split.
  - intros Hv. unfold marginalize. by rewrite index_Err.
  - intros Hv. destruct (index_Ok _ _ Hv) as (idx & Hidx & Hl & Ht).
    eexists _, idx. unfold marginalize. rewrite Hidx. simpl.
    split_and!; [done | done | done | done | | |].
    + simpl. rewrite list_elem_of_filter. tauto.
    + simpl. apply (bucket_loop_NoDup (slice_out idx)). constructor.
    + simpl. intros k'. rewrite (bucket_loop_keys (slice_out idx)). split.
      * intros [Hin|((k & y) & Hp & Hr)]; [by apply elem_of_nil in Hin|].
        exists k. split; [|done]. apply list_elem_of_fmap. by exists (k, y).
      * intros (k & ((k0 & y) & -> & Hp)%list_elem_of_fmap & Hr).
        right. by exists (k0, y).
Qed.

Lemma marginalize_scope_witness :
  marginalize (coin "A") "B" = Err IndexValueError ∧
  ∃ g, marginalize (coin "A") "A" = Ok g ∧ variables g = [].
Proof.
  destruct (marginalize_scope (coin "A") "B") as [Habs _].
  destruct (marginalize_scope (coin "A") "A") as [_ Hin].
  split; [apply Habs; by_evaluation|].
  destruct Hin as (g & idx & Hg & _ & _ & Hvars & _); [by_evaluation|].
  by exists g.
Defined.

Lemma assigns_insert (D : registry) (ev : event) (l : list string)
    (w y : string) (d : list string) :
  Forall (assigns D ev) (filter (λ u, u ≠ w) l) →
  D !! w = Some d → y ∈ d →
  Forall (assigns D (<[w := y]> ev)) l.
Proof.
  intros Hall Hd Hy. rewrite Forall_forall in Hall |- *. intros u Hu.
  unfold assigns. destruct (decide (u = w)) as [->|Hne].
  - by rewrite lookup_insert_eq, Hd.
  - rewrite lookup_insert_ne by done. apply Hall.
    by apply list_elem_of_filter.
Qed.

(** X5.  Sum-out on a well-formed factor: if the variable is in the scope
    and has at least one value, [marginalize] returns a well-formed factor,
    and at every full assignment of the remaining scope its value is the
    sum, over the values [x] of the variable, of the values of the input
    factor at the assignment extended with [x]; each of these lookups
    succeeds. *)
Theorem marginalize_sums_out (D : registry) (f : Factor) (v : string)
    (d : list string) :
  wf_domains D → wf_factor D f → v ∈ variables f →
  D !! v = Some d → d ≠ [] →
  ∃ g, marginalize f v = Ok g ∧ wf_factor D g ∧
    ∀ ev, full_assignment D (list_to_set (variables g)) ev →
      ∃ xs, mapM_result (λ x, getitem f (<[v := x]> ev)) d = Ok xs ∧
            getitem g ev = Ok (Qc_sum xs).
Proof.
  intros HD Hwf Hv Hd Hne.
  destruct (marginalize_wf D f v d HD Hwf Hv Hd Hne)
    as (g & Hg & Hvars & Hwfg & Hval).
  exists g. split_and!; [done | done |]. intros ev Hfull.
  assert (Forall (assigns D ev) (variables g)) as Hall.
  { apply (full_assignment_Forall _ _ _ _ Hfull). intros u Hu.
    by apply elem_of_list_to_set. }
  exists ((λ x, value_at f (<[v := x]> ev)) <$> d). split.
  - apply mapM_result_pure. intros x Hx. apply (getitem_wf D); [done|].
    rewrite Hvars in Hall. by eapply assigns_insert.
  - rewrite (Hval ev Hall). unfold sum_over. by rewrite Hd.
Qed.

Lemma marginalize_sums_out_witness :
  ∃ g, marginalize (coin "A") "A" = Ok g ∧
       getitem g ∅ = Ok (Qc_sum [half; half]).
Proof.
  destruct (marginalize_sums_out (domains two_coins) (coin "A") "A" ["0"; "1"])
    as (g & Hg & _ & Hval);
    [by_evaluation | by_evaluation | by_evaluation | reflexivity
    | discriminate |].
  exists g. split; [done|].
  destruct (Hval ∅) as (xs & Hxs & ->).
  - apply marginalize_variables in Hg as [_ ->]. by_evaluation.
  - by injection Hxs as <-.
Defined.






(** ** [multiply_factors] *)




Lemma first_occurrences_NoDup (l : list string) :
  NoDup l → first_occurrences l = l.
Proof.
  induction 1 as [|x l Hx _ IH]; simpl; [done|].
  rewrite IH. f_equal. apply filter_all. intros y Hy ->. done.
Qed.

Lemma union_scope_app (fs1 fs2 : list Factor) :
  union_scope (fs1 ++ fs2)
  = foldl add_var (union_scope fs1) (fs2 ≫= variables).
Proof.
  unfold union_scope. by rewrite foldl_app, union_scope_loop.
Qed.

(** X8.  A product can be taken in stages: for well-formed factors, the
    product of the product of [fs1] with the factors [fs2] has the same
    scope, in the same order, as the product of [fs1 ++ fs2], and the same
    value at every full assignment of it. *)
Theorem multiply_factors_staged (D : registry) (fs1 fs2 : list Factor) :
  wf_domains D → Forall (wf_factor D) fs1 → Forall (wf_factor D) fs2 →
  ∃ g1 g g',
    multiply_factors fs1 D = Ok g1 ∧
    multiply_factors (g1 :: fs2) D = Ok g ∧
    multiply_factors (fs1 ++ fs2) D = Ok g' ∧
    variables g = variables g' ∧
    ∀ ev, full_assignment D (list_to_set (variables g)) ev →
          ∃ x, getitem g ev = Ok x ∧ getitem g' ev = Ok x.
Proof.
  intros HD Hfs1 Hfs2.
  destruct (multiply_factors_wf D fs1 HD Hfs1)
    as (g1 & doms1 & Hg1 & Hvars1 & _ & _ & Hwf1 & Hval1).
  destruct (multiply_factors_wf D (g1 :: fs2) HD)
    as (g & doms & Hg & Hvars & _ & _ & _ & Hval); [by constructor|].
  destruct (multiply_factors_wf D (fs1 ++ fs2) HD)
    as (g' & doms' & Hg' & Hvars' & _ & _ & _ & Hval');
    [by apply Forall_app|].
  assert (union_scope (g1 :: fs2) = union_scope (fs1 ++ fs2)) as Hscope.
  { rewrite union_scope_app.
    change (g1 :: fs2) with ([g1] ++ fs2). rewrite union_scope_app.
    f_equal. rewrite union_scope_first_occurrences. csimpl.
    rewrite app_nil_r, Hvars1. apply first_occurrences_NoDup.
    apply NoDup_union_scope. }
  exists g1, g, g'. split_and!; [done | done | done | congruence |].
  intros ev Hfull.
  assert (Forall (assigns D ev) (union_scope (g1 :: fs2))) as Hall.
  { apply (full_assignment_Forall _ _ _ _ Hfull). intros v Hv.
    rewrite elem_of_list_to_set. by rewrite Hvars. }
  assert (Forall (assigns D ev) (union_scope fs1)) as Hall1.
  { rewrite Forall_forall in Hall |- *. intros v Hv. apply Hall.
    rewrite Hscope, union_scope_app, add_vars_first_occurrences.
    apply elem_of_app. by left. }
  exists (joint_value (fs1 ++ fs2) ev). split.
  - rewrite (Hval ev Hall). f_equal.
    change (g1 :: fs2) with ([g1] ++ fs2). rewrite !joint_value_app. f_equal.
    unfold joint_value at 1.
    rewrite fmap_cons, fmap_nil, Qc_prod_cons, Qc_prod_nil.
    rewrite (getitem_value_at _ _ _ (Hval1 ev Hall1)). ring.
  - apply Hval'. by rewrite <- Hscope.
Qed.

Lemma multiply_factors_staged_witness :
  ∃ g1 g g',
    multiply_factors [coin "A"] (domains two_coins) = Ok g1 ∧
    multiply_factors [g1; certain "B"] (domains two_coins) = Ok g ∧
    multiply_factors [coin "A"; certain "B"] (domains two_coins) = Ok g' ∧
    variables g = variables g'.
Proof.
  destruct (multiply_factors_staged (domains two_coins)
              [coin "A"] [certain "B"])
    as (g1 & g & g' & Hg1 & Hg & Hg' & Hvars & _);
    [by_evaluation | by_evaluation | by_evaluation |].
  by exists g1, g, g'.
Defined.

(** ** Networks, [eliminate] and the queries *)

(** X9.  The attribute [variables] that [BayesianNetwork.__init__] computes
    holds exactly the variables of the scopes of the factors. *)
Theorem net_variables_scopes (bnet : BayesianNetwork) (v : string) :
  v ∈ net_variables bnet ↔ ∃ f, f ∈ factors bnet ∧ v ∈ variables f.
Proof. apply elem_of_net_variables. Qed.

(** X10.  Whenever [eliminate] returns, for any network: the variable was
    in the scope of some factor; the registry is unchanged; the new factor
    list is the list of the factors without the variable, in their order,
    followed by one new factor, whose scope does not contain the variable;
    and the variables of the new network are the old ones without the
    eliminated one. *)
Theorem eliminate_result (bnet bnet' : BayesianNetwork) (v : string) :
  eliminate bnet v = Ok bnet' →
  v ∈ net_variables bnet ∧
  domains bnet' = domains bnet ∧
  net_variables bnet' = net_variables bnet ∖ {[v]} ∧
  ∃ reduced,
    factors bnet'
    = filter (λ f, v ∉ variables f) (factors bnet) ++ [reduced] ∧
    v ∉ variables reduced.
Proof.
  intros H. destruct (eliminate_variables _ _ _ H) as [HD HV].
  unfold eliminate in H.
  apply bind_Ok in H as (g1 & Hg1 & H).
  apply bind_Ok in H as (g2 & Hg2 & [= <-]).
  apply multiply_factors_variables in Hg1.
  apply marginalize_variables in Hg2 as [Hv Hg2].
  split_and!; [| done | done |].
  - rewrite Hg1 in Hv. apply elem_of_union_scope in Hv as (f & Hf & Hvf).
    apply list_elem_of_filter in Hf as [_ Hf].
    apply elem_of_net_variables. by exists f.
  - exists g2. split; [done|]. rewrite Hg2, list_elem_of_filter. tauto.
Qed.

Lemma eliminate_result_witness :
  ∃ bnet', eliminate two_coins "B" = Ok bnet' ∧
           net_variables bnet' = net_variables two_coins ∖ {["B"]} ∧
           ∃ reduced, factors bnet' = [coin "A"; reduced].
Proof.
  assert (eliminate two_coins "B"
          = Ok (mkNet [coin "A"; mkFactor [] [([], 1)]] (domains two_coins)))
    as Hel by by_evaluation.
  destruct (eliminate_result _ _ _ Hel) as (_ & _ & HV & reduced & Hfs & _).
  eexists. split_and!; [done | done |]. exists reduced. exact Hfs.
Defined.

(** X11.  [eliminate] keeps a network well formed: on a well-formed
    network, for a variable that occurs in it and has at least one value,
    it returns a well-formed network over the same registry. *)
Theorem eliminate_keeps_well_formed (bnet : BayesianNetwork) (v : string) :
  wf_network bnet → v ∈ net_variables bnet →
  inhabited_domain (domains bnet) v →
  ∃ bnet', eliminate bnet v = Ok bnet' ∧ wf_network bnet' ∧
           domains bnet' = domains bnet.
Proof.
  intros Hwf Hv (d & Hd & Hne)%inhabited_domain_Some.
  destruct (eliminate_wf bnet v d Hwf Hv Hd Hne) as (bnet' & Hel & Hwf' & _).
  exists bnet'. split_and!; [done | done |].
  by apply eliminate_variables in Hel as [? _].
Qed.

Lemma eliminate_keeps_well_formed_witness :
  ∃ bnet', eliminate carrier_net "M_son" = Ok bnet' ∧ wf_network bnet'.
Proof.
  destruct (eliminate_keeps_well_formed carrier_net "M_son")
    as (bnet' & Hel & Hwf & _); [by_evaluation | by_evaluation | by_evaluation |].
  exists bnet'. exact (conj Hel Hwf).
Defined.

(** What [compute_marginal] computes in exact arithmetic. *)
Lemma compute_marginal_value_exact (iter : gset string → list string)
    (bnet : BayesianNetwork) (vars : gset string) :
  wf_network bnet →
  iteration_order (net_variables bnet ∖ vars)
                  (iter (net_variables bnet ∖ vars)) →
  set_Forall (inhabited_domain (domains bnet)) (net_variables bnet ∖ vars) →
  ∃ g, compute_marginal iter bnet vars = Ok g ∧
    wf_factor (domains bnet) g ∧
    ∀ ev, full_assignment (domains bnet) (vars ∩ net_variables bnet) ev →
          getitem g ev
          = Ok (marginal_sum (domains bnet)
                             (elements (net_variables bnet ∖ vars))
                             (joint_value (factors bnet)) ev).
Proof.
  intros Hwf Horder Hinh.
  destruct (compute_marginal_wf iter bnet vars Hwf Horder Hinh)
    as (g & Hg & Hval).
  exists g. split_and!; [done | | done].
  unfold compute_marginal in Hg. rewrite mkNet_eta in Hg.
  apply bind_Ok in Hg as (bn & Hbn & Hg).
  destruct (eliminate_all_wf (iter (net_variables bnet ∖ vars)) bnet Hwf)
    as (bn' & Hbn' & [HDn Hfsn] & HD & _).
  { by eapply iteration_order_NoDup. }
  { intros v Hv%(iteration_order_elem _ _ _ Horder).
    split; [by apply elem_of_difference in Hv as [? _] | by apply Hinh]. }
  rewrite Hbn in Hbn'. injection Hbn' as <-. rewrite HD in HDn, Hfsn.
  destruct (multiply_factors_wf _ _ HDn Hfsn)
    as (g' & doms & Hg' & _ & _ & _ & Hwfg & _).
  rewrite Hg in Hg'. by injection Hg' as <-.
Qed.

(** X12.  What [compute_marginal] computes.  On a well-formed network in
    which every variable outside the query set has at least one value, for
    every order of visiting these variables and whatever the arithmetic on
    the table values, [compute_marginal] returns a well-formed factor,
    which has a value at every full assignment of the query variables of
    the network.  In exact arithmetic on the same tables ([σ] reads the
    stored numbers as rationals) the run returns a factor of the same
    shape, whose value at such an assignment is the product of all
    factors of the network, summed over all values of all variables
    outside the query set. *)
Theorem compute_marginal_value {R : Type} `{!Num.Arith R} (σ : R → Qc)
    (iter : gset string → list string) (bnet : Num.BayesianNetwork R)
    (vars : gset string) :
  Num.wf_network bnet →
  iteration_order (Num.net_variables bnet ∖ vars)
                  (iter (Num.net_variables bnet ∖ vars)) →
  set_Forall (inhabited_domain (Num.domains bnet))
             (Num.net_variables bnet ∖ vars) →
  ∃ g h,
    Num.compute_marginal iter bnet vars = Ok g ∧
    Num.wf_factor (Num.domains bnet) g ∧
    compute_marginal iter (exact_net σ bnet) vars = Ok h ∧
    same_shape g h ∧
    ∀ ev, full_assignment (Num.domains bnet)
                          (vars ∩ Num.net_variables bnet) ev →
          (∃ x, Num.getitem g ev = Ok x) ∧
          getitem h ev
          = Ok (marginal_sum (Num.domains bnet)
                  (elements (Num.net_variables bnet ∖ vars))
                  (joint_value (factors (exact_net σ bnet))) ev).
Proof.
  intros Hwf Horder Hinh.
  apply (exact_net_wf σ) in Hwf.
  rewrite <- (exact_net_variables σ) in Horder, Hinh.
  rewrite <- (exact_net_variables σ).
  set (M := exact_net σ bnet) in *.
  change (Num.domains bnet) with (domains M) in *.
  destruct (compute_marginal_value_exact iter M vars Hwf Horder Hinh)
    as (h & Hh & Hwfh & Hval).
  destruct (result_rel_Ok _ _ _ _
              (shape_compute_marginal iter bnet M vars (exact_net_shape σ bnet))
              Hh) as (g & Hg & Hs).
  exists g, h. split_and!; [done | by apply (same_shape_wf _ _ _ Hs) | done
                           | done |].
  intros ev Hfull. split; [|by apply Hval].
  destruct (result_rel_Ok _ _ _ _ (shape_getitem g h ev Hs) (Hval ev Hfull))
    as (x & Hx & _).
  by exists x.
Qed.

Lemma compute_marginal_value_witness :
  ∃ g, Num.compute_marginal (λ _, ["B"]) tenths_net {["A"]} = Ok g ∧
       Num.wf_factor (Num.domains tenths_net) g ∧
       ∃ x, Num.getitem g {[ "A" := "0" ]} = Ok x.
Proof.
  destruct (compute_marginal_value float_value (λ _, ["B"]) tenths_net {["A"]})
    as (g & h & Hg & Hwf & _ & _ & Hval);
    [by_evaluation | by_evaluation | by_evaluation |].
  exists g. split_and!; [exact Hg | exact Hwf |].
  apply (Hval {[ "A" := "0" ]}). by_evaluation.
Defined.


(** X14.  The outcome of [compute_conditional].  On a well-formed network
    in which every variable outside the evidence has at least one value,
    for an event and an evidence that assign values of the domains, and
    whatever the arithmetic on the table values: both marginals are
    returned and both lookups succeed, so no [KeyError] and no
    [ValueError] is raised; [compute_conditional] raises
    [ZeroDivisionError] if the value found for the evidence compares equal
    to zero, and returns the quotient of the two values otherwise. *)
Theorem compute_conditional_value {R : Type} `{!Num.Arith R}
    (iter : gset string → list string) (bnet : Num.BayesianNetwork R)
    (ev evidence : gmap string string) :
  let D := Num.domains bnet in
  let V := Num.net_variables bnet in
  Num.wf_network bnet →
  set_Forall (inhabited_domain D) (V ∖ dom evidence) →
  iteration_order (V ∖ (dom ev ∪ dom evidence))
                  (iter (V ∖ (dom ev ∪ dom evidence))) →
  iteration_order (V ∖ dom evidence) (iter (V ∖ dom evidence)) →
  full_assignment D ((dom ev ∪ dom evidence) ∩ V) (evidence ∪ ev) →
  full_assignment D (dom evidence ∩ V) evidence →
  ∃ joint num denom_factor denom,
    Num.compute_marginal iter bnet (dom ev ∪ dom evidence) = Ok joint ∧
    Num.getitem joint (evidence ∪ ev) = Ok num ∧
    Num.compute_marginal iter bnet (dom evidence) = Ok denom_factor ∧
    Num.getitem denom_factor evidence = Ok denom ∧
    Num.compute_conditional iter bnet ev evidence
    = if Num.is_zero denom then Err ZeroDivisionError
      else Ok (Num.div num denom).
Proof.
  intros D V Hwf Hinh Ho1 Ho2 Hfull1 Hfull2. subst D V.
  apply (exact_net_wf (λ _, 0)) in Hwf.
  rewrite <- (exact_net_variables (λ _, 0)) in Hinh, Ho1, Ho2, Hfull1, Hfull2.
  set (M := exact_net (λ _, 0) bnet) in *.
  change (Num.domains bnet) with (domains M) in *.
  destruct (compute_marginal_wf iter M (dom ev ∪ dom evidence) Hwf Ho1)
    as (h1 & Hh1 & Hval1).
  { intros v Hv. apply Hinh. set_solver. }
  destruct (compute_marginal_wf iter M (dom evidence) Hwf Ho2 Hinh)
    as (h2 & Hh2 & Hval2).
  pose proof (exact_net_shape (λ _, 0) bnet) as Hs.
  destruct (result_rel_Ok _ _ _ _
              (shape_compute_marginal iter bnet M _ Hs) Hh1)
    as (joint & Hj & Hsj).
  destruct (result_rel_Ok _ _ _ _
              (shape_compute_marginal iter bnet M _ Hs) Hh2)
    as (dfac & Hd & Hsd).
  destruct (result_rel_Ok _ _ _ _ (shape_getitem joint h1 _ Hsj)
              (Hval1 _ Hfull1)) as (num & Hnum & _).
  destruct (result_rel_Ok _ _ _ _ (shape_getitem dfac h2 _ Hsd)
              (Hval2 _ Hfull2)) as (denom & Hdenom & _).
  exists joint, num, dfac, denom. split_and!; try done.
  unfold Num.compute_conditional.
  rewrite Hj. simpl. rewrite Hnum. simpl. rewrite Hd. simpl.
  by rewrite Hdenom.
Qed.

Lemma compute_conditional_value_witness :
  ∃ joint num denom_factor denom,
    Num.compute_marginal elements tenths_net
                         (dom ({[ "A" := "0" ]} : gmap string string)
                          ∪ dom ({[ "B" := "0" ]} : gmap string string))
    = Ok joint ∧
    Num.getitem joint ({[ "B" := "0" ]} ∪ {[ "A" := "0" ]}) = Ok num ∧
    Num.compute_marginal elements tenths_net
                         (dom ({[ "B" := "0" ]} : gmap string string))
    = Ok denom_factor ∧
    Num.getitem denom_factor {[ "B" := "0" ]} = Ok denom ∧
    Num.compute_conditional elements tenths_net
                            {[ "A" := "0" ]} {[ "B" := "0" ]}
    = if Num.is_zero denom then Err ZeroDivisionError
      else Ok (Num.div num denom).
Proof.
  apply (compute_conditional_value elements tenths_net
           {[ "A" := "0" ]} {[ "B" := "0" ]}); by_evaluation.
Defined.

(** * Properties of the pedigree builders *)

Lemma create_variable_domains_fold family :
  create_variable_domains family = foldl person_domains ∅ family.
Proof. reflexivity. Qed.

Lemma person_domains_other (r : gmap string (list string)) p k :
  k ∉ person_keys (get_name p) → person_domains r p !! k = r !! k.
Proof.
  unfold person_keys. rewrite !not_elem_of_cons. intros (HM & HH & HP & HG & _).
  unfold person_domains. cbv zeta. destruct (decide (get_sex p = "female")).
  - by rewrite !lookup_insert_ne by done.
  - by rewrite !lookup_insert_ne by done.
Qed.

Lemma person_keys_disjoint (n n' : string) (k : string) :
  n ≠ n' → k ∈ person_keys n → k ∉ person_keys n'.
Proof.
  unfold person_keys. intros Hne Hk Hk'.
  repeat (apply elem_of_cons in Hk as [->|Hk]);
    try (by apply elem_of_nil in Hk);
    repeat (apply elem_of_cons in Hk' as [Hk'|Hk']);
    try (by apply elem_of_nil in Hk');
    simplify_eq/=.
Qed.

Lemma domains_fold_other (family : list FamilyMember)
    (r : gmap string (list string)) (k : string) :
  (∀ q, q ∈ family → k ∉ person_keys (get_name q)) →
  foldl person_domains r family !! k = r !! k.
Proof.
  revert r. induction family as [|q family IH]; intros r Hk; [done|].
  cbn [foldl]. rewrite IH.
  - apply person_domains_other. apply Hk. left.
  - intros q' Hq'. apply Hk. by right.
Qed.

Lemma person_domains_lookup (r : gmap string (list string)) p :
  let n := get_name p in
  person_domains r p !! ("M_" +:+ n) = Some ["x"; "X"] ∧
  person_domains r p !! ("H_" +:+ n) = Some ["-"; "+"] ∧
  person_domains r p !! ("G_" +:+ n) = Some (genotypes_of p) ∧
  person_domains r p !! ("P_" +:+ n)
  = if decide (get_sex p = "female") then Some ["x"; "X"]
    else r !! ("P_" +:+ n).
Proof.
  intros n. unfold genotypes_of, person_domains. cbv zeta. fold n.
  destruct (decide (get_sex p = "female")); split_and!;
    repeat first [ rewrite lookup_insert_eq | rewrite lookup_insert_ne by done ];
    done.
Qed.

Lemma domains_fold_lookup (family : list FamilyMember) :
  NoDup (get_name <$> family) →
  ∀ (r : gmap string (list string)) p, p ∈ family →
    let n := get_name p in
    let D := foldl person_domains r family in
    D !! ("M_" +:+ n) = Some ["x"; "X"] ∧
    D !! ("H_" +:+ n) = Some ["-"; "+"] ∧
    D !! ("G_" +:+ n) = Some (genotypes_of p) ∧
    D !! ("P_" +:+ n)
    = if decide (get_sex p = "female") then Some ["x"; "X"]
      else r !! ("P_" +:+ n).
Proof.
  induction family as [|q family IH]; intros Hnd r p Hp n D.
  - by apply elem_of_nil in Hp.
  - rewrite fmap_cons in Hnd. apply NoDup_cons in Hnd as [Hq Hnd].
    subst D. cbn [foldl]. apply elem_of_cons in Hp as [->|Hp].
    + assert (∀ k, k ∈ person_keys (get_name q) →
                foldl person_domains (person_domains r q) family !! k
                = person_domains r q !! k) as Hkeep.
      { intros k Hk. apply domains_fold_other. intros q' Hq'.
        apply (person_keys_disjoint (get_name q)); [|done].
        intros Heq. apply Hq. rewrite Heq. by apply list_elem_of_fmap_2. }
      unfold person_keys in Hkeep. subst n.
      rewrite !Hkeep by (rewrite !elem_of_cons; tauto).
      apply person_domains_lookup.
    + destruct (IH Hnd (person_domains r q) p Hp) as (HM & HH & HG & HP).
      split_and!; [done..|]. fold n in HP. rewrite HP.
      destruct (decide (get_sex p = "female")); [done|].
      apply person_domains_other.
      apply (person_keys_disjoint (get_name p)).
      * intros Heq. apply Hq. rewrite <- Heq. by apply list_elem_of_fmap_2.
      * unfold person_keys. rewrite !elem_of_cons. tauto.
Qed.

Lemma domains_fold_values (family : list FamilyMember)
    (r : gmap string (list string)) :
  map_Forall (λ _ d, d ∈ pedigree_domains) r →
  map_Forall (λ _ d, d ∈ pedigree_domains) (foldl person_domains r family).
Proof.
  revert r. induction family as [|q family IH]; intros r Hr; [done|].
  cbn [foldl]. apply IH. unfold person_domains. cbv zeta.
  destruct (decide (get_sex q = "female"));
    repeat (apply map_Forall_insert_2; [by_evaluation|]); done.
Qed.

Lemma family_cpts_fold (family : list FamilyMember) (acc : list Factor) :
  foldl (λ cpts person,
      let cpts :=
        if decide (get_sex person = "female")
        then cpts ++ [create_paternal_inheritance_cpt person]
        else cpts in
      cpts ++ [create_maternal_inheritance_cpt person;
               create_genotype_cpt person;
               create_hemophilia_cpt person]) acc family
  = acc ++ (family ≫= cpts_of).
Proof.
  revert acc. induction family as [|p family IH]; intros acc; csimpl.
  - by rewrite app_nil_r.
  - rewrite IH. unfold cpts_of at 2.
    destruct (decide (get_sex p = "female")); by rewrite <- !(assoc_L (++)).
Qed.

Lemma factors_create_family_bayes_net (family : list FamilyMember) :
  factors (create_family_bayes_net family) = family ≫= cpts_of.
Proof. unfold create_family_bayes_net. simpl. by rewrite family_cpts_fold. Qed.

Lemma wf_factor_intro (D : gmap string (list string)) (vars : list string)
    (doms : list (list string)) (t : list (list string * Qc)) :
  NoDup vars → Forall2 (λ v d, D !! v = Some d) vars doms →
  NoDup t.*1 → t.*1 ≡ₚ product doms →
  wf_factor D (mkFactor vars t).
Proof.
  intros Hnd Hdoms Hndk Hperm. split_and!; simpl; [done | done |].
  by apply mapM_Some in Hdoms as ->.
Qed.

Ltac distinct_names :=
  repeat (apply NoDup_cons; split;
          [rewrite ?not_elem_of_cons; split_and?;
           try apply not_elem_of_nil; discriminate|]);
  apply NoDup_nil_2.

Lemma hemophilia_cpt_wf (D : gmap string (list string)) p :
  D !! ("G_" +:+ get_name p) = Some (genotypes_of p) →
  D !! ("H_" +:+ get_name p) = Some ["-"; "+"] →
  wf_factor D (create_hemophilia_cpt p).
Proof.
  intros HG HH. unfold create_hemophilia_cpt, genotypes_of in *.
  destruct (decide (get_sex p = "female")); cbv zeta beta iota.
  - apply (wf_factor_intro _ _ [["xx"; "xX"; "XX"]; ["-"; "+"]]);
      [distinct_names | by repeat constructor | by_evaluation | by_evaluation].
  - apply (wf_factor_intro _ _ [["xy"; "Xy"]; ["-"; "+"]]);
      [distinct_names | by repeat constructor | by_evaluation | by_evaluation].
Qed.

Lemma genotype_cpt_wf (D : gmap string (list string)) p :
  D !! ("M_" +:+ get_name p) = Some ["x"; "X"] →
  D !! ("G_" +:+ get_name p) = Some (genotypes_of p) →
  (get_sex p = "female" → D !! ("P_" +:+ get_name p) = Some ["x"; "X"]) →
  wf_factor D (create_genotype_cpt p).
Proof.
  intros HM HG HP. unfold create_genotype_cpt, genotypes_of in *.
  destruct (decide (get_sex p = "female")) as [Hf|Hf]; cbv zeta.
  - specialize (HP Hf).
    apply (wf_factor_intro _ _ [["x"; "X"]; ["x"; "X"]; ["xx"; "xX"; "XX"]]);
      [distinct_names | by repeat constructor | by_evaluation | by_evaluation].
  - apply (wf_factor_intro _ _ [["x"; "X"]; ["xy"; "Xy"]]);
      [distinct_names | by repeat constructor | by_evaluation | by_evaluation].
Qed.

Lemma maternal_cpt_wf (D : gmap string (list string)) p :
  D !! ("M_" +:+ get_name p) = Some ["x"; "X"] →
  (∀ mom, mother p = Some mom →
          D !! ("G_" +:+ get_name mom) = Some ["xx"; "xX"; "XX"]) →
  wf_factor D (create_maternal_inheritance_cpt p).
Proof.
  intros HM Hmom. unfold create_maternal_inheritance_cpt.
  destruct (mother p) as [mom|]; cbv zeta.
  - specialize (Hmom mom eq_refl).
    apply (wf_factor_intro _ _ [["xx"; "xX"; "XX"]; ["x"; "X"]]);
      [distinct_names | by repeat constructor | by_evaluation | by_evaluation].
  - apply (wf_factor_intro _ _ [["x"; "X"]]);
      [distinct_names | by repeat constructor | by_evaluation | by_evaluation].
Qed.

Lemma paternal_cpt_wf (D : gmap string (list string)) p :
  D !! ("P_" +:+ get_name p) = Some ["x"; "X"] →
  (∀ dad, father p = Some dad →
          D !! ("G_" +:+ get_name dad) = Some ["xy"; "Xy"]) →
  wf_factor D (create_paternal_inheritance_cpt p).
Proof.
  intros HP Hdad. unfold create_paternal_inheritance_cpt.
  destruct (father p) as [dad|]; cbv zeta.
  - specialize (Hdad dad eq_refl).
    apply (wf_factor_intro _ _ [["xy"; "Xy"]; ["x"; "X"]]);
      [distinct_names | by repeat constructor | by_evaluation | by_evaluation].
  - apply (wf_factor_intro _ _ [["x"; "X"]]);
      [distinct_names | by repeat constructor | by_evaluation | by_evaluation].
Qed.

Lemma marginalize_at (f : Factor) (v : string) (l1 l2 : list string) :
  variables f = l1 ++ v :: l2 → v ∉ l1 →
  marginalize f v
  = Ok (mkFactor (filter (λ w, w ≠ v) (variables f))
          (foldl (λ acc p, dict_add acc (slice_out (length l1) p.1) p.2) []
                 (values f))).
Proof.
  intros Hvars Hv. unfold marginalize. by rewrite Hvars, index_middle.
Qed.

(** X16.  Every table that the four CPT builders return is a conditional
    distribution of the person's own variable: summing that variable out
    with [marginalize] returns a non-empty table that holds [1] in every
    entry.  This holds for every person, whatever the name, the sex string
    and the recorded parents. *)
Theorem cpt_rows_sum_to_one (p : FamilyMember) :
  (∃ g, marginalize (create_hemophilia_cpt p) ("H_" +:+ get_name p) = Ok g ∧
        unit_rows (values g)) ∧
  (∃ g, marginalize (create_genotype_cpt p) ("G_" +:+ get_name p) = Ok g ∧
        unit_rows (values g)) ∧
  (∃ g, marginalize (create_maternal_inheritance_cpt p)
                    ("M_" +:+ get_name p) = Ok g ∧
        unit_rows (values g)) ∧
  (∃ g, marginalize (create_paternal_inheritance_cpt p)
                    ("P_" +:+ get_name p) = Ok g ∧
        unit_rows (values g)).
Proof.
  split_and!.
  - unfold create_hemophilia_cpt.
    destruct (decide (get_sex p = "female")); cbv zeta beta iota;
      eexists; (split;
        [apply (marginalize_at _ _ ["G_" +:+ get_name p] []);
           [reflexivity | rewrite not_elem_of_cons; split;
                          [discriminate | apply not_elem_of_nil]]
        | by_evaluation]).
  - unfold create_genotype_cpt.
    destruct (decide (get_sex p = "female")); cbv zeta.
    + eexists. split.
      * apply (marginalize_at _ _
                 ["M_" +:+ get_name p; "P_" +:+ get_name p] []);
          [reflexivity|].
        rewrite !not_elem_of_cons. split_and!;
          [discriminate | discriminate | apply not_elem_of_nil].
      * by_evaluation.
    + eexists. split.
      * apply (marginalize_at _ _ ["M_" +:+ get_name p] []); [reflexivity|].
        rewrite !not_elem_of_cons. split; [discriminate | apply not_elem_of_nil].
      * by_evaluation.
  - unfold create_maternal_inheritance_cpt.
    destruct (mother p) as [mom|]; cbv zeta.
    + eexists. split.
      * apply (marginalize_at _ _ ["G_" +:+ get_name mom] []); [reflexivity|].
        rewrite !not_elem_of_cons. split; [discriminate | apply not_elem_of_nil].
      * by_evaluation.
    + eexists. split.
      * apply (marginalize_at _ _ [] []); [reflexivity | apply not_elem_of_nil].
      * by_evaluation.
  - unfold create_paternal_inheritance_cpt.
    destruct (father p) as [dad|]; cbv zeta.
    + eexists. split.
      * apply (marginalize_at _ _ ["G_" +:+ get_name dad] []); [reflexivity|].
        rewrite !not_elem_of_cons. split; [discriminate | apply not_elem_of_nil].
      * by_evaluation.
    + eexists. split.
      * apply (marginalize_at _ _ [] []); [reflexivity | apply not_elem_of_nil].
      * by_evaluation.
Qed.

Lemma domains_fold_dom (family : list FamilyMember) (r : gmap string (list string)) :
  dom (foldl person_domains r family)
  = dom r ∪ list_to_set (family ≫= person_variables).
Proof.
  revert r. induction family as [|q family IH]; intros r.
  - csimpl. set_solver.
  - cbn [foldl]. rewrite IH, bind_cons, list_to_set_app_L.
    unfold person_domains, person_variables. cbv zeta.
    destruct (decide (get_sex q = "female")); rewrite !dom_insert_L; set_solver.
Qed.

(** X17.  The keys of the registry that [create_variable_domains] returns
    are exactly the variables of the members of the family: [M_N], [H_N]
    and [G_N] for every member [N], and [P_N] for every female member.
    Every registered domain is one of the four domains of the network,
    for every family (names may repeat). *)
Theorem create_variable_domains_keys (family : list FamilyMember) :
  dom (create_variable_domains family)
  = list_to_set (family ≫= person_variables) ∧
  map_Forall (λ _ d, d ∈ pedigree_domains) (create_variable_domains family).
Proof.
  rewrite create_variable_domains_fold. split.
  - rewrite domains_fold_dom, dom_empty_L. set_solver.
  - apply domains_fold_values. apply map_Forall_empty.
Qed.

(** X18.  In a family whose members have distinct names,
    [create_variable_domains] registers for every member [N]: the domain
    [x, X] for [M_N], the domain [-, +] for [H_N], the three genotypes of
    a female or the two genotypes of any other member for [G_N], and the
    domain [x, X] for [P_N] if [N] is female; [P_N] is not registered
    otherwise. *)
Theorem create_variable_domains_lookup (family : list FamilyMember)
    (p : FamilyMember) :
  NoDup (get_name <$> family) → p ∈ family →
  let D := create_variable_domains family in
  let n := get_name p in
  D !! ("M_" +:+ n) = Some ["x"; "X"] ∧
  D !! ("H_" +:+ n) = Some ["-"; "+"] ∧
  D !! ("G_" +:+ n)
  = Some (if decide (get_sex p = "female")
          then ["xx"; "xX"; "XX"] else ["xy"; "Xy"]) ∧
  D !! ("P_" +:+ n)
  = if decide (get_sex p = "female") then Some ["x"; "X"] else None.
Proof.
  intros Hnd Hp D n. subst D. rewrite create_variable_domains_fold.
  destruct (domains_fold_lookup family Hnd ∅ p Hp) as (HM & HH & HG & HP).
  split_and!; [done | done | done |].
  fold n in HP. rewrite HP. by rewrite lookup_empty.
Qed.

Lemma create_variable_domains_lookup_witness :
  let D := create_variable_domains [alexandra; nicholas; alexey; anastasia] in
  D !! "M_alexey" = Some ["x"; "X"] ∧
  D !! "H_alexey" = Some ["-"; "+"] ∧
  D !! "G_alexey" = Some ["xy"; "Xy"] ∧
  D !! "P_alexey" = None.
Proof.
  apply (create_variable_domains_lookup
           [alexandra; nicholas; alexey; anastasia] alexey);
    [by_evaluation | by apply (list_elem_of_lookup_2 _ 2%nat)].
Defined.

Lemma pedigree_domains_NoDup d : d ∈ pedigree_domains → NoDup d ∧ d ≠ [].
Proof.
  unfold pedigree_domains. rewrite !elem_of_cons.
  intros [->|[->|[->|[->|[]%elem_of_nil]]]]; (split; [by_evaluation|done]).
Qed.

Lemma recorded_genotypes (family : list FamilyMember) (name : string)
    (P : FamilyMember → Prop) :
  NoDup (get_name <$> family) →
  Exists (λ q, get_name q = name ∧ P q) family →
  ∃ q, P q ∧ create_variable_domains family !! ("G_" +:+ name)
             = Some (genotypes_of q).
Proof.
  intros Hnd (q & Hq & <- & HP)%Exists_exists. exists q. split; [done|].
  rewrite create_variable_domains_fold.
  by destruct (domains_fold_lookup family Hnd ∅ q Hq) as (_ & _ & HG & _).
Qed.

Lemma cpts_of_wf (family : list FamilyMember) (p : FamilyMember) :
  NoDup (get_name <$> family) → p ∈ family →
  mother_recorded family p → father_recorded family p →
  Forall (wf_factor (create_variable_domains family)) (cpts_of p).
Proof.
  intros Hnd Hp Hmom Hdad.
  pose proof (domains_fold_lookup family Hnd ∅ p Hp) as (HM & HH & HG & HP).
  rewrite <- create_variable_domains_fold in HM, HH, HG, HP.
  assert (wf_factor (create_variable_domains family)
            (create_maternal_inheritance_cpt p)) as Hmat.
  { apply maternal_cpt_wf; [done|]. intros mom Hm.
    unfold mother_recorded in Hmom. rewrite Hm in Hmom.
    apply (recorded_genotypes _ _ _ Hnd) in Hmom as (q & Hf & ->).
    unfold genotypes_of. by rewrite decide_True. }
  assert (wf_factor (create_variable_domains family) (create_genotype_cpt p))
    as Hgen.
  { apply genotype_cpt_wf; [done | done |]. intros Hf.
    by rewrite decide_True in HP. }
  assert (wf_factor (create_variable_domains family) (create_hemophilia_cpt p))
    as Hhem by by apply hemophilia_cpt_wf.
  unfold cpts_of. destruct (decide (get_sex p = "female")) as [Hf|Hf].
  - simpl. apply Forall_cons. split;
      [|by repeat (apply Forall_cons_2; [done|])].
    apply paternal_cpt_wf; [done|]. intros dad Hd.
    unfold father_recorded in Hdad. rewrite Hd in Hdad. specialize (Hdad Hf).
    apply (recorded_genotypes _ _ _ Hnd) in Hdad as (q & Hm & ->).
    unfold genotypes_of. by rewrite decide_False.
  - simpl. by repeat (apply Forall_cons_2; [done|]).
Qed.

Lemma hemophilia_cpt_variables (p : FamilyMember) :
  variables (create_hemophilia_cpt p)
  = ["G_" +:+ get_name p; "H_" +:+ get_name p].
Proof.
  unfold create_hemophilia_cpt. by destruct (decide (get_sex p = "female")).
Qed.

Lemma genotype_cpt_variables (p : FamilyMember) :
  variables (create_genotype_cpt p)
  = if decide (get_sex p = "female")
    then ["M_" +:+ get_name p; "P_" +:+ get_name p; "G_" +:+ get_name p]
    else ["M_" +:+ get_name p; "G_" +:+ get_name p].
Proof.
  unfold create_genotype_cpt. by destruct (decide (get_sex p = "female")).
Qed.

Lemma person_variables_covered (p : FamilyMember) (v : string) :
  v ∈ person_variables p → ∃ f, f ∈ cpts_of p ∧ v ∈ variables f.
Proof.
  intros Hv.
  assert (create_genotype_cpt p ∈ cpts_of p ∧ create_hemophilia_cpt p ∈ cpts_of p)
    as [Hgen Hhem].
  { unfold cpts_of. rewrite !elem_of_app, !elem_of_cons. tauto. }
  assert (v ∈ variables (create_genotype_cpt p)
          ∨ v ∈ variables (create_hemophilia_cpt p)) as [Hin|Hin].
  { rewrite hemophilia_cpt_variables, genotype_cpt_variables.
    unfold person_variables in Hv. cbv zeta in Hv.
    destruct (decide (get_sex p = "female"));
      rewrite !elem_of_cons in Hv; rewrite !elem_of_cons; tauto. }
  - by exists (create_genotype_cpt p).
  - by exists (create_hemophilia_cpt p).
Qed.

Lemma family_net_wf (family : list FamilyMember) :
  consistent_pedigree family →
  let net := create_family_bayes_net family in
  wf_network net ∧
  set_Forall (inhabited_domain (domains net)) (net_variables net) ∧
  net_variables net = dom (domains net).
Proof.
  intros [Hnd Hrec] net.
  assert (dom (create_variable_domains family)
          = list_to_set (family ≫= person_variables)) as Hdom.
  { rewrite create_variable_domains_fold, domains_fold_dom, dom_empty_L.
    set_solver. }
  assert (map_Forall (λ _ d, d ∈ pedigree_domains)
            (create_variable_domains family)) as Hvals.
  { rewrite create_variable_domains_fold.
    apply domains_fold_values, map_Forall_empty. }
  assert (wf_network net) as Hwf.
  { split.
    - intros k d Hk. by apply pedigree_domains_NoDup, (Hvals k).
    - subst net. rewrite factors_create_family_bayes_net.
      apply Forall_bind. apply Forall_forall. intros p Hp.
      destruct (proj1 (Forall_forall _ _) Hrec p Hp) as [Hmom Hdad].
      by apply cpts_of_wf. }
  assert (∀ v, v ∈ net_variables net → ∃ d, domains net !! v = Some d)
    as Hreg.
  { intros v (f & Hf & Hv)%elem_of_net_variables.
    destruct Hwf as [_ Hfs].
    destruct (proj1 (Forall_forall _ _) Hfs f Hf) as (_ & _ & Hdoms).
    destruct (mapM (domains net !!.) (variables f)) as [doms|] eqn:HmapM;
      [|done].
    apply mapM_Some in HmapM.
    apply list_elem_of_lookup_1 in Hv as [i Hi].
    destruct (Forall2_lookup_l _ _ _ _ _ HmapM Hi) as (d & _ & Hd).
    by exists d. }
  split_and!; [done | |].
  - intros v Hv. destruct (Hreg v Hv) as (d & Hd).
    unfold inhabited_domain. rewrite Hd.
    by apply pedigree_domains_NoDup, (Hvals v).
  - apply set_eq. intros v. split.
    + intros (d & Hd)%Hreg. by apply elem_of_dom.
    + change (domains net) with (create_variable_domains family).
      rewrite Hdom, elem_of_list_to_set, list_elem_of_bind.
      intros (p & Hv & Hp). apply elem_of_net_variables.
      subst net. rewrite factors_create_family_bayes_net.
      destruct (person_variables_covered p v Hv) as (f & Hf & Hvf).
      exists f. split; [|done]. apply list_elem_of_bind. by exists p.
Qed.

(** X19.  For a consistent pedigree (distinct names, every recorded mother
    the name of a female member, every recorded father of a female member
    the name of a member that is not female) the network returned by
    [create_family_bayes_net] is well-formed: every CPT has a scope of
    distinct registered variables and exactly one entry for every
    combination of their domain values.  Every variable of the network has
    a value, and the variables of the network are exactly the keys of the
    registry. *)
Theorem create_family_bayes_net_well_formed (family : list FamilyMember) :
  consistent_pedigree family →
  let net := create_family_bayes_net family in
  wf_network net ∧
  set_Forall (inhabited_domain (domains net)) (net_variables net) ∧
  net_variables net = dom (domains net).
Proof. apply family_net_wf. Qed.

Lemma create_family_bayes_net_well_formed_witness :
  wf_network (create_family_bayes_net [alexandra; nicholas; alexey; anastasia]).
Proof.
  destruct (create_family_bayes_net_well_formed
              [alexandra; nicholas; alexey; anastasia]) as (Hwf & _);
    [by_evaluation | exact Hwf].
Defined.

(** X20.  On the network of a consistent pedigree [compute_marginal]
    raises no error, for every query set and every order of visiting the
    other variables: it returns a factor, and the scope of that factor
    consists of the query variables that [create_variable_domains]
    registers. *)
Theorem pedigree_marginal (iter : gset string → list string)
    (family : list FamilyMember) (vars : gset string) :
  let net := create_family_bayes_net family in
  consistent_pedigree family →
  iteration_order (net_variables net ∖ vars) (iter (net_variables net ∖ vars)) →
  ∃ g, compute_marginal iter net vars = Ok g ∧
       list_to_set (variables g) = vars ∩ dom (create_variable_domains family).
Proof.
  intros net Hped Horder.
  destruct (family_net_wf family Hped) as (Hwf & Hinh & HV). fold net in Hwf, Hinh, HV.
  destruct (compute_marginal_wf iter net vars Hwf Horder) as (g & Hg & _).
  { intros v Hv. apply Hinh. set_solver. }
  exists g. split; [done|].
  rewrite (compute_marginal_variables _ _ _ _ Hg).
  by rewrite (iteration_order_set _ _ Horder), difference_twice, HV.
Qed.

Lemma pedigree_marginal_witness :
  ∃ g, compute_marginal elements
         (create_family_bayes_net [alexandra; nicholas; alexey; anastasia])
         {[ "H_alexey"; "H_rasputin" ]} = Ok g ∧
       list_to_set (variables g) = ({[ "H_alexey" ]} : gset string).
Proof.
  destruct (pedigree_marginal elements
              [alexandra; nicholas; alexey; anastasia]
              {[ "H_alexey"; "H_rasputin" ]}) as (g & Hg & Hscope);
    [by_evaluation | by unfold iteration_order |].
  exists g. split; [exact Hg|]. rewrite Hscope. by_evaluation.
Defined.

(** X21.  On the network of a consistent pedigree, for an event and an
    evidence that give registered variables values of their domains,
    [compute_conditional] either returns a number or raises
    [ZeroDivisionError]; it raises no [KeyError] or [ValueError], whatever
    the order of visiting the variables. *)
Theorem pedigree_conditional (iter : gset string → list string)
    (family : list FamilyMember) (ev evidence : gmap string string) :
  let net := create_family_bayes_net family in
  let D := create_variable_domains family in
  consistent_pedigree family →
  (∀ s, iteration_order s (iter s)) →
  full_assignment D (dom ev) ev →
  full_assignment D (dom evidence) evidence →
  compute_conditional iter net ev evidence = Err ZeroDivisionError ∨
  ∃ r, compute_conditional iter net ev evidence = Ok r.
Proof.
  intros net D Hped Horder Hev Hevid.
  destruct (family_net_wf family Hped) as (Hwf & Hinh & HV).
  fold net in Hwf, Hinh, HV.
  destruct (compute_marginal_wf iter net (dom ev ∪ dom evidence) Hwf)
    as (g1 & Hg1 & Hval1); [done | intros v Hv; apply Hinh; set_solver |].
  destruct (compute_marginal_wf iter net (dom evidence) Hwf)
    as (g2 & Hg2 & Hval2); [done | intros v Hv; apply Hinh; set_solver |].
  assert (full_assignment (domains net)
            ((dom ev ∪ dom evidence) ∩ net_variables net) (evidence ∪ ev))
    as Hfull1.
  { intros v [Hv _]%elem_of_intersection. unfold assigns.
    destruct (decide (v ∈ dom evidence)) as [Hin|Hnin].
    - specialize (Hevid v Hin). unfold assigns in Hevid.
      apply elem_of_dom in Hin as [x Hx].
      rewrite (lookup_union_Some_l _ ev _ _ Hx). by rewrite Hx in Hevid.
    - assert (v ∈ dom ev) as Hin by set_solver.
      specialize (Hev v Hin). unfold assigns in Hev.
      apply not_elem_of_dom in Hnin. by rewrite lookup_union_r. }
  assert (full_assignment (domains net) (dom evidence ∩ net_variables net)
            evidence) as Hfull2.
  { intros v [Hv _]%elem_of_intersection. by apply Hevid. }
  rewrite (compute_conditional_eq _ _ _ _ _ _ _ _
             Hg1 (Hval1 _ Hfull1) Hg2 (Hval2 _ Hfull2)).
  destruct (decide _); [by left | right; by eexists].
Qed.

Lemma pedigree_conditional_witness :
  let net := create_family_bayes_net [alexandra; nicholas; alexey; anastasia] in
  compute_conditional elements net {[ "H_alexey" := "+" ]}
                      {[ "G_alexandra" := "xX" ]} = Err ZeroDivisionError ∨
  ∃ r, compute_conditional elements net {[ "H_alexey" := "+" ]}
                           {[ "G_alexandra" := "xX" ]} = Ok r.
Proof.
  apply (pedigree_conditional elements
           [alexandra; nicholas; alexey; anastasia]);
    [by_evaluation | by unfold iteration_order | by_evaluation | by_evaluation].
Defined.
